(** * stores/index.ts : persistence of the redux state in localStorage

    A shallow embedding of [src/stores/index.ts].  The module keeps one
    redux store, saves its state in [localStorage] after every change and,
    when a write fails, trims a copy of the state until it fits.

    The state is a JavaScript object graph: [trimState] deletes properties,
    splices an array and re-points a field of the object it is given.  The
    embedding therefore keeps a heap of objects addressed by locations, so
    that sharing between the state in use, the copy being trimmed and the
    constant [storeStateDefault] is visible.  Calls of the browser
    ([localStorage], [JSON]) go through an interface, and every call of
    [localStorage] is recorded in a log.

    Not embedded: the logging middleware of the store and the
    [console.log] of [setDimensions], which only print. *)

From Stdlib Require Import ZArith Lia Bool Ascii String.
From stdpp Require Import base list strings pretty.

Local Open Scope Z_scope.
Local Open Scope nat_scope.

(** ** Values *)

(** Data this module only carries around (game specs, contacts, the user
    record, the remaining fields of the state) is kept as a JSON value. *)
#[warnings="-register-all"] Inductive json : Type :=
| JNull
| JBool (b : bool)
| JNum (z : Z)
| JStr (s : string)
| JArr (items : list json)
| JObj (members : list (string * json)).

(** An object used as a map: its own enumerable properties, in the order
    of [Object.keys], which is also the order in which [JSON.stringify]
    prints them. *)
Abbreviation props := (list (string * json)) (only parsing).

(** A location of the heap. *)
Abbreviation loc := nat (only parsing).

(** A match record.  [lastUpdatedOn] is a timestamp in milliseconds. *)
Record Match : Type := mkMatch {
  gameSpecId : string;
  lastUpdatedOn : Z;
  matchProps : props
}.

(** [state.gameSpecs]: the map from spec id to spec is an object of its
    own; the other tables of the record are not read here. *)
Record GameSpecs : Type := mkGameSpecs {
  gameSpecIdToGameSpec : loc;
  gameSpecsProps : props
}.

(** The fields of [StoreState] that this module reads or writes. *)
Record StoreState : Type := mkStoreState {
  gameSpecs : loc;
  matchesList : loc;
  phoneNumberToContact : loc;
  myUser : json;
  stateProps : props
}.

Inductive Obj : Type :=
| OState (s : StoreState)
| OGameSpecs (g : GameSpecs)
| OSpecMap (d : props)
| OContactMap (d : props)
| OArray (a : list loc)
| OMatch (m : Match)
| OAction (a : props).

(** The heap: location [l] is the [l]-th object allocated. *)
Abbreviation Heap := (list Obj) (only parsing).

(** The value of a state: what [JSON.stringify] sees when it walks the
    object graph from a state object. *)
Record Snapshot : Type := mkSnapshot {
  snap_gameSpecIdToGameSpec : props;
  snap_gameSpecsProps : props;
  snap_matchesList : list Match;
  snap_phoneNumberToContact : props;
  snap_myUser : json;
  snap_stateProps : props
}.

(** ** Exceptions, results, the log of storage calls *)

Inductive exn : Type :=
| QuotaExceededError
| SecurityError
| ReferenceError
| SyntaxError
| TypeError
| Error (msg : string).

Inductive Result (A : Type) : Type :=
| Normal (a : A)
| Throw (e : exn).
Arguments Normal {A} a.
Arguments Throw {A} e.

Inductive StorageCall : Type :=
| GetItem (key : string)
| SetItem (key value : string)
| RemoveItem (key : string).

(** The one listener this module subscribes to the store: the arrow
    function of [persistNewState]. *)
Inductive Listener : Type :=
| PersistListener.

(** ** The environment of the module

    What the module imports or finds in the browser.  [W] is the state of
    the storage backend; a call may change it whether it succeeds or
    throws. *)
Class Env (W : Type) : Type := mkEnv {
  (** [typeof window !== 'undefined'] *)
  window_defined : bool;
  (** ['localStorage' in window] *)
  localStorage_in_window : bool;
  ls_getItem : string -> W -> Result (option string) * W;
  ls_setItem : string -> string -> W -> Result unit * W;
  ls_removeItem : string -> W -> Result unit * W;
  JSON_stringify : Snapshot -> string;
  (** [None] stands for the [SyntaxError] of [JSON.parse]. *)
  JSON_parse : string -> option json;
  (** The constant of [./defaults], an object of the heap. *)
  storeStateDefault : loc;
  (** The reducer of [../reducers]; the first argument is the current
      state, [None] for [undefined]. *)
  reducer : option loc -> props -> Heap -> loc * Heap
}.

(** ** Machine state: heap, storage, logs and the module's variables *)

Record MState (W : Type) : Type := mkMState {
  heap : Heap;
  world : W;
  storageLog : list StorageCall;
  (** the actions the store has reduced, oldest first *)
  dispatched : list props;
  hasLocalStorage : bool;
  persistedOldStore : option json;
  (** [store.getState()]; [None] before [createStore] *)
  store_state : option loc;
  store_listeners : list Listener
}.
Arguments mkMState {W}.
Arguments heap {W}.
Arguments world {W}.
Arguments storageLog {W}.
Arguments dispatched {W}.
Arguments hasLocalStorage {W}.
Arguments persistedOldStore {W}.
Arguments store_state {W}.
Arguments store_listeners {W}.

Section Machine.
Context {W : Type}.

Definition set_heap (h : Heap) (ms : MState W) : MState W :=
  mkMState h (world ms) (storageLog ms) (dispatched ms) (hasLocalStorage ms)
           (persistedOldStore ms) (store_state ms) (store_listeners ms).

Definition set_storage (w : W) (c : StorageCall) (ms : MState W) : MState W :=
  mkMState (heap ms) w (storageLog ms ++ [c]) (dispatched ms) (hasLocalStorage ms)
           (persistedOldStore ms) (store_state ms) (store_listeners ms).

Definition set_hasLocalStorage (b : bool) (ms : MState W) : MState W :=
  mkMState (heap ms) (world ms) (storageLog ms) (dispatched ms) b
           (persistedOldStore ms) (store_state ms) (store_listeners ms).

Definition set_persistedOldStore (o : option json) (ms : MState W) : MState W :=
  mkMState (heap ms) (world ms) (storageLog ms) (dispatched ms) (hasLocalStorage ms)
           o (store_state ms) (store_listeners ms).

Definition set_store (h : Heap) (s : option loc) (a : list props) (ms : MState W) : MState W :=
  mkMState h (world ms) (storageLog ms) (dispatched ms ++ a) (hasLocalStorage ms)
           (persistedOldStore ms) s (store_listeners ms).

Definition add_listener (l : Listener) (ms : MState W) : MState W :=
  mkMState (heap ms) (world ms) (storageLog ms) (dispatched ms) (hasLocalStorage ms)
           (persistedOldStore ms) (store_state ms) (store_listeners ms ++ [l]).

(** The machine with another heap, storage and storage log; the
    variables of the module and of the store are kept. *)
Definition with_effects (h : Heap) (w : W) (log : list StorageCall) (ms : MState W)
  : MState W :=
  mkMState h w log (dispatched ms) (hasLocalStorage ms)
           (persistedOldStore ms) (store_state ms) (store_listeners ms).

(** Computations: a state transformer that returns normally or throws.
    What a computation did before it threw stays done. *)
Definition M (A : Type) : Type := MState W -> Result A * MState W.

Definition ret {A} (a : A) : M A := fun ms => (Normal a, ms).

Definition throw {A} (e : exn) : M A := fun ms => (Throw e, ms).

Definition bind {A B} (m : M A) (k : A -> M B) : M B :=
  fun ms =>
    match m ms with
    | (Normal a, ms') => k a ms'
    | (Throw e, ms') => (Throw e, ms')
    end.

(** [try { m } catch (e) { ... }]: the outcome of [m] as a value. *)
Definition attempt {A} (m : M A) : M (Result A) :=
  fun ms => let (r, ms') := m ms in (Normal r, ms').

(** A computation that only reads the heap. *)
Definition liftR {A} (f : Heap -> Result A) : M A :=
  fun ms => (f (heap ms), ms).

End Machine.

Notation "'let*' x ':=' m 'in' k" := (bind m (fun x => k))
  (at level 10, x name, m at level 100, k at level 200).
Notation "m ';;;' k" := (bind m (fun _ => k))
  (at level 100, k at level 200, right associativity).

(** ** Heap access *)

Section Heap.
Context {W : Type}.

(** [new]: the object gets the next free location. *)
Definition alloc (o : Obj) : M (W:=W) loc :=
  fun ms => (Normal (length (heap ms)), set_heap (heap ms ++ [o]) ms).

(** Writing an object in place. *)
Definition setObj (l : loc) (o : Obj) : M (W:=W) unit :=
  fun ms => (Normal tt, set_heap (<[l:=o]> (heap ms)) ms).

Definition readState (h : Heap) (l : loc) : Result StoreState :=
  match h !! l with Some (OState s) => Normal s | _ => Throw TypeError end.

Definition readGameSpecs (h : Heap) (l : loc) : Result GameSpecs :=
  match h !! l with Some (OGameSpecs g) => Normal g | _ => Throw TypeError end.

Definition readSpecMap (h : Heap) (l : loc) : Result props :=
  match h !! l with Some (OSpecMap d) => Normal d | _ => Throw TypeError end.

Definition readContactMap (h : Heap) (l : loc) : Result props :=
  match h !! l with Some (OContactMap d) => Normal d | _ => Throw TypeError end.

Definition readArray (h : Heap) (l : loc) : Result (list loc) :=
  match h !! l with Some (OArray a) => Normal a | _ => Throw TypeError end.

Definition readMatch (h : Heap) (l : loc) : Result Match :=
  match h !! l with Some (OMatch m) => Normal m | _ => Throw TypeError end.

Definition readAction (h : Heap) (l : loc) : Result props :=
  match h !! l with Some (OAction a) => Normal a | _ => Throw TypeError end.

Definition getState (l : loc) : M (W:=W) StoreState := liftR (fun h => readState h l).
Definition getGameSpecs (l : loc) : M (W:=W) GameSpecs := liftR (fun h => readGameSpecs h l).
Definition getSpecMap (l : loc) : M (W:=W) props := liftR (fun h => readSpecMap h l).
Definition getContactMap (l : loc) : M (W:=W) props := liftR (fun h => readContactMap h l).
Definition getArray (l : loc) : M (W:=W) (list loc) := liftR (fun h => readArray h l).

End Heap.

(** ** JavaScript built-ins used by [trimState] *)

Definition Object_keys (d : props) : list string := map fst d.

(** [delete o[k]] *)
Definition delete_prop (k : string) (d : props) : props :=
  filter (fun kv => negb (String.eqb (fst kv) k)) d.

(** [a.find(m => m.gameSpecId === specId)]: the first such element, or
    [None] for [undefined]; the elements after it are not read. *)
Fixpoint Array_find (h : Heap) (specId : string) (a : list loc) : Result (option loc) :=
  match a with
  | [] => Normal None
  | l :: a' =>
      match readMatch h l with
      | Normal m =>
          if String.eqb (gameSpecId m) specId then Normal (Some l)
          else Array_find h specId a'
      | Throw e => Throw e
      end
  end.

(** [a.reduce((accum, curr) => accum.lastUpdatedOn > curr.lastUpdatedOn
    ? curr : accum, init)] *)
Fixpoint Array_reduce (h : Heap) (a : list loc) (accum : loc) : Result loc :=
  match a with
  | [] => Normal accum
  | curr :: a' =>
      match readMatch h accum, readMatch h curr with
      | Normal ma, Normal mc =>
          Array_reduce h a'
            (if Z.gtb (lastUpdatedOn ma) (lastUpdatedOn mc) then curr else accum)
      | Throw e, _ => Throw e
      | _, Throw e => Throw e
      end
  end.

(** [a.indexOf(x)]: elements are compared as references; -1 when absent. *)
Fixpoint Array_indexOf_from (x : loc) (a : list loc) (i : Z) : Z :=
  match a with
  | [] => (-1)%Z
  | y :: a' => if Nat.eqb y x then i else Array_indexOf_from x a' (i + 1)%Z
  end.

Definition Array_indexOf (x : loc) (a : list loc) : Z := Array_indexOf_from x a 0%Z.

(** [a.splice(start, 1)]: a negative [start] counts from the end. *)
Definition Array_splice1 (start : Z) (a : list loc) : list loc :=
  let len := Z.of_nat (length a) in
  let s := if Z.ltb start 0 then Z.max (len + start) 0 else Z.min start len in
  delete (Z.to_nat s) a.

(** ** trimState *)

Section Trim.
Context {W : Type} {E : Env W}.

(** Lines 53-59: the ids of the specs that no match refers to. *)
Fixpoint gameSpecsToDelete (h : Heap) (a : list loc) (keys : list string)
  : Result (list string) :=
  match keys with
  | [] => Normal []
  | specId :: keys' =>
      match Array_find h specId a with
      | Throw e => Throw e
      | Normal specIdInMatch =>
          match gameSpecsToDelete h a keys' with
          | Throw e => Throw e
          | Normal rest =>
              Normal (match specIdInMatch with
                      | None => specId :: rest
                      | Some _ => rest
                      end)
          end
      end
  end.

(** Lines 68-84: what [trimState] does when no game spec was deleted. *)
Definition trimMatches (state : loc) : M (W:=W) loc :=
  let* st := getState state in
  let* a := getArray (matchesList st) in
  if 0 <? length a then
    let* oldestMatch := liftR (fun h => Array_reduce h a (hd 0 a)) in
    let oldestIdx := Array_indexOf oldestMatch a in
    setObj (matchesList st) (OArray (Array_splice1 oldestIdx a)) ;;;
    ret state
  else
    let* contacts := getContactMap (phoneNumberToContact st) in
    if 0 <? length (Object_keys contacts) then
      let* empty := alloc (OContactMap []) in
      setObj state
        (OState (mkStoreState (gameSpecs st) (matchesList st) empty
                              (myUser st) (stateProps st))) ;;;
      ret state
    else
      let* d := getState storeStateDefault in
      alloc (OState (mkStoreState (gameSpecs d) (matchesList d)
                                  (phoneNumberToContact d) (myUser st)
                                  (stateProps d))).

Definition trimState (state : loc) : M (W:=W) loc :=
  let* st := getState state in
  let* gs := getGameSpecs (gameSpecs st) in
  let* specs := getSpecMap (gameSpecIdToGameSpec gs) in
  if 0 <? length (Object_keys specs) then
    let* a := getArray (matchesList st) in
    let* toDelete := liftR (fun h => gameSpecsToDelete h a (Object_keys specs)) in
    if 0 <? length toDelete then
      setObj (gameSpecIdToGameSpec gs)
        (OSpecMap (fold_left (fun d specId => delete_prop specId d) toDelete specs)) ;;;
      ret state
    else trimMatches state
  else trimMatches state.

End Trim.

(** ** The value of a state *)

Fixpoint readMatches (h : Heap) (a : list loc) : option (list Match) :=
  match a with
  | [] => Some []
  | l :: a' =>
      match h !! l, readMatches h a' with
      | Some (OMatch m), Some ms => Some (m :: ms)
      | _, _ => None
      end
  end.

Definition snapshot (h : Heap) (state : loc) : option Snapshot :=
  match h !! state with
  | Some (OState st) =>
      match h !! gameSpecs st, h !! matchesList st, h !! phoneNumberToContact st with
      | Some (OGameSpecs gs), Some (OArray a), Some (OContactMap contacts) =>
          match h !! gameSpecIdToGameSpec gs, readMatches h a with
          | Some (OSpecMap specs), Some ms =>
              Some (mkSnapshot specs (gameSpecsProps gs) ms contacts
                               (myUser st) (stateProps st))
          | _, _ => None
          end
      | _, _, _ => None
      end
  | _ => None
  end.

(** ** Saving, copying, and the listener of [persistNewState] *)

Section Persist.
Context {W : Type} {E : Env W}.

Definition REDUX_STATE_LOCAL_STORAGE_KEY : string := "reduxState".

Definition localStorage_getItem (key : string) : M (W:=W) (option string) :=
  fun ms => let (r, w) := ls_getItem key (world ms) in
            (r, set_storage w (GetItem key) ms).

Definition localStorage_setItem (key value : string) : M (W:=W) unit :=
  fun ms => let (r, w) := ls_setItem key value (world ms) in
            (r, set_storage w (SetItem key value) ms).

Definition localStorage_removeItem (key : string) : M (W:=W) unit :=
  fun ms => let (r, w) := ls_removeItem key (world ms) in
            (r, set_storage w (RemoveItem key) ms).

(** [JSON.stringify(state)] walks the object graph below [state].  The
    type [StoreState] of the source gives every state its game specs, its
    array of matches and its contact map: such a state has a value, and
    the encoder prints it.  A location of the heap that holds no such
    state is answered with [TypeError]; the theorems about what the
    listener writes are about states that have a value. *)
Definition stringify (state : loc) : M (W:=W) string :=
  liftR (fun h => match snapshot h state with
                  | Some v => Normal (JSON_stringify v)
                  | None => Throw TypeError
                  end).

Definition saveStateInLocalStorage (state : loc) : M (W:=W) unit :=
  let* s := stringify state in
  localStorage_setItem REDUX_STATE_LOCAL_STORAGE_KEY s.

(** Modelled from the spec: [deepCopy] of [../globals] is not part of the
    sources.  The spec calls its result "a deep copy of the state": a new
    object graph with the same value that shares no object with the
    original.  The copy is laid out at the end of the heap: the spec map,
    the [gameSpecs] record, the contact map, the array, the state object,
    then one object per match. *)
Definition deepCopy (state : loc) : M (W:=W) loc :=
  fun ms =>
    let h := heap ms in
    match snapshot h state with
    | Some v =>
        let n := length h in
        (Normal (n + 4),
         set_heap
           (h ++ [OSpecMap (snap_gameSpecIdToGameSpec v);
                  OGameSpecs (mkGameSpecs n (snap_gameSpecsProps v));
                  OContactMap (snap_phoneNumberToContact v);
                  OArray (seq (n + 5) (length (snap_matchesList v)));
                  OState (mkStoreState (n + 1) (n + 3) (n + 2)
                                       (snap_myUser v) (snap_stateProps v))]
              ++ map OMatch (snap_matchesList v)) ms)
    | None => (Throw TypeError, ms)
    end.

Definition store_getState : M (W:=W) loc :=
  fun ms => match store_state ms with
            | Some l => (Normal l, ms)
            | None => (Throw TypeError, ms)
            end.

(** Lines 98-106; [i] counts the iterations that are left.  An exception
    of [trimState] leaves the variable [state] as it was, an exception of
    the write leaves it assigned to the trimmed state. *)
Fixpoint retryLoop (i : nat) (state : loc) : M (W:=W) unit :=
  match i with
  | 0 => ret tt
  | S i' =>
      let* r := attempt (trimState state) in
      match r with
      | Throw _ => retryLoop i' state
      | Normal state' =>
          let* r' := attempt (saveStateInLocalStorage state') in
          match r' with
          | Normal _ => ret tt
          | Throw _ => retryLoop i' state'
          end
      end
  end.

(** Lines 88-109: the function given to [store.subscribe]. *)
Definition persistListener : M (W:=W) unit :=
  fun ms =>
    if hasLocalStorage ms then
      (let* state := store_getState in
       let* r := attempt (saveStateInLocalStorage state) in
       match r with
       | Normal _ => ret tt
       | Throw _ =>
           let* state' := deepCopy state in
           retryLoop 100 state'
       end) ms
    else (Normal tt, ms).

Definition runListener (l : Listener) : M (W:=W) unit :=
  match l with
  | PersistListener => persistListener
  end.

Definition store_subscribe (l : Listener) : M (W:=W) unit :=
  fun ms => (Normal tt, add_listener l ms).

Definition persistNewState : M (W:=W) unit := store_subscribe PersistListener.

End Persist.

(** ** Start-up: the probe and the restored state *)

Section Startup.
Context {W : Type} {E : Env W}.

Definition checkIfLocalStorageWorks : M (W:=W) bool :=
  if window_defined && negb localStorage_in_window then ret false
  else
    let* r := attempt (localStorage_setItem "testLocalStorage" "someTestValue" ;;;
                       localStorage_removeItem "testLocalStorage") in
    match r with
    | Throw _ => ret false
    | Normal _ => ret true
    end.

(** A string is truthy unless it is empty; [null] is falsy. *)
Definition truthy (s : string) : bool :=
  match s with
  | EmptyString => false
  | String _ _ => true
  end.

Definition restoreOldState : M (W:=W) (option json) :=
  fun ms =>
    if hasLocalStorage ms then
      (let* oldStateStr := localStorage_getItem REDUX_STATE_LOCAL_STORAGE_KEY in
       match oldStateStr with
       | Some str =>
           if truthy str then
             match JSON_parse str with
             | Some v => ret (Some v)
             | None => throw SyntaxError
             end
           else ret None
       | None => ret None
       end) ms
    else (Normal None, ms).

End Startup.

(** ** The store and [dispatch] *)

Section Dispatch.
Context {W : Type} {E : Env W}.

Fixpoint get_prop (k : string) (o : props) : option json :=
  match o with
  | [] => None
  | (k', v) :: o' => if String.eqb k' k then Some v else get_prop k o'
  end.

(** [o[k] = v]: an own property keeps its place, a new one goes last. *)
Fixpoint set_prop (k : string) (v : json) (o : props) : props :=
  match o with
  | [] => [(k, v)]
  | (k', v') :: o' =>
      if String.eqb k' k then (k, v) :: o' else (k', v') :: set_prop k v o'
  end.

Fixpoint runListeners (ls : list Listener) : M (W:=W) unit :=
  match ls with
  | [] => ret tt
  | l :: ls' => runListener l ;;; runListeners ls'
  end.

(** [store.dispatch] of redux: an action without [type] is refused, the
    reducer gives the next state, then every listener is called. *)
Definition store_dispatch (action : loc) : M (W:=W) unit :=
  let* a := liftR (fun h => readAction h action) in
  match get_prop "type" a with
  | None => throw (Error "Actions may not have an undefined type property")
  | Some _ =>
      (fun ms =>
         let (s, h) := reducer (store_state ms) a (heap ms) in
         (Normal tt, set_store h (Some s) [a] ms)) ;;;
      (fun ms => runListeners (store_listeners ms) ms)
  end.

(** [createStore(reducer, undefined, enhancer)]: the first state is what
    the reducer makes of [undefined]. *)
Definition createStore : M (W:=W) unit :=
  fun ms =>
    let (s, h) := reducer None [("type", JStr "@@redux/INIT")] (heap ms) in
    (Normal tt, set_store h (Some s) [] ms).

(** Modelled from the spec: [checkCondition] of [../globals] is not part
    of the sources.  The spec has a violated condition "fail fast": the
    call throws, and nothing here catches it. *)
Definition checkCondition (desc : string) (cond : bool) : M (W:=W) unit :=
  if cond then ret tt else throw (Error desc).

Definition dispatch (action : loc) : M (W:=W) unit :=
  let* a := liftR (fun h => readAction h action) in
  let actionType := Object_keys a in
  checkCondition "actionType" (length actionType =? 1) ;;;
  setObj action (OAction (set_prop "type" (JStr (hd EmptyString actionType)) a)) ;;;
  store_dispatch action.

(** The top level of the module, in the order of the file. *)
Definition module_init : M (W:=W) unit :=
  let* works := checkIfLocalStorageWorks in
  (fun ms => (Normal tt, set_hasLocalStorage works ms)) ;;;
  let* old := restoreOldState in
  (fun ms => (Normal tt, set_persistedOldStore old ms)) ;;;
  createStore ;;;
  persistNewState.

End Dispatch.

(** ** The value-level reading of [trimState]

    One trimming step as a function of values, written after the four
    steps of the specification, with [D] the value of
    [storeStateDefault].  The lemma [trimState_step] below proves that
    [trimState] computes it on the heap. *)

Definition referenced (ms : list Match) (specId : string) : bool :=
  existsb (fun m => String.eqb (gameSpecId m) specId) ms.

Definition orphans (specs : props) (ms : list Match) : list string :=
  filter (fun k => negb (referenced ms k)) (Object_keys specs).

(** The position of the first match whose [lastUpdatedOn] is minimal;
    [i] is the position of the head of the list. *)
Fixpoint oldest_from (ms : list Match) (i : nat) (best : nat) (bestm : Match) : nat :=
  match ms with
  | [] => best
  | m :: ms' =>
      if Z.gtb (lastUpdatedOn bestm) (lastUpdatedOn m)
      then oldest_from ms' (S i) i m
      else oldest_from ms' (S i) best bestm
  end.

Definition oldest_index (ms : list Match) : nat :=
  match ms with
  | [] => 0
  | m :: ms' => oldest_from ms' 1 0 m
  end.

Definition trim_value (D v : Snapshot) : Snapshot :=
  match orphans (snap_gameSpecIdToGameSpec v) (snap_matchesList v) with
  | _ :: _ =>
      mkSnapshot
        (filter (fun kv => referenced (snap_matchesList v) (fst kv))
                (snap_gameSpecIdToGameSpec v))
        (snap_gameSpecsProps v) (snap_matchesList v)
        (snap_phoneNumberToContact v) (snap_myUser v) (snap_stateProps v)
  | [] =>
      match snap_matchesList v with
      | _ :: _ =>
          mkSnapshot (snap_gameSpecIdToGameSpec v) (snap_gameSpecsProps v)
                     (delete (oldest_index (snap_matchesList v)) (snap_matchesList v))
                     (snap_phoneNumberToContact v) (snap_myUser v) (snap_stateProps v)
      | [] =>
          match snap_phoneNumberToContact v with
          | _ :: _ =>
              mkSnapshot (snap_gameSpecIdToGameSpec v) (snap_gameSpecsProps v)
                         (snap_matchesList v) [] (snap_myUser v) (snap_stateProps v)
          | [] =>
              mkSnapshot (snap_gameSpecIdToGameSpec D) (snap_gameSpecsProps D)
                         (snap_matchesList D) (snap_phoneNumberToContact D)
                         (snap_myUser v) (snap_stateProps D)
          end
      end
  end.

(** [{...storeStateDefault, myUser: u}] as a value. *)
Definition default_with_user (D : Snapshot) (u : json) : Snapshot :=
  mkSnapshot (snap_gameSpecIdToGameSpec D) (snap_gameSpecsProps D)
             (snap_matchesList D) (snap_phoneNumberToContact D)
             u (snap_stateProps D).

(** The match at position [i] has the least [lastUpdatedOn] of the list
    and is the first one that has it. *)
Definition first_oldest (ms : list Match) (i : nat) : Prop :=
  exists m,
    ms !! i = Some m /\
    (forall j m', ms !! j = Some m' -> (lastUpdatedOn m <= lastUpdatedOn m')%Z) /\
    (forall j m', j < i -> ms !! j = Some m' -> (lastUpdatedOn m < lastUpdatedOn m')%Z).

(** The state below [state] is well formed and has the value [v]. *)
Definition has_value (h : Heap) (state : loc) (v : Snapshot) : Prop :=
  snapshot h state = Some v.

(** [has_value] spelled out: the objects below [state] and what they
    hold. *)
Definition shape (h : Heap) (state : loc) (st : StoreState) (gs : GameSpecs)
    (a : list loc) (v : Snapshot) : Prop :=
  h !! state = Some (OState st) /\
  h !! gameSpecs st = Some (OGameSpecs gs) /\
  h !! gameSpecIdToGameSpec gs = Some (OSpecMap (snap_gameSpecIdToGameSpec v)) /\
  h !! matchesList st = Some (OArray a) /\
  readMatches h a = Some (snap_matchesList v) /\
  h !! phoneNumberToContact st = Some (OContactMap (snap_phoneNumberToContact v)) /\
  gameSpecsProps gs = snap_gameSpecsProps v /\
  myUser st = snap_myUser v /\
  stateProps st = snap_stateProps v.

(** The objects that [trimState] may write when it is given [state] lie
    at or above [n]: the state object itself, its spec map unless it is
    empty, its array of matches unless it is empty. *)
Definition owned (n : nat) (h : Heap) (state : loc) : Prop :=
  exists st gs a v,
    shape h state st gs a v /\
    n <= state /\
    (snap_gameSpecIdToGameSpec v <> [] -> n <= gameSpecIdToGameSpec gs) /\
    (snap_matchesList v <> [] -> n <= matchesList st).

(** One of the first three steps of [trimState] applies to the value. *)
Definition trims_in_place (v : Snapshot) : Prop :=
  orphans (snap_gameSpecIdToGameSpec v) (snap_matchesList v) <> [] \/
  snap_matchesList v <> [] \/
  snap_phoneNumberToContact v <> [].

(** [storeStateDefault] is a state of value [D] without game specs,
    matches or contacts. *)
Definition default_ok {W} {E : Env W} (h : Heap) (D : Snapshot) : Prop :=
  snapshot h storeStateDefault = Some D /\
  snap_gameSpecIdToGameSpec D = [] /\
  snap_matchesList D = [] /\
  snap_phoneNumberToContact D = [].

(** The value after [n] steps of [trim_value]. *)
Fixpoint trimmed (D : Snapshot) (n : nat) (v : Snapshot) : Snapshot :=
  match n with
  | 0 => v
  | S n' => trimmed D n' (trim_value D v)
  end.

(** [n] calls of [trimState], each on the result of the one before. *)
Fixpoint trimTimes {W} {E : Env W} (n : nat) (state : loc) : M (W:=W) loc :=
  match n with
  | 0 => ret state
  | S n' => let* state' := trimState state in trimTimes n' state'
  end.

(** In the storage states of [P] every write throws [e] and leaves a
    state of [P]. *)
Definition writes_fail {W} {E : Env W} (e : exn) (P : W -> Prop) : Prop :=
  forall key value w, P w -> exists w', ls_setItem key value w = (Throw e, w') /\ P w'.

(** The writes of the values after [i], [i+1], ... steps of trimming. *)
Definition writes_of {W} {E : Env W} (D v : Snapshot) (i n : nat) : list StorageCall :=
  map (fun j => SetItem REDUX_STATE_LOCAL_STORAGE_KEY (JSON_stringify (trimmed D j v)))
      (seq i n).

(** The variables of the module and of the store are the same in [ms]
    and [ms']. *)
Definition same_store {W} (ms ms' : MState W) : Prop :=
  dispatched ms' = dispatched ms /\
  hasLocalStorage ms' = hasLocalStorage ms /\
  persistedOldStore ms' = persistedOldStore ms /\
  store_state ms' = store_state ms /\
  store_listeners ms' = store_listeners ms.

(** A computation that leaves them alone. *)
Definition keeps {W A} (m : M (W:=W) A) : Prop :=
  forall ms, same_store ms (snd (m ms)).

(** A computation that changes nothing but the heap. *)
Definition heap_only {W A} (m : M (W:=W) A) : Prop :=
  forall ms, exists h, snd (m ms) = set_heap h ms.

(** The size that bounds the number of trimming steps. *)
Definition trim_measure (v : Snapshot) : nat :=
  length (snap_gameSpecIdToGameSpec v) + length (snap_matchesList v) +
  match snap_phoneNumberToContact v with [] => 0 | _ :: _ => 1 end.

(** A run of the process after start-up: calls of the exported
    [dispatch] and actions that reach the store directly.  Each input is
    a turn of the event loop of its own: an exception ends the turn, not
    the run. *)
Inductive Input : Type :=
| CallDispatch (action : loc)
| StoreDispatch (action : loc).

Fixpoint run {W} {E : Env W} (inputs : list Input) : M (W:=W) unit :=
  match inputs with
  | [] => ret tt
  | CallDispatch a :: rest => attempt (dispatch a) ;;; run rest
  | StoreDispatch a :: rest => attempt (store_dispatch a) ;;; run rest
  end.

(** ** The resize handler (lines 122-157)

    [window.innerWidth] and [window.innerHeight] are read when the handler
    or the timer callback runs; they are arguments here.  The variable
    [isThrottled] and the callbacks given to [setTimeout] that have not
    run yet are kept beside the machine. *)

Record Resizer (W : Type) : Type := mkResizer {
  machine : MState W;
  isThrottled : bool;
  pendingTimers : nat
}.
Arguments mkResizer {W}.
Arguments machine {W}.
Arguments isThrottled {W}.
Arguments pendingTimers {W}.

(** Lines 143-147: [windowDimensions && windowDimensions.windowWidth ===
    windowWidth && windowDimensions.windowHeight === windowHeight], for
    the value of [store.getState().windowDimensions] ([None] when the
    state has no such field). *)
Definition same_dimensions (windowDimensions : option json)
    (windowWidth windowHeight : Z) : bool :=
  match windowDimensions with
  | Some (JObj o) =>
      match get_prop "windowWidth" o, get_prop "windowHeight" o with
      | Some (JNum a), Some (JNum b) => Z.eqb a windowWidth && Z.eqb b windowHeight
      | _, _ => false
      end
  | _ => false
  end.

(** The object literal of lines 151-156. *)
Definition dimensions_action (windowWidth windowHeight : Z) : props :=
  [("setWindowDimensions",
    JObj [("windowWidth", JNum windowWidth); ("windowHeight", JNum windowHeight)])].

Section Resize.
Context {W : Type} {E : Env W}.

Definition setDimensions (windowWidth windowHeight : Z) : M (W:=W) unit :=
  let* state := store_getState in
  let* st := getState state in
  if same_dimensions (get_prop "windowDimensions" (stateProps st))
                     windowWidth windowHeight
  then ret tt
  else
    let* action := alloc (OAction (dimensions_action windowWidth windowHeight)) in
    dispatch action.

(** Lines 127-137.  An exception of [setDimensions] leaves the handler
    before the timer is set and before [isThrottled] is. *)
Definition handleResize (windowWidth windowHeight : Z) (r : Resizer W)
  : Result unit * Resizer W :=
  if isThrottled r then (Normal tt, r)
  else
    match setDimensions windowWidth windowHeight (machine r) with
    | (Normal _, ms) => (Normal tt, mkResizer ms true (S (pendingTimers r)))
    | (Throw e, ms) => (Throw e, mkResizer ms false (pendingTimers r))
    end.

(** Lines 130-133: the function given to [setTimeout]. *)
Definition callback (windowWidth windowHeight : Z) (r : Resizer W)
  : Result unit * Resizer W :=
  let (res, ms) := setDimensions windowWidth windowHeight (machine r) in
  (res, mkResizer ms false (pendingTimers r)).

End Resize.

(** What the window does to the module: a resize or orientation change,
    or the expiry of a timer, each with the size the window has then.  A
    timer can only expire if one is pending. *)
Inductive WindowEvent : Type :=
| ResizeEvent (windowWidth windowHeight : Z)
| TimerExpires (windowWidth windowHeight : Z).

Definition window_step {W} {E : Env W} (ev : WindowEvent) (r : Resizer W) : Resizer W :=
  match ev with
  | ResizeEvent w h => snd (handleResize w h r)
  | TimerExpires w h =>
      match pendingTimers r with
      | 0 => r
      | S n => snd (callback w h (mkResizer (machine r) (isThrottled r) n))
      end
  end.

Fixpoint window_run {W} {E : Env W} (evs : list WindowEvent) (r : Resizer W) : Resizer W :=
  match evs with
  | [] => r
  | ev :: evs' => window_run evs' (window_step ev r)
  end.

(** [isThrottled] is set exactly when one timer is pending, and never
    more than one is. *)
Definition throttle_inv {W} (r : Resizer W) : Prop :=
  pendingTimers r = if isThrottled r then 1 else 0.

(** ** Notions for the further properties *)

(** The kinds of object that [trimState] assigns to: state objects, spec
    maps and arrays. *)
Definition trim_may_write (o : Obj) : bool :=
  match o with
  | OState _ | OSpecMap _ | OArray _ => true
  | _ => false
  end.

(** Every object of another kind is in [h'] what it was in [h]. *)
Definition others_kept (h h' : Heap) : Prop :=
  forall l o, h !! l = Some o -> trim_may_write o = false -> h' !! l = Some o.

(** A call that writes the snapshot key. *)
Definition is_state_write (c : StorageCall) : Prop :=
  exists value, c = SetItem "reduxState" value.

(** A call on the key of the probe. *)
Definition is_probe_call (c : StorageCall) : Prop :=
  c = SetItem "testLocalStorage" "someTestValue" \/ c = RemoveItem "testLocalStorage".

(** ** A concrete browser

    A storage backend with a capacity per value and an optional standing
    fault, a JSON printer and a JSON reader.  The theorems hold for every
    environment; this one is used to run the module on examples. *)

Module Demo.

Record Storage : Type := mkStorage {
  items : list (string * string);
  (** the longest value the backend accepts *)
  capacity : nat;
  (** [Some e]: every call throws [e] *)
  fault : option exn
}.

Fixpoint lookup_item (k : string) (l : list (string * string)) : option string :=
  match l with
  | [] => None
  | (k', v) :: l' => if String.eqb k' k then Some v else lookup_item k l'
  end.

Definition remove_item (k : string) (l : list (string * string)) : list (string * string) :=
  filter (fun kv => negb (String.eqb (fst kv) k)) l.

Definition getItem (k : string) (w : Storage) : Result (option string) * Storage :=
  match fault w with
  | Some e => (Throw e, w)
  | None => (Normal (lookup_item k (items w)), w)
  end.

Definition setItem (k v : string) (w : Storage) : Result unit * Storage :=
  match fault w with
  | Some e => (Throw e, w)
  | None =>
      if String.length v <=? capacity w
      then (Normal tt, mkStorage ((k, v) :: remove_item k (items w)) (capacity w) None)
      else (Throw QuotaExceededError, w)
  end.

Definition removeItem (k : string) (w : Storage) : Result unit * Storage :=
  match fault w with
  | Some e => (Throw e, w)
  | None => (Normal tt, mkStorage (remove_item k (items w)) (capacity w) None)
  end.

(** *** Printing

    The printer puts a backslash before a quote and before a backslash.
    [JSON.stringify] also escapes control characters; the strings of the
    machines below hold none. *)

Definition dquote : ascii := Ascii.ascii_of_nat 34.
Definition backslash : ascii := Ascii.ascii_of_nat 92.

Fixpoint escape (s : string) : string :=
  match s with
  | EmptyString => EmptyString
  | String c s' =>
      if Ascii.eqb c dquote || Ascii.eqb c backslash
      then String backslash (String c (escape s'))
      else String c (escape s')
  end.

Definition quote (s : string) : string :=
  String dquote (escape s +:+ String dquote EmptyString).

Definition print_Z (z : Z) : string :=
  if Z.ltb z 0 then "-" +:+ pretty (Z.to_N (- z)) else pretty (Z.to_N z).

Fixpoint print_json (j : json) : string :=
  match j with
  | JNull => "null"
  | JBool true => "true"
  | JBool false => "false"
  | JNum z => print_Z z
  | JStr s => quote s
  | JArr l =>
      "[" +:+
      (fix items (l : list json) : string :=
         match l with
         | [] => EmptyString
         | x :: l' =>
             print_json x +:+
             match l' with [] => EmptyString | _ :: _ => "," +:+ items l' end
         end) l +:+ "]"
  | JObj o =>
      "{" +:+
      (fix members (o : list (string * json)) : string :=
         match o with
         | [] => EmptyString
         | (k, v) :: o' =>
             quote k +:+ ":" +:+ print_json v +:+
             match o' with [] => EmptyString | _ :: _ => "," +:+ members o' end
         end) o +:+ "}"
  end.

Definition match_json (m : Match) : json :=
  JObj (("gameSpecId", JStr (gameSpecId m)) ::
        ("lastUpdatedOn", JNum (lastUpdatedOn m)) :: matchProps m).

Definition snapshot_json (v : Snapshot) : json :=
  JObj (("gameSpecs",
         JObj (("gameSpecIdToGameSpec", JObj (snap_gameSpecIdToGameSpec v))
               :: snap_gameSpecsProps v)) ::
        ("matchesList", JArr (map match_json (snap_matchesList v))) ::
        ("phoneNumberToContact", JObj (snap_phoneNumberToContact v)) ::
        ("myUser", snap_myUser v) :: snap_stateProps v).

Definition stringify (v : Snapshot) : string := print_json (snapshot_json v).

(** *** Reading

    The reader accepts JSON texts whose numbers are integers and whose
    strings use no escape other than a backslash before a quote or a
    backslash; it rejects every other text. *)

Definition is_ws (c : ascii) : bool :=
  let n := Ascii.nat_of_ascii c in
  (n =? 32) || (n =? 9) || (n =? 10) || (n =? 13).

Fixpoint skip_ws (s : string) : string :=
  match s with
  | String c s' => if is_ws c then skip_ws s' else s
  | EmptyString => s
  end.

Definition digit (c : ascii) : option Z :=
  let n := Ascii.nat_of_ascii c in
  if (48 <=? n) && (n <=? 57) then Some (Z.of_nat (n - 48)) else None.

Fixpoint read_digits (acc : Z) (s : string) : Z * string :=
  match s with
  | String c s' =>
      match digit c with
      | Some d => read_digits (10 * acc + d)%Z s'
      | None => (acc, s)
      end
  | EmptyString => (acc, s)
  end.

(** An integer without sign: one digit, or several that do not start
    with 0. *)
Definition read_nat (s : string) : option (Z * string) :=
  match s with
  | String c s' =>
      match digit c with
      | Some 0%Z =>
          match s' with
          | String c' _ => match digit c' with Some _ => None | None => Some (0%Z, s') end
          | EmptyString => Some (0%Z, s')
          end
      | Some d => Some (read_digits d s')
      | None => None
      end
  | EmptyString => None
  end.

(** The rest of a string literal, after the opening quote. *)
Fixpoint read_string (s : string) : option (string * string) :=
  match s with
  | EmptyString => None
  | String c s' =>
      if Ascii.eqb c dquote then Some (EmptyString, s')
      else if Ascii.eqb c backslash then
        match s' with
        | String c' s'' =>
            if Ascii.eqb c' dquote || Ascii.eqb c' backslash then
              match read_string s'' with
              | Some (str, rest) => Some (String c' str, rest)
              | None => None
              end
            else None
        | EmptyString => None
        end
      else if Ascii.nat_of_ascii c <? 32 then None
      else
        match read_string s' with
        | Some (str, rest) => Some (String c str, rest)
        | None => None
        end
  end.

Definition expect (word : string) (j : json) (s : string) : option (json * string) :=
  if String.prefix word s
  then Some (j, String.substring (String.length word) (String.length s - String.length word) s)
  else None.

Fixpoint read_value (fuel : nat) (s : string) : option (json * string) :=
  match fuel with
  | 0 => None
  | S fuel' =>
      match skip_ws s with
      | EmptyString => None
      | String c s' =>
          if Ascii.eqb c "n" then expect "ull" JNull s'
          else if Ascii.eqb c "t" then expect "rue" (JBool true) s'
          else if Ascii.eqb c "f" then expect "alse" (JBool false) s'
          else if Ascii.eqb c dquote then
            match read_string s' with
            | Some (str, rest) => Some (JStr str, rest)
            | None => None
            end
          else if Ascii.eqb c "-" then
            match read_nat s' with
            | Some (z, rest) => Some (JNum (- z), rest)
            | None => None
            end
          else if Ascii.eqb c "[" then
            match skip_ws s' with
            | String "]" rest => Some (JArr [], rest)
            | _ =>
                match read_items fuel' s' with
                | Some (l, rest) => Some (JArr l, rest)
                | None => None
                end
            end
          else if Ascii.eqb c "{" then
            match skip_ws s' with
            | String "}" rest => Some (JObj [], rest)
            | _ =>
                match read_members fuel' s' with
                | Some (o, rest) => Some (JObj o, rest)
                | None => None
                end
            end
          else
            match read_nat (String c s') with
            | Some (z, rest) => Some (JNum z, rest)
            | None => None
            end
      end
  end
with read_items (fuel : nat) (s : string) : option (list json * string) :=
  match fuel with
  | 0 => None
  | S fuel' =>
      match read_value fuel' s with
      | Some (x, rest) =>
          match skip_ws rest with
          | String "]" rest' => Some ([x], rest')
          | String "," rest' =>
              match read_items fuel' rest' with
              | Some (l, rest'') => Some (x :: l, rest'')
              | None => None
              end
          | _ => None
          end
      | None => None
      end
  end
with read_members (fuel : nat) (s : string) : option (list (string * json) * string) :=
  match fuel with
  | 0 => None
  | S fuel' =>
      match skip_ws s with
      | String c s' =>
          if Ascii.eqb c dquote then
            match read_string s' with
            | Some (k, rest) =>
                match skip_ws rest with
                | String ":" rest' =>
                    match read_value fuel' rest' with
                    | Some (x, rest'') =>
                        match skip_ws rest'' with
                        | String "}" r => Some ([(k, x)], r)
                        | String "," r =>
                            match read_members fuel' r with
                            | Some (o, r') => Some ((k, x) :: o, r')
                            | None => None
                            end
                        | _ => None
                        end
                    | None => None
                    end
                | _ => None
                end
            | None => None
            end
          else None
      | EmptyString => None
      end
  end.

Definition parse (s : string) : option json :=
  match read_value (2 * String.length s + 2) s with
  | Some (j, rest) =>
      match skip_ws rest with
      | EmptyString => Some j
      | String _ _ => None
      end
  | None => None
  end.

#[export] Instance env : Env Storage := {|
  window_defined := true;
  localStorage_in_window := true;
  ls_getItem := getItem;
  ls_setItem := setItem;
  ls_removeItem := removeItem;
  JSON_stringify := stringify;
  JSON_parse := parse;
  storeStateDefault := 0;
  reducer := fun s _ h => (default 0 s, h)
|}.

(** *** Machines to run the module on

    [storeStateDefault] and what it refers to are the objects 0 to 4. *)

Definition heap_default : list Obj :=
  [ OState (mkStoreState 1 3 4 JNull [("audioMute", JBool false)]);
    OGameSpecs (mkGameSpecs 2 []);
    OSpecMap [];
    OArray [];
    OContactMap [] ].

Definition value_default : Snapshot :=
  mkSnapshot [] [] [] [] JNull [("audioMute", JBool false)].

(** A state with three game specs, one of them used by the only match. *)
Definition heap_specs : list Obj :=
  heap_default ++
  [ OState (mkStoreState 6 8 9 (JStr "me") [("audioMute", JBool true)]);
    OGameSpecs (mkGameSpecs 7 []);
    OSpecMap [("chess", JNum 1); ("go", JNum 2); ("risk", JNum 3)];
    OArray [10];
    OContactMap [("+1", JStr "bob")];
    OMatch (mkMatch "chess" 300 []) ].

Definition value_specs : Snapshot :=
  mkSnapshot [("chess", JNum 1); ("go", JNum 2); ("risk", JNum 3)] []
             [mkMatch "chess" 300 []] [("+1", JStr "bob")]
             (JStr "me") [("audioMute", JBool true)].

(** A state without game specs and with two matches. *)
Definition heap_matches : list Obj :=
  heap_default ++
  [ OState (mkStoreState 6 8 9 (JStr "me") []);
    OGameSpecs (mkGameSpecs 7 []);
    OSpecMap [];
    OArray [10; 11];
    OContactMap [];
    OMatch (mkMatch "chess" 100 []);
    OMatch (mkMatch "go" 200 []) ].

Definition value_matches : Snapshot :=
  mkSnapshot [] [] [mkMatch "chess" 100 []; mkMatch "go" 200 []] []
             (JStr "me") [].

(** Two action objects: one key, two keys. *)
Definition heap_actions : list Obj :=
  heap_specs ++
  [ OAction [("setAudioMute", JBool true)];
    OAction [("setAudioMute", JBool true); ("setMyUser", JNull)] ].

(** Two more action objects: no key, and the single key [type]. *)
Definition heap_odd_actions : list Obj :=
  heap_specs ++
  [ OAction [];
    OAction [("type", JNum 7)] ].

(** The module after start-up, with object 5 as the state of the store. *)
Definition running (h : list Obj) (w : Storage) : MState Storage :=
  mkMState h w [] [] true None (Some 5) [PersistListener].

(** The module before its top level has run. *)
Definition booting (h : list Obj) (w : Storage) : MState Storage :=
  mkMState h w [] [] false None None [].

(** Private browsing: every call throws [QuotaExceededError]. *)
Definition private_mode : Storage := mkStorage [] 0 (Some QuotaExceededError).

(** A backend that has become unavailable. *)
Definition unavailable : Storage := mkStorage [] 5000 (Some SecurityError).

(** A working backend that holds a truncated snapshot. *)
Definition truncated : Storage := mkStorage [("reduxState", "{")] 5000 None.

Definition empty_storage : Storage := mkStorage [] 5000 None.

(** A working backend with room for 60 characters. *)
Definition small : Storage := mkStorage [] 60 None.

(** A state whose window is 800 by 600. *)
Definition heap_window : list Obj :=
  heap_default ++
  [ OState (mkStoreState 6 8 9 (JStr "me")
      [("windowDimensions",
        JObj [("windowWidth", JNum 800); ("windowHeight", JNum 600)])]);
    OGameSpecs (mkGameSpecs 7 []);
    OSpecMap [];
    OArray [];
    OContactMap [] ].

Definition value_window : Snapshot :=
  mkSnapshot [] [] [] [] (JStr "me")
    [("windowDimensions",
      JObj [("windowWidth", JNum 800); ("windowHeight", JNum 600)])].

(** A state with contacts only. *)
Definition heap_contacts : list Obj :=
  heap_default ++
  [ OState (mkStoreState 6 8 9 (JStr "me") []);
    OGameSpecs (mkGameSpecs 7 []);
    OSpecMap [];
    OArray [];
    OContactMap [("+1", JStr "bob"); ("+2", JStr "eve")] ].

Definition value_contacts : Snapshot :=
  mkSnapshot [] [] [] [("+1", JStr "bob"); ("+2", JStr "eve")] (JStr "me") [].

(** A heap in which the default state, objects 0 to 4, has a match,
    object 5; the state of the store, object 6, is empty. *)
Definition heap_default_match : list Obj :=
  [ OState (mkStoreState 1 3 4 JNull []);
    OGameSpecs (mkGameSpecs 2 []);
    OSpecMap [];
    OArray [5];
    OContactMap [];
    OMatch (mkMatch "chess" 100 []);
    OState (mkStoreState 7 9 10 (JStr "me") []);
    OGameSpecs (mkGameSpecs 8 []);
    OSpecMap [];
    OArray [];
    OContactMap [] ].

Definition value_default_match : Snapshot :=
  mkSnapshot [] [] [mkMatch "chess" 100 []] [] JNull [].

Definition value_empty : Snapshot :=
  mkSnapshot [] [] [] [] (JStr "me") [].

(** The module after start-up, with object [state] as the state of the
    store. *)
Definition running_at (state : nat) (h : list Obj) (w : Storage) : MState Storage :=
  mkMState h w [] [] true None (Some state) [PersistListener].

End Demo.

(** * Lemmas on the built-ins *)

Lemma readMatches_lookup h a ms j l :
  readMatches h a = Some ms -> a !! j = Some l ->
  exists m, h !! l = Some (OMatch m) /\ ms !! j = Some m.
Proof.
  revert ms j. induction a as [|x a IH]; intros ms j Hr Hl; [discriminate|].
  simpl in Hr.
  destruct (h !! x) as [[| | | | |m|]|] eqn:Hx; try discriminate.
  destruct (readMatches h a) as [ms'|] eqn:Hms; [|discriminate].
  injection Hr as <-.
  destruct j as [|j]; simpl in *.
  - injection Hl as <-. eauto.
  - eauto.
Qed.

Lemma readMatches_length h a ms :
  readMatches h a = Some ms -> length ms = length a.
Proof.
  revert ms. induction a as [|x a IH]; intros ms Hr; simpl in Hr.
  - injection Hr as <-. reflexivity.
  - destruct (h !! x) as [[| | | | |m|]|]; try discriminate.
    destruct (readMatches h a) as [ms'|]; [|discriminate].
    injection Hr as <-. simpl. f_equal. auto.
Qed.

Lemma readMatches_delete h a ms i :
  readMatches h a = Some ms -> readMatches h (delete i a) = Some (delete i ms).
Proof.
  revert ms i. induction a as [|x a IH]; intros ms i Hr; simpl in Hr.
  - injection Hr as <-. destruct i; reflexivity.
  - destruct (h !! x) as [[| | | | |m|]|] eqn:Hx; try discriminate.
    destruct (readMatches h a) as [ms'|] eqn:Hms; [|discriminate].
    injection Hr as <-.
    destruct i as [|i]; simpl.
    + exact Hms.
    + rewrite Hx, (IH ms' i eq_refl). reflexivity.
Qed.

(** Reading the matches only depends on the match objects. *)
Lemma readMatches_stable h h' a ms :
  (forall l m, h !! l = Some (OMatch m) -> h' !! l = Some (OMatch m)) ->
  readMatches h a = Some ms -> readMatches h' a = Some ms.
Proof.
  intros Hext. revert ms. induction a as [|x a IH]; intros ms Hr; simpl in *; [exact Hr|].
  destruct (h !! x) as [[| | | | |m|]|] eqn:Hx; try discriminate.
  destruct (readMatches h a) as [ms'|] eqn:Hms; [|discriminate].
  rewrite (Hext _ _ Hx), (IH ms' eq_refl). exact Hr.
Qed.

Lemma Array_find_referenced h specId a ms :
  readMatches h a = Some ms ->
  exists o, Array_find h specId a = Normal o /\
            (match o with None => false | Some _ => true end) = referenced ms specId.
Proof.
  revert ms. induction a as [|x a IH]; intros ms Hr; simpl in Hr.
  - injection Hr as <-. exists None. split; reflexivity.
  - unfold readMatch. simpl.
    unfold readMatch.
    destruct (h !! x) as [[| | | | |m|]|] eqn:Hx; try discriminate.
    destruct (readMatches h a) as [ms'|] eqn:Hms; [|discriminate].
    injection Hr as <-. simpl.
    destruct (String.eqb (gameSpecId m) specId) eqn:Heq.
    + exists (Some x). split; reflexivity.
    + destruct (IH ms' eq_refl) as (o & Ho & Hb). exists o. split; assumption.
Qed.

Lemma gameSpecsToDelete_orphans h a ms keys :
  readMatches h a = Some ms ->
  gameSpecsToDelete h a keys = Normal (filter (fun k => negb (referenced ms k)) keys).
Proof.
  intros Hr. induction keys as [|k keys IH]; simpl; [reflexivity|].
  destruct (Array_find_referenced h k a ms Hr) as (o & Ho & Hb).
  rewrite Ho, IH.
  rewrite filter_cons. rewrite <- Hb.
  destruct o; simpl; reflexivity.
Qed.

Lemma fold_delete_prop ks (d : props) :
  fold_left (fun d k => delete_prop k d) ks d =
  filter (fun kv => negb (existsb (String.eqb (fst kv)) ks)) d.
Proof.
  revert d. induction ks as [|k ks IH]; intros d; simpl.
  - induction d as [|kv d IHd]; [reflexivity|].
    rewrite filter_cons. simpl. f_equal. exact IHd.
  - rewrite IH. unfold delete_prop.
    induction d as [|kv d IHd]; [reflexivity|].
    rewrite !filter_cons.
    destruct (String.eqb (fst kv) k) eqn:Hk; simpl.
    + exact IHd.
    + rewrite filter_cons. rewrite IHd. reflexivity.
Qed.

Lemma existsb_filter_keys (P : string -> bool) (keys : list string) k :
  In k keys -> existsb (String.eqb k) (filter P keys) = P k.
Proof.
  induction keys as [|k' keys IH]; intros Hin; [destruct Hin|].
  rewrite filter_cons.
  destruct (String.eqb k k') eqn:Hk.
  - apply String.eqb_eq in Hk. subst k'.
    destruct (P k) eqn:HP; simpl.
    + rewrite String.eqb_refl. reflexivity.
    + destruct (in_dec string_dec k keys) as [Hin'|Hn].
      * apply IH. exact Hin'.
      * clear IH Hin. induction keys as [|k2 keys IH2]; [reflexivity|].
        rewrite filter_cons.
        assert (k2 <> k) by (intros ->; apply Hn; left; reflexivity).
        assert (~ In k keys) by (intros Hi; apply Hn; right; exact Hi).
        destruct (P k2); simpl.
        -- destruct (String.eqb k k2) eqn:Hk2; [apply String.eqb_eq in Hk2; congruence|].
           simpl. auto.
        -- auto.
  - destruct Hin as [->|Hin]; [rewrite String.eqb_refl in Hk; discriminate|].
    destruct (P k'); simpl; [rewrite Hk; simpl|]; auto.
Qed.

(** Deleting the orphaned ids one by one leaves the referenced specs. *)
Lemma delete_orphans_filter (specs : props) ms :
  fold_left (fun d k => delete_prop k d) (orphans specs ms) specs =
  filter (fun kv => referenced ms (fst kv)) specs.
Proof.
  rewrite fold_delete_prop. unfold orphans, Object_keys.
  assert (Hsub : forall kv, In kv specs -> In (fst kv) (map fst specs))
    by (intros kv Hin; apply in_map; exact Hin).
  revert Hsub. generalize (map fst specs) as keys. intros keys Hsub.
  induction specs as [|kv specs IH]; [reflexivity|].
  rewrite !filter_cons.
  rewrite existsb_filter_keys by (apply Hsub; left; reflexivity).
  rewrite negb_involutive.
  rewrite IH by (intros kv' Hin; apply Hsub; right; exact Hin).
  reflexivity.
Qed.

(** ** The oldest match *)

Lemma oldest_from_spec (pre ms : list Match) best bestm :
  (pre ++ ms) !! best = Some bestm ->
  best < length pre ->
  (forall j m', j < length pre -> (pre ++ ms) !! j = Some m' ->
                (lastUpdatedOn bestm <= lastUpdatedOn m')%Z) ->
  (forall j m', j < best -> (pre ++ ms) !! j = Some m' ->
                (lastUpdatedOn bestm < lastUpdatedOn m')%Z) ->
  first_oldest (pre ++ ms) (oldest_from ms (length pre) best bestm).
Proof.
  revert pre best bestm.
  induction ms as [|m ms IH]; intros pre best bestm Hb Hlt Hmin Hfirst; simpl.
  - exists bestm. split; [exact Hb|]. split; [|exact Hfirst].
    intros j m' Hj. apply (Hmin j m'); [|exact Hj].
    apply lookup_lt_Some in Hj. rewrite app_nil_r in Hj. exact Hj.
  - assert (Hm : (pre ++ m :: ms) !! length pre = Some m)
      by (apply list_lookup_middle; reflexivity).
    assert (Hsnoc : pre ++ m :: ms = (pre ++ [m]) ++ ms)
      by (rewrite <- app_assoc; reflexivity).
    assert (Hlen : length (pre ++ [m]) = S (length pre))
      by (rewrite length_app; simpl; lia).
    destruct (Z.gtb (lastUpdatedOn bestm) (lastUpdatedOn m)) eqn:Hgt.
    + apply Z.gtb_lt in Hgt.
      rewrite Hsnoc, <- Hlen. rewrite Hsnoc in Hm, Hmin.
      apply IH.
      * exact Hm.
      * lia.
      * intros j m' Hj Hl. rewrite Hlen in Hj.
        destruct (decide (j = length pre)) as [->|Hne].
        -- rewrite Hm in Hl. injection Hl as <-. lia.
        -- assert (lastUpdatedOn bestm <= lastUpdatedOn m')%Z
             by (apply (Hmin j m'); [lia|exact Hl]). lia.
      * intros j m' Hj Hl.
        assert (lastUpdatedOn bestm <= lastUpdatedOn m')%Z
          by (apply (Hmin j m'); [lia|exact Hl]). lia.
    + assert (Hle : (lastUpdatedOn bestm <= lastUpdatedOn m)%Z).
      { destruct (Z.gtb_spec (lastUpdatedOn bestm) (lastUpdatedOn m)); [discriminate|lia]. }
      rewrite Hsnoc, <- Hlen. rewrite Hsnoc in Hb, Hm, Hmin, Hfirst.
      apply IH.
      * exact Hb.
      * lia.
      * intros j m' Hj Hl. rewrite Hlen in Hj.
        destruct (decide (j = length pre)) as [->|Hne].
        -- rewrite Hm in Hl. injection Hl as <-. exact Hle.
        -- apply (Hmin j m'); [lia|exact Hl].
      * exact Hfirst.
Qed.

Lemma oldest_index_first_oldest (ms : list Match) :
  ms <> [] -> first_oldest ms (oldest_index ms).
Proof.
  destruct ms as [|m ms]; [congruence|]. intros _.
  unfold oldest_index.
  change (m :: ms) with ([m] ++ ms).
  change 1 with (length [m]).
  apply oldest_from_spec.
  - reflexivity.
  - simpl. lia.
  - intros j m' Hj Hl. simpl in Hj. destruct j; [|lia].
    simpl in Hl. injection Hl as <-. lia.
  - intros j m' Hj. lia.
Qed.

Lemma first_oldest_lt ms i : first_oldest ms i -> i < length ms.
Proof. intros (m & Hm & _). apply lookup_lt_Some in Hm. exact Hm. Qed.

(** Two positions that both are the first oldest are the same. *)
Lemma first_oldest_unique ms i j : first_oldest ms i -> first_oldest ms j -> i = j.
Proof.
  intros (m & Hm & Hmin & Hfst) (m' & Hm' & Hmin' & Hfst').
  destruct (Nat.lt_trichotomy i j) as [Hlt|[Heq|Hgt]]; [|exact Heq|].
  - pose proof (Hfst' i m Hlt Hm). pose proof (Hmin j m' Hm'). lia.
  - pose proof (Hfst j m' Hgt Hm'). pose proof (Hmin' i m Hm). lia.
Qed.

Lemma Array_reduce_oldest h (pre a : list loc) (mpre ms : list Match) best accum bestm :
  readMatches h a = Some ms ->
  length pre = length mpre ->
  (pre ++ a) !! best = Some accum ->
  h !! accum = Some (OMatch bestm) ->
  exists r, Array_reduce h a accum = Normal r /\
            (pre ++ a) !! oldest_from ms (length mpre) best bestm = Some r.
Proof.
  revert pre mpre ms best accum bestm.
  induction a as [|x a IH]; intros pre mpre ms best accum bestm Hr Hlen Hb Hacc; simpl in Hr.
  - injection Hr as <-. simpl. exists accum. split; [reflexivity|exact Hb].
  - destruct (h !! x) as [[| | | | |m|]|] eqn:Hx; try discriminate.
    destruct (readMatches h a) as [ms'|] eqn:Hms; [|discriminate].
    injection Hr as <-. simpl. unfold readMatch. rewrite Hacc, Hx.
    assert (Hsnoc : pre ++ x :: a = (pre ++ [x]) ++ a)
      by (rewrite <- app_assoc; reflexivity).
    assert (Hl1 : length (pre ++ [x]) = length (mpre ++ [m]))
      by (rewrite !length_app; simpl; lia).
    assert (Hl2 : length (mpre ++ [m]) = S (length mpre))
      by (rewrite length_app; simpl; lia).
    assert (Hxi : (pre ++ x :: a) !! length mpre = Some x)
      by (apply list_lookup_middle; lia).
    rewrite Hsnoc in *. rewrite <- Hl2.
    destruct (Z.gtb (lastUpdatedOn bestm) (lastUpdatedOn m)).
    + apply (IH (pre ++ [x]) (mpre ++ [m]) ms' (length mpre) x m eq_refl Hl1 Hxi Hx).
    + apply (IH (pre ++ [x]) (mpre ++ [m]) ms' best accum bestm eq_refl Hl1 Hb Hacc).
Qed.

Lemma Array_reduce_index h (a : list loc) (ms : list Match) :
  readMatches h a = Some ms -> a <> [] ->
  exists r, Array_reduce h a (hd 0 a) = Normal r /\ a !! oldest_index ms = Some r.
Proof.
  intros Hr Ha. destruct a as [|x a]; [congruence|]. simpl in Hr.
  destruct (h !! x) as [[| | | | |m|]|] eqn:Hx; try discriminate.
  destruct (readMatches h a) as [ms'|] eqn:Hms; [|discriminate].
  injection Hr as <-. simpl. unfold readMatch. rewrite Hx.
  assert (Hgt : Z.gtb (lastUpdatedOn m) (lastUpdatedOn m) = false)
    by (destruct (Z.gtb_spec (lastUpdatedOn m) (lastUpdatedOn m)); [lia|reflexivity]).
  rewrite Hgt.
  apply (Array_reduce_oldest h [x] a [m] ms' 0 x m Hms eq_refl eq_refl Hx).
Qed.

Lemma Array_indexOf_from_first x (a : list loc) i k :
  a !! i = Some x -> (forall j, j < i -> a !! j <> Some x) ->
  Array_indexOf_from x a k = (k + Z.of_nat i)%Z.
Proof.
  revert i k. induction a as [|y a IH]; intros i k Hi Hfirst; [discriminate|].
  simpl. destruct i as [|i].
  - simpl in Hi. injection Hi as ->. rewrite Nat.eqb_refl. lia.
  - destruct (Nat.eqb y x) eqn:Hy.
    + apply Nat.eqb_eq in Hy. subst y. exfalso. apply (Hfirst 0); [lia|reflexivity].
    + rewrite (IH i (k + 1)%Z).
      * lia.
      * exact Hi.
      * intros j Hj. apply (Hfirst (S j)). lia.
Qed.

Lemma Array_splice1_delete (a : list loc) i :
  i < length a -> Array_splice1 (Z.of_nat i) a = delete i a.
Proof.
  intros Hi. unfold Array_splice1.
  destruct (Z.ltb_spec (Z.of_nat i) 0); [lia|].
  rewrite Z.min_l by lia. rewrite Nat2Z.id. reflexivity.
Qed.

(** [reduce], [indexOf] and [splice] together remove the first oldest
    match, also when the array holds an object twice. *)
Lemma remove_oldest h (a : list loc) (ms : list Match) :
  readMatches h a = Some ms -> a <> [] ->
  exists r, Array_reduce h a (hd 0 a) = Normal r /\
            Array_splice1 (Array_indexOf r a) a = delete (oldest_index ms) a.
Proof.
  intros Hr Ha.
  destruct (Array_reduce_index h a ms Hr Ha) as (r & Hred & Hidx).
  exists r. split; [exact Hred|].
  assert (Hms : ms <> []).
  { intros ->. apply readMatches_length in Hr. destruct a; [congruence|discriminate]. }
  pose proof (oldest_index_first_oldest ms Hms) as (m & Hm & Hmin & Hfst).
  unfold Array_indexOf.
  rewrite (Array_indexOf_from_first r a (oldest_index ms) 0 Hidx).
  - rewrite Z.add_0_l. apply Array_splice1_delete.
    apply lookup_lt_Some in Hidx. exact Hidx.
  - intros j Hj Hjr.
    destruct (readMatches_lookup h a ms j r Hr Hjr) as (mj & Hhj & Hmj).
    destruct (readMatches_lookup h a ms _ r Hr Hidx) as (mi & Hhi & Hmi).
    rewrite Hhi in Hhj. injection Hhj as <-.
    rewrite Hm in Hmi. injection Hmi as <-.
    pose proof (Hfst j m Hj Hmj). lia.
Qed.

(** * The shape of a state in the heap *)

Lemma snapshot_shape h state v :
  snapshot h state = Some v <-> exists st gs a, shape h state st gs a v.
Proof.
  unfold snapshot, shape. split.
  - intros H.
    destruct (h !! state) as [[st| | | | | |]|] eqn:Hst; try discriminate.
    destruct (h !! gameSpecs st) as [[|gs| | | | |]|] eqn:Hgs; try discriminate.
    destruct (h !! matchesList st) as [[| | | |a| |]|] eqn:Ha; try discriminate.
    destruct (h !! phoneNumberToContact st) as [[| | |c| | |]|] eqn:Hc; try discriminate.
    destruct (h !! gameSpecIdToGameSpec gs) as [[| |d| | | |]|] eqn:Hd; try discriminate.
    destruct (readMatches h a) as [ms|] eqn:Hms; try discriminate.
    injection H as <-. exists st, gs, a. simpl.
    rewrite Hgs, Hd, Ha, Hms, Hc. repeat split; reflexivity.
  - intros (st & gs & a & Hst & Hgs & Hd & Ha & Hms & Hc & E1 & E2 & E3).
    rewrite Hst, Hgs, Ha, Hc, Hd, Hms, E1, E2, E3. destruct v; reflexivity.
Qed.

Section TrimExec.
Context {W : Type} {E : Env W}.

Lemma trimState_specs (ms0 : MState W) state st gs a v :
  shape (heap ms0) state st gs a v ->
  orphans (snap_gameSpecIdToGameSpec v) (snap_matchesList v) <> [] ->
  trimState state ms0 =
  (Normal state,
   set_heap (<[gameSpecIdToGameSpec gs :=
                 OSpecMap (filter (fun kv => referenced (snap_matchesList v) (fst kv))
                                  (snap_gameSpecIdToGameSpec v))]> (heap ms0)) ms0).
Proof.
  intros (Hst & Hgs & Hd & Ha & Hms & Hc & _) Horph.
  unfold trimState, bind, getState, getGameSpecs, getSpecMap, getArray, liftR,
    readState, readGameSpecs, readSpecMap, readArray.
  rewrite Hst, Hgs, Hd.
  assert (Hk : (0 <? length (Object_keys (snap_gameSpecIdToGameSpec v))) = true).
  { destruct (snap_gameSpecIdToGameSpec v); [exfalso; apply Horph; reflexivity|reflexivity]. }
  rewrite Hk, Ha, (gameSpecsToDelete_orphans _ _ _ _ Hms).
  fold (orphans (snap_gameSpecIdToGameSpec v) (snap_matchesList v)).
  destruct (orphans (snap_gameSpecIdToGameSpec v) (snap_matchesList v)) as [|k ks] eqn:Ho;
    [congruence|].
  cbn [length Nat.ltb Nat.leb]. unfold setObj, ret. cbn [heap set_heap].
  rewrite <- Ho, delete_orphans_filter. reflexivity.
Qed.

Lemma trimState_no_orphans (ms0 : MState W) state st gs a v :
  shape (heap ms0) state st gs a v ->
  orphans (snap_gameSpecIdToGameSpec v) (snap_matchesList v) = [] ->
  trimState state ms0 = trimMatches state ms0.
Proof.
  intros (Hst & Hgs & Hd & Ha & Hms & Hc & _) Horph.
  unfold trimState, bind, getState, getGameSpecs, getSpecMap, getArray, liftR,
    readState, readGameSpecs, readSpecMap, readArray.
  rewrite Hst, Hgs, Hd.
  destruct (0 <? length (Object_keys (snap_gameSpecIdToGameSpec v))); [|reflexivity].
  rewrite Ha, (gameSpecsToDelete_orphans _ _ _ _ Hms).
  fold (orphans (snap_gameSpecIdToGameSpec v) (snap_matchesList v)).
  rewrite Horph. reflexivity.
Qed.

Lemma trimMatches_oldest (ms0 : MState W) state st gs a v :
  shape (heap ms0) state st gs a v ->
  snap_matchesList v <> [] ->
  trimMatches state ms0 =
  (Normal state,
   set_heap (<[matchesList st :=
                 OArray (delete (oldest_index (snap_matchesList v)) a)]> (heap ms0)) ms0).
Proof.
  intros (Hst & Hgs & Hd & Ha & Hms & Hc & _) Hne.
  assert (Hane : a <> []).
  { intros ->. simpl in Hms. injection Hms as Hms. congruence. }
  unfold trimMatches, bind, getState, getArray, liftR, readState, readArray.
  rewrite Hst, Ha.
  destruct a as [|x a']; [congruence|].
  cbn [length Nat.ltb Nat.leb].
  destruct (remove_oldest _ _ _ Hms Hane) as (r & Hred & Hsp).
  rewrite Hred, Hsp. reflexivity.
Qed.

Lemma trimMatches_contacts (ms0 : MState W) state st gs a v :
  shape (heap ms0) state st gs a v ->
  snap_matchesList v = [] ->
  snap_phoneNumberToContact v <> [] ->
  trimMatches state ms0 =
  (Normal state,
   set_heap (<[state := OState (mkStoreState (gameSpecs st) (matchesList st)
                                             (length (heap ms0)) (myUser st) (stateProps st))]>
               (heap ms0 ++ [OContactMap []])) ms0).
Proof.
  intros (Hst & Hgs & Hd & Ha & Hms & Hc & _) Hnil Hne.
  assert (Ha0 : a = []).
  { apply readMatches_length in Hms. rewrite Hnil in Hms. destruct a; [reflexivity|discriminate]. }
  subst a.
  unfold trimMatches, bind, getState, getArray, getContactMap, liftR, readState,
    readArray, readContactMap.
  rewrite Hst, Ha. cbn [length Nat.ltb Nat.leb]. rewrite Hc.
  destruct (snap_phoneNumberToContact v) as [|kv c]; [congruence|].
  reflexivity.
Qed.

Lemma trimMatches_default (ms0 : MState W) state st gs a v d :
  shape (heap ms0) state st gs a v ->
  snap_matchesList v = [] ->
  snap_phoneNumberToContact v = [] ->
  heap ms0 !! storeStateDefault = Some (OState d) ->
  trimMatches state ms0 =
  (Normal (length (heap ms0)),
   set_heap (heap ms0 ++ [OState (mkStoreState (gameSpecs d) (matchesList d)
                                               (phoneNumberToContact d) (myUser st)
                                               (stateProps d))]) ms0).
Proof.
  intros (Hst & Hgs & Hd & Ha & Hms & Hc & _) Hnil Hcnil Hdef.
  assert (Ha0 : a = []).
  { apply readMatches_length in Hms. rewrite Hnil in Hms. destruct a; [reflexivity|discriminate]. }
  subst a.
  unfold trimMatches, bind, getState, getArray, getContactMap, liftR, readState,
    readArray, readContactMap.
  rewrite Hst, Ha. cbn [length Nat.ltb Nat.leb]. rewrite Hc, Hcnil.
  cbn [Object_keys map length Nat.ltb Nat.leb]. rewrite Hdef. reflexivity.
Qed.

End TrimExec.

(** * One step of [trimState]: value and frame *)

Ltac other_loc :=
  rewrite list_lookup_insert_ne; [ | let E := fresh in intros E; congruence ].

Lemma shape_transport (h h' : Heap) q st gs a u :
  shape h q st gs a u ->
  h' !! q = h !! q ->
  h' !! gameSpecs st = h !! gameSpecs st ->
  h' !! gameSpecIdToGameSpec gs = h !! gameSpecIdToGameSpec gs ->
  h' !! matchesList st = h !! matchesList st ->
  h' !! phoneNumberToContact st = h !! phoneNumberToContact st ->
  (forall l m, h !! l = Some (OMatch m) -> h' !! l = Some (OMatch m)) ->
  shape h' q st gs a u.
Proof.
  intros (Hst & Hgs & Hd & Ha & Hms & Hc & Hrest) E1 E2 E3 E4 E5 Hm.
  unfold shape. rewrite E1, E2, E3, E4, E5.
  repeat split; try assumption; try apply Hrest.
  eapply readMatches_stable; eassumption.
Qed.

Lemma shape_app (h : Heap) x q st gs a u :
  shape h q st gs a u -> shape (h ++ x) q st gs a u.
Proof.
  intros Hs. pose proof Hs as (Hst & Hgs & Hd & Ha & Hms & Hc & Hrest).
  apply (shape_transport h); [exact Hs|..].
  - rewrite Hst. apply lookup_app_l_Some. exact Hst.
  - rewrite Hgs. apply lookup_app_l_Some. exact Hgs.
  - rewrite Hd. apply lookup_app_l_Some. exact Hd.
  - rewrite Ha. apply lookup_app_l_Some. exact Ha.
  - rewrite Hc. apply lookup_app_l_Some. exact Hc.
  - intros l m Hl. apply lookup_app_l_Some. exact Hl.
Qed.

Lemma shape_lt (h : Heap) q st gs a u :
  shape h q st gs a u ->
  q < length h /\ gameSpecs st < length h /\ gameSpecIdToGameSpec gs < length h /\
  matchesList st < length h /\ phoneNumberToContact st < length h.
Proof.
  intros (Hst & Hgs & Hd & Ha & Hms & Hc & Hrest).
  repeat split; eapply lookup_lt_Some; eassumption.
Qed.

Section TrimStep.
Context {W : Type} {E : Env W}.

Lemma default_ok_shape h D :
  default_ok h D <->
  (exists st gs a, shape h storeStateDefault st gs a D) /\
  snap_gameSpecIdToGameSpec D = [] /\ snap_matchesList D = [] /\
  snap_phoneNumberToContact D = [].
Proof. unfold default_ok. rewrite snapshot_shape. reflexivity. Qed.

(** Step 1 writes the spec map of the state and nothing else. *)
Lemma step_specs (h : Heap) state st gs a v d' :
  shape h state st gs a v ->
  let h' := <[gameSpecIdToGameSpec gs := OSpecMap d']> h in
  shape h' state st gs a
        (mkSnapshot d' (snap_gameSpecsProps v) (snap_matchesList v)
                    (snap_phoneNumberToContact v) (snap_myUser v) (snap_stateProps v)) /\
  (forall D, snap_gameSpecIdToGameSpec v <> [] -> default_ok h D -> default_ok h' D).
Proof.
  intros Hs h'. pose proof Hs as (Hst & Hgs & Hd & Ha & Hms & Hc & E1 & E2 & E3).
  assert (Hmatch : forall l m, h !! l = Some (OMatch m) -> h' !! l = Some (OMatch m)).
  { intros l m Hl. unfold h'. other_loc. exact Hl. }
  split.
  - unfold shape, h'. cbn [snap_gameSpecIdToGameSpec snap_gameSpecsProps snap_matchesList
      snap_phoneNumberToContact snap_myUser snap_stateProps].
    repeat split; try assumption.
    + other_loc. exact Hst.
    + other_loc. exact Hgs.
    + apply list_lookup_insert_eq. eapply lookup_lt_Some. exact Hd.
    + other_loc. exact Ha.
    + eapply readMatches_stable; eassumption.
    + other_loc. exact Hc.
  - intros D Hne HD. apply default_ok_shape in HD.
    destruct HD as ((st0 & gs0 & a0 & Hs0) & D1 & D2 & D3).
    apply default_ok_shape. split; [|auto].
    exists st0, gs0, a0.
    pose proof Hs0 as (Hst0 & Hgs0 & Hd0 & Ha0 & Hms0 & Hc0 & _).
    rewrite D1 in Hd0.
    apply (shape_transport h); [exact Hs0|..]; try exact Hmatch; unfold h'.
    + other_loc. reflexivity.
    + other_loc. reflexivity.
    + other_loc. reflexivity.
    + other_loc. reflexivity.
    + other_loc. reflexivity.
Qed.

(** Step 2 writes the array of the state and nothing else. *)
Lemma step_matches (h : Heap) state st gs a v i :
  shape h state st gs a v ->
  let h' := <[matchesList st := OArray (delete i a)]> h in
  shape h' state st gs (delete i a)
        (mkSnapshot (snap_gameSpecIdToGameSpec v) (snap_gameSpecsProps v)
                    (delete i (snap_matchesList v))
                    (snap_phoneNumberToContact v) (snap_myUser v) (snap_stateProps v)) /\
  (forall D, snap_matchesList v <> [] -> default_ok h D -> default_ok h' D).
Proof.
  intros Hs h'. pose proof Hs as (Hst & Hgs & Hd & Ha & Hms & Hc & E1 & E2 & E3).
  assert (Hmatch : forall l m, h !! l = Some (OMatch m) -> h' !! l = Some (OMatch m)).
  { intros l m Hl. unfold h'. other_loc. exact Hl. }
  split.
  - unfold shape, h'. cbn [snap_gameSpecIdToGameSpec snap_gameSpecsProps snap_matchesList
      snap_phoneNumberToContact snap_myUser snap_stateProps].
    repeat split; try assumption.
    + other_loc. exact Hst.
    + other_loc. exact Hgs.
    + other_loc. exact Hd.
    + apply list_lookup_insert_eq. eapply lookup_lt_Some. exact Ha.
    + eapply readMatches_stable; [exact Hmatch|]. apply readMatches_delete. exact Hms.
    + other_loc. exact Hc.
  - intros D Hne HD. apply default_ok_shape in HD.
    destruct HD as ((st0 & gs0 & a0 & Hs0) & D1 & D2 & D3).
    apply default_ok_shape. split; [|auto].
    exists st0, gs0, a0.
    pose proof Hs0 as (Hst0 & Hgs0 & Hd0 & Ha0 & Hms0 & Hc0 & _).
    assert (Ha00 : a0 = []).
    { apply readMatches_length in Hms0. rewrite D2 in Hms0.
      destruct a0; [reflexivity|discriminate]. }
    assert (Hane : a <> []).
    { intros ->. simpl in Hms. injection Hms as Hms. congruence. }
    subst a0.
    apply (shape_transport h); [exact Hs0|..]; try exact Hmatch; unfold h'.
    + other_loc. reflexivity.
    + other_loc. reflexivity.
    + other_loc. reflexivity.
    + other_loc. reflexivity.
    + other_loc. reflexivity.
Qed.

(** Step 3 makes a new empty map and points the state object to it. *)
Lemma step_contacts (h : Heap) state st gs a v :
  shape h state st gs a v ->
  let st' := mkStoreState (gameSpecs st) (matchesList st) (length h)
                          (myUser st) (stateProps st) in
  let h' := <[state := OState st']> (h ++ [OContactMap []]) in
  shape h' state st' gs a
        (mkSnapshot (snap_gameSpecIdToGameSpec v) (snap_gameSpecsProps v)
                    (snap_matchesList v) [] (snap_myUser v) (snap_stateProps v)) /\
  (forall D, snap_phoneNumberToContact v <> [] -> default_ok h D -> default_ok h' D).
Proof.
  intros Hs st' h'.
  pose proof (shape_lt _ _ _ _ _ _ Hs) as (L1 & L2 & L3 & L4 & L5).
  pose proof (shape_app h [OContactMap []] _ _ _ _ _ Hs) as Hs1.
  pose proof Hs1 as (Hst & Hgs & Hd & Ha & Hms & Hc & E1 & E2 & E3).
  assert (Hmatch : forall l m, (h ++ [OContactMap []]) !! l = Some (OMatch m) ->
                               h' !! l = Some (OMatch m)).
  { intros l m Hl. unfold h'. other_loc. exact Hl. }
  assert (Hnew : (h ++ [OContactMap []]) !! length h = Some (OContactMap [])).
  { apply list_lookup_middle. reflexivity. }
  split.
  - unfold shape, h'. cbn [snap_gameSpecIdToGameSpec snap_gameSpecsProps snap_matchesList
      snap_phoneNumberToContact snap_myUser snap_stateProps gameSpecs matchesList
      phoneNumberToContact myUser stateProps st'].
    repeat split; try assumption.
    + apply list_lookup_insert_eq. rewrite length_app. simpl. lia.
    + other_loc. exact Hgs.
    + other_loc. exact Hd.
    + other_loc. exact Ha.
    + eapply readMatches_stable; eassumption.
    + other_loc. exact Hnew.
  - intros D Hne HD. apply default_ok_shape in HD.
    destruct HD as ((st0 & gs0 & a0 & Hs0) & D1 & D2 & D3).
    apply default_ok_shape. split; [|auto].
    exists st0, gs0, a0.
    pose proof (shape_app h [OContactMap []] _ _ _ _ _ Hs0) as Hs01.
    pose proof Hs01 as (Hst0 & Hgs0 & Hd0 & Ha0 & Hms0 & Hc0 & _).
    rewrite D3 in Hc0.
    assert (Hdiff : state <> storeStateDefault).
    { intros Heq. rewrite Heq in Hst. rewrite Hst in Hst0. injection Hst0 as <-.
      rewrite Hc in Hc0. injection Hc0 as Hc0. congruence. }
    apply (shape_transport (h ++ [OContactMap []])); [exact Hs01|..];
      try exact Hmatch; unfold h'.
    + rewrite list_lookup_insert_ne by exact Hdiff. reflexivity.
    + other_loc. reflexivity.
    + other_loc. reflexivity.
    + other_loc. reflexivity.
    + other_loc. reflexivity.
Qed.

(** Step 4 makes a new state object that shares the game specs, the
    array and the contact map with [storeStateDefault]. *)
Lemma step_default (h : Heap) state st gs a v D st0 gs0 a0 :
  shape h state st gs a v ->
  shape h storeStateDefault st0 gs0 a0 D ->
  let st' := mkStoreState (gameSpecs st0) (matchesList st0) (phoneNumberToContact st0)
                          (myUser st) (stateProps st0) in
  let h' := h ++ [OState st'] in
  shape h' (length h) st' gs0 a0 (default_with_user D (snap_myUser v)) /\
  shape h' storeStateDefault st0 gs0 a0 D.
Proof.
  intros Hs Hs0 st' h'.
  pose proof (shape_app h [OState st'] _ _ _ _ _ Hs0) as Hs01.
  split; [|exact Hs01].
  destruct Hs as (_ & _ & _ & _ & _ & _ & _ & E2 & _).
  destruct Hs01 as (Hst0 & Hgs0 & Hd0 & Ha0 & Hms0 & Hc0 & F1 & F2 & F3).
  unfold shape, h'. cbn [snap_gameSpecIdToGameSpec snap_gameSpecsProps snap_matchesList
      snap_phoneNumberToContact snap_myUser snap_stateProps gameSpecs matchesList
      phoneNumberToContact myUser stateProps st' default_with_user].
  repeat split; try assumption.
  apply list_lookup_middle. reflexivity.
Qed.

End TrimStep.

Lemma shape_inj h q st gs a u st' gs' a' u' :
  shape h q st gs a u -> shape h q st' gs' a' u' ->
  st = st' /\ gs = gs' /\ a = a' /\ u = u'.
Proof.
  intros (Hst & Hgs & Hd & Ha & Hms & Hc & E1 & E2 & E3)
         (Hst' & Hgs' & Hd' & Ha' & Hms' & Hc' & F1 & F2 & F3).
  assert (st = st') by congruence. subst st'.
  assert (gs = gs') by congruence. subst gs'.
  assert (a = a') by congruence. subst a'.
  repeat split; try reflexivity.
  destruct u, u'; simpl in *. f_equal; congruence.
Qed.

Section TrimStepAll.
Context {W : Type} {E : Env W}.

Lemma trimState_step (ms0 : MState W) state v D :
  has_value (heap ms0) state v ->
  default_ok (heap ms0) D ->
  exists state' h',
    trimState state ms0 = (Normal state', set_heap h' ms0) /\
    has_value h' state' (trim_value D v) /\
    default_ok h' D /\
    length (heap ms0) <= length h' /\
    (forall n, owned n (heap ms0) state ->
               owned n h' state' /\ forall l, l < n -> h' !! l = heap ms0 !! l) /\
    (trims_in_place v -> state' = state) /\
    (~ trims_in_place v ->
     state' = length (heap ms0) /\
     forall l o, heap ms0 !! l = Some o -> h' !! l = Some o).
Proof.
  intros Hv HD. unfold has_value in *.
  apply snapshot_shape in Hv. destruct Hv as (st & gs & a & Hs).
  pose proof (shape_lt _ _ _ _ _ _ Hs) as (L1 & L2 & L3 & L4 & L5).
  pose proof Hs as (Hst & Hgs & Hd & Ha & Hms & Hc & E1 & E2 & E3).
  destruct (orphans (snap_gameSpecIdToGameSpec v) (snap_matchesList v)) as [|k ks] eqn:Ho.
  2: { (* step 1 *)
    assert (Hne : orphans (snap_gameSpecIdToGameSpec v) (snap_matchesList v) <> [])
      by (rewrite Ho; discriminate).
    assert (Hsne : snap_gameSpecIdToGameSpec v <> [])
      by (intros Hnil; rewrite Hnil in Ho; discriminate).
    pose proof (step_specs (heap ms0) state st gs a v
                  (filter (fun kv => referenced (snap_matchesList v) (fst kv))
                          (snap_gameSpecIdToGameSpec v)) Hs) as (Hs' & HD').
    eexists state, _. split; [apply (trimState_specs ms0 state st gs a v Hs Hne)|].
    split; [|split; [|split; [|split; [|split]]]].
    - unfold has_value. apply snapshot_shape. exists st, gs, a.
      unfold trim_value. rewrite Ho. exact Hs'.
    - apply HD'; assumption.
    - rewrite length_insert. reflexivity.
    - intros n (st1 & gs1 & a1 & v1 & Hs1 & N1 & N2 & N3).
      destruct (shape_inj _ _ _ _ _ _ _ _ _ _ Hs Hs1) as (<- & <- & <- & <-).
      split.
      + eexists st, gs, a, _. split; [exact Hs'|].
        cbn [snap_gameSpecIdToGameSpec snap_matchesList].
        split; [exact N1|]. split; [intros _; apply N2; exact Hsne|exact N3].
      + intros l Hl. apply list_lookup_insert_ne. specialize (N2 Hsne). lia.
    - intros _. reflexivity.
    - intros Hn. exfalso. apply Hn. left. exact Hne. }
  destruct (snap_matchesList v) as [|m ms] eqn:Hmatches.
  2: { (* step 2 *)
    assert (Hne : snap_matchesList v <> []) by (rewrite Hmatches; discriminate).
    pose proof (step_matches (heap ms0) state st gs a v (oldest_index (snap_matchesList v)) Hs)
      as (Hs' & HD').
    eexists state, _. split.
    { rewrite (trimState_no_orphans ms0 state st gs a v Hs) by (rewrite Hmatches; exact Ho).
      apply (trimMatches_oldest ms0 state st gs a v Hs Hne). }
    split; [|split; [|split; [|split; [|split]]]].
    - unfold has_value. apply snapshot_shape. exists st, gs, (delete (oldest_index (snap_matchesList v)) a).
      unfold trim_value. rewrite Hmatches, Ho. rewrite Hmatches in Hs'. exact Hs'.
    - apply HD'; assumption.
    - rewrite length_insert. reflexivity.
    - intros n (st1 & gs1 & a1 & v1 & Hs1 & N1 & N2 & N3).
      destruct (shape_inj _ _ _ _ _ _ _ _ _ _ Hs Hs1) as (<- & <- & <- & <-).
      split.
      + eexists st, gs, _, _. split; [exact Hs'|].
        cbn [snap_gameSpecIdToGameSpec snap_matchesList].
        split; [exact N1|]. split; [exact N2|intros _; apply N3; exact Hne].
      + intros l Hl. apply list_lookup_insert_ne. specialize (N3 Hne). lia.
    - intros _. reflexivity.
    - intros Hn. exfalso. apply Hn. right. left. exact Hne. }
  destruct (snap_phoneNumberToContact v) as [|c cs] eqn:Hcontacts.
  2: { (* step 3 *)
    assert (Hne : snap_phoneNumberToContact v <> []) by (rewrite Hcontacts; discriminate).
    pose proof (step_contacts (heap ms0) state st gs a v Hs) as (Hs' & HD').
    eexists state, _. split.
    { rewrite (trimState_no_orphans ms0 state st gs a v Hs) by (rewrite Hmatches; exact Ho).
      apply (trimMatches_contacts ms0 state st gs a v Hs Hmatches Hne). }
    split; [|split; [|split; [|split; [|split]]]].
    - unfold has_value. apply snapshot_shape. eexists _, gs, a.
      unfold trim_value. rewrite Hmatches, Ho, Hcontacts. rewrite Hmatches in Hs'. exact Hs'.
    - apply HD'; assumption.
    - rewrite length_insert, length_app. simpl. lia.
    - intros n (st1 & gs1 & a1 & v1 & Hs1 & N1 & N2 & N3).
      destruct (shape_inj _ _ _ _ _ _ _ _ _ _ Hs Hs1) as (<- & <- & <- & <-).
      split.
      + eexists _, gs, a, _. split; [exact Hs'|].
        cbn [snap_gameSpecIdToGameSpec snap_matchesList gameSpecs matchesList].
        split; [exact N1|]. split; [exact N2|exact N3].
      + intros l Hl. rewrite list_lookup_insert_ne by lia.
        apply lookup_app_l. lia.
    - intros _. reflexivity.
    - intros Hn. exfalso. apply Hn. right. right. exact Hne. }
  (* step 4 *)
  pose proof HD as HD0. apply default_ok_shape in HD0.
  destruct HD0 as ((st0 & gs0 & a0 & Hs0) & D1 & D2 & D3).
  pose proof (step_default (heap ms0) state st gs a v D st0 gs0 a0 Hs Hs0) as (Hs' & Hs0').
  eexists (length (heap ms0)), _. split.
  { rewrite (trimState_no_orphans ms0 state st gs a v Hs) by (rewrite Hmatches; exact Ho).
    apply (trimMatches_default ms0 state st gs a v st0 Hs Hmatches Hcontacts).
    apply Hs0. }
  split; [|split; [|split; [|split; [|split]]]].
  - unfold has_value. apply snapshot_shape. eexists _, gs0, a0.
    unfold trim_value. rewrite Hmatches, Ho, Hcontacts. exact Hs'.
  - apply default_ok_shape. split; [|auto]. exists st0, gs0, a0. exact Hs0'.
  - rewrite length_app. simpl. lia.
  - intros n (st1 & gs1 & a1 & v1 & Hs1 & N1 & N2 & N3).
    split.
    + eexists _, gs0, a0, _. split; [exact Hs'|].
      cbn [snap_gameSpecIdToGameSpec snap_matchesList default_with_user].
      split; [lia|]. split; intros Hx; congruence.
    + intros l Hl. apply lookup_app_l. lia.
  - intros [Hx|[Hx|Hx]]; congruence.
  - intros _. split; [reflexivity|].
    intros l o Hl. apply lookup_app_l_Some. exact Hl.
Qed.

End TrimStepAll.

(** * Copying and saving *)

Lemma readMatches_copy (pre : list Obj) (ms : list Match) post :
  readMatches (pre ++ map OMatch ms ++ post) (seq (length pre) (length ms)) = Some ms.
Proof.
  revert pre. induction ms as [|m ms IH]; intros pre; [reflexivity|].
  simpl. rewrite list_lookup_middle by reflexivity.
  assert (Hsnoc : pre ++ OMatch m :: map OMatch ms ++ post
                  = (pre ++ [OMatch m]) ++ map OMatch ms ++ post)
    by (rewrite <- app_assoc; reflexivity).
  assert (Hlen : S (length pre) = length (pre ++ [OMatch m]))
    by (rewrite length_app; simpl; lia).
  rewrite Hsnoc, Hlen, IH. reflexivity.
Qed.

Section Copy.
Context {W : Type} {E : Env W}.

Lemma deepCopy_spec (ms0 : MState W) state v :
  has_value (heap ms0) state v ->
  exists h',
    deepCopy state ms0 = (Normal (length (heap ms0) + 4), set_heap h' ms0) /\
    has_value h' (length (heap ms0) + 4) v /\
    owned (length (heap ms0)) h' (length (heap ms0) + 4) /\
    (forall l o, heap ms0 !! l = Some o -> h' !! l = Some o).
Proof.
  intros Hv. unfold has_value in Hv.
  unfold deepCopy. rewrite Hv.
  set (n := length (heap ms0)).
  eexists. split; [reflexivity|].
  match goal with |- has_value ?h _ _ /\ _ => set (h' := h) end.
  assert (Hs : shape h' (n + 4)
                 (mkStoreState (n + 1) (n + 3) (n + 2) (snap_myUser v) (snap_stateProps v))
                 (mkGameSpecs n (snap_gameSpecsProps v))
                 (seq (n + 5) (length (snap_matchesList v))) v).
  { assert (Hk : forall k o, [OSpecMap (snap_gameSpecIdToGameSpec v);
                  OGameSpecs (mkGameSpecs n (snap_gameSpecsProps v));
                  OContactMap (snap_phoneNumberToContact v);
                  OArray (seq (n + 5) (length (snap_matchesList v)));
                  OState (mkStoreState (n + 1) (n + 3) (n + 2)
                                       (snap_myUser v) (snap_stateProps v))] !! k = Some o ->
                 h' !! (n + k) = Some o).
    { intros k o Hk. unfold h'.
      rewrite lookup_app_r by (unfold n; lia).
      replace (n + k - length (heap ms0)) with k by (unfold n; lia).
      apply lookup_app_l_Some. exact Hk. }
    unfold shape. cbn [gameSpecs matchesList phoneNumberToContact myUser stateProps
                       gameSpecIdToGameSpec gameSpecsProps].
    repeat split.
    - apply (Hk 4). reflexivity.
    - apply (Hk 1). reflexivity.
    - replace n with (n + 0) at 1 by lia. apply (Hk 0). reflexivity.
    - apply (Hk 3). reflexivity.
    - unfold h'. rewrite app_assoc.
      match goal with |- readMatches (?pre ++ _) _ = _ =>
        assert (Hlen : n + 5 = length pre) by (rewrite length_app; simpl; unfold n; lia)
      end.
      rewrite Hlen at 2.
      rewrite <- (app_nil_r (map OMatch (snap_matchesList v))).
      apply readMatches_copy.
    - apply (Hk 2). reflexivity. }
  split; [|split].
  - unfold has_value. apply snapshot_shape. eauto.
  - eexists _, _, _, v. split; [exact Hs|].
    cbn [gameSpecs matchesList gameSpecIdToGameSpec]. repeat split; intros; lia.
  - intros l o Hl. unfold h'. apply lookup_app_l_Some. exact Hl.
Qed.

Lemma default_ok_grow (h h' : Heap) D :
  (forall l o, h !! l = Some o -> h' !! l = Some o) ->
  default_ok h D -> default_ok h' D.
Proof.
  intros Hg HD. apply default_ok_shape in HD.
  destruct HD as ((st0 & gs0 & a0 & Hs0) & D1 & D2 & D3).
  apply default_ok_shape. split; [|auto]. exists st0, gs0, a0.
  pose proof Hs0 as (Hst0 & Hgs0 & Hd0 & Ha0 & Hms0 & Hc0 & _).
  apply (shape_transport h); [exact Hs0|..].
  - rewrite Hst0. apply Hg. exact Hst0.
  - rewrite Hgs0. apply Hg. exact Hgs0.
  - rewrite Hd0. apply Hg. exact Hd0.
  - rewrite Ha0. apply Hg. exact Ha0.
  - rewrite Hc0. apply Hg. exact Hc0.
  - intros l m Hl. apply Hg. exact Hl.
Qed.

Lemma save_exec (ms0 : MState W) state v :
  has_value (heap ms0) state v ->
  saveStateInLocalStorage state ms0 =
  (fst (ls_setItem REDUX_STATE_LOCAL_STORAGE_KEY (JSON_stringify v) (world ms0)),
   with_effects (heap ms0)
     (snd (ls_setItem REDUX_STATE_LOCAL_STORAGE_KEY (JSON_stringify v) (world ms0)))
     (storageLog ms0 ++ [SetItem REDUX_STATE_LOCAL_STORAGE_KEY (JSON_stringify v)]) ms0).
Proof.
  intros Hv. unfold has_value in Hv.
  unfold saveStateInLocalStorage, bind, stringify, liftR, localStorage_setItem.
  rewrite Hv.
  destruct (ls_setItem REDUX_STATE_LOCAL_STORAGE_KEY (JSON_stringify v) (world ms0)).
  reflexivity.
Qed.

(** Whatever the storage does, the retry loop returns normally after at
    most [i] writes, the first of them of the value trimmed once, and it
    writes no object below [n] if the state it trims is owned above [n]. *)
Lemma retryLoop_frame D n i : forall state (ms0 : MState W) v,
  has_value (heap ms0) state v ->
  default_ok (heap ms0) D ->
  owned n (heap ms0) state ->
  exists h' w' rest,
    retryLoop i state ms0 = (Normal tt, with_effects h' w' (storageLog ms0 ++ rest) ms0) /\
    (forall l, l < n -> h' !! l = heap ms0 !! l) /\
    length rest <= i /\
    (0 < i -> exists rest',
       rest = SetItem REDUX_STATE_LOCAL_STORAGE_KEY (JSON_stringify (trim_value D v)) :: rest').
Proof.
  induction i as [|i IH]; intros state ms0 v Hv HD Hown.
  - exists (heap ms0), (world ms0), []. rewrite app_nil_r.
    split; [destruct ms0; reflexivity|]. split; [reflexivity|]. split; [simpl; lia|lia].
  - destruct (trimState_step ms0 state v D Hv HD)
      as (state' & h1 & Hexec & Hv1 & HD1 & Hlen & Hfr & _).
    destruct (Hfr n Hown) as (Hown1 & Hsame1).
    cbn [retryLoop]. unfold bind at 1, attempt at 1. rewrite Hexec.
    unfold bind at 1, attempt at 1.
    rewrite (save_exec (set_heap h1 ms0) state' _ Hv1).
    cbn [heap set_heap world storageLog].
    destruct (ls_setItem REDUX_STATE_LOCAL_STORAGE_KEY
                (JSON_stringify (trim_value D v)) (world ms0)) as [[[]|e] w1] eqn:Hset;
      cbn [fst snd].
    + eexists _, _, [_]. split; [reflexivity|]. split; [exact Hsame1|].
      split; [simpl; lia|]. intros _. eexists. reflexivity.
    + match goal with |- context [retryLoop i state' ?m] => set (ms1 := m) end.
      destruct (IH state' ms1 (trim_value D v) Hv1 HD1 Hown1)
        as (h' & w' & rest & Hloop & Hsame & Hrest & _).
      rewrite Hloop. eexists h', w', (_ :: rest). split; [|split; [|split]].
      * f_equal. cbn [ms1 with_effects storageLog dispatched hasLocalStorage
                      persistedOldStore store_state store_listeners].
        rewrite <- app_assoc. reflexivity.
      * intros l Hl. rewrite (Hsame l Hl). cbn [heap ms1 with_effects].
        apply Hsame1. exact Hl.
      * simpl. lia.
      * intros _. eexists. reflexivity.
Qed.

(** When every write fails, the retry loop makes [i] iterations: it
    writes the values of the state after 1, 2, ... [i] steps of
    trimming, and returns normally. *)
Lemma retryLoop_failing D e (P : W -> Prop) i : forall state (ms0 : MState W) v,
  writes_fail e P ->
  P (world ms0) ->
  has_value (heap ms0) state v ->
  default_ok (heap ms0) D ->
  exists h' w',
    retryLoop i state ms0 =
    (Normal tt, with_effects h' w' (storageLog ms0 ++ writes_of D v 1 i) ms0).
Proof.
  induction i as [|i IH]; intros state ms0 v Hfail HP Hv HD.
  - exists (heap ms0), (world ms0). unfold writes_of. simpl. rewrite app_nil_r.
    destruct ms0; reflexivity.
  - destruct (trimState_step ms0 state v D Hv HD)
      as (state' & h1 & Hexec & Hv1 & HD1 & _).
    cbn [retryLoop]. unfold bind at 1, attempt at 1. rewrite Hexec.
    unfold bind at 1, attempt at 1.
    rewrite (save_exec (set_heap h1 ms0) state' _ Hv1).
    cbn [heap set_heap world storageLog].
    destruct (Hfail REDUX_STATE_LOCAL_STORAGE_KEY (JSON_stringify (trim_value D v))
                    (world ms0) HP) as (w1 & Hset & HP1).
    rewrite Hset. cbn [fst snd].
    match goal with |- context [retryLoop i state' ?m] => set (ms1 := m) end.
    destruct (IH state' ms1 (trim_value D v) Hfail HP1 Hv1 HD1) as (h' & w' & Hloop).
    rewrite Hloop. exists h', w'. f_equal.
    cbn [ms1 with_effects storageLog dispatched hasLocalStorage persistedOldStore
         store_state store_listeners].
    rewrite <- app_assoc. unfold writes_of. cbn [seq map app trimmed].
    rewrite <- (seq_shift i 1), map_map. reflexivity.
Qed.

End Copy.

(** * Trimming as a function of values *)

Lemma orphans_filter_lt (specs : props) ms :
  orphans specs ms <> [] ->
  length (filter (fun kv => referenced ms (fst kv)) specs) < length specs.
Proof.
  unfold orphans, Object_keys. induction specs as [|kv specs IH]; intros Hne.
  - exfalso. apply Hne. reflexivity.
  - simpl in Hne. rewrite filter_cons in Hne. rewrite filter_cons.
    pose proof (length_filter (fun kv => referenced ms (fst kv)) specs) as Hle.
    destruct (referenced ms (fst kv)) eqn:Href; simpl in *.
    + apply IH in Hne. lia.
    + lia.
Qed.

Lemma trim_value_myUser D v : snap_myUser (trim_value D v) = snap_myUser v.
Proof.
  unfold trim_value.
  destruct (orphans _ _); [|reflexivity].
  destruct (snap_matchesList v); [|reflexivity].
  destruct (snap_phoneNumberToContact v); reflexivity.
Qed.

Lemma trims_in_place_dec v : {trims_in_place v} + {~ trims_in_place v}.
Proof.
  unfold trims_in_place.
  destruct (orphans (snap_gameSpecIdToGameSpec v) (snap_matchesList v)) eqn:Ho;
    [|left; left; discriminate].
  destruct (snap_matchesList v) eqn:Hm; [|left; right; left; discriminate].
  destruct (snap_phoneNumberToContact v) eqn:Hc; [|left; right; right; discriminate].
  right. intros [H|[H|H]]; congruence.
Qed.

(** A step that applies takes something away. *)
Lemma trim_value_decreases D v :
  trims_in_place v -> trim_measure (trim_value D v) < trim_measure v.
Proof.
  intros Hin. unfold trim_value, trim_measure.
  destruct (orphans (snap_gameSpecIdToGameSpec v) (snap_matchesList v)) as [|k ks] eqn:Ho.
  - destruct (snap_matchesList v) as [|m ms] eqn:Hm.
    + destruct (snap_phoneNumberToContact v) as [|c cs] eqn:Hc.
      * exfalso. destruct Hin as [H|[H|H]]; congruence.
      * cbn [snap_gameSpecIdToGameSpec snap_matchesList snap_phoneNumberToContact length].
        lia.
    + cbn [snap_gameSpecIdToGameSpec snap_matchesList snap_phoneNumberToContact].
      assert (Hlt : oldest_index (m :: ms) < length (m :: ms))
        by (apply first_oldest_lt, oldest_index_first_oldest; discriminate).
      rewrite length_delete by (apply lookup_lt_is_Some; exact Hlt).
      simpl length in *. lia.
  - cbn [snap_gameSpecIdToGameSpec snap_matchesList snap_phoneNumberToContact].
    assert (Hlt := orphans_filter_lt (snap_gameSpecIdToGameSpec v) (snap_matchesList v)).
    rewrite Ho in Hlt. assert (Hne : k :: ks <> []) by discriminate.
    specialize (Hlt Hne). lia.
Qed.

Lemma trim_value_default D v :
  ~ trims_in_place v -> trim_value D v = default_with_user D (snap_myUser v).
Proof.
  intros Hn. unfold trim_value. unfold trims_in_place in Hn.
  destruct (orphans (snap_gameSpecIdToGameSpec v) (snap_matchesList v)) eqn:Ho;
    [|exfalso; apply Hn; left; discriminate].
  destruct (snap_matchesList v) eqn:Hm; [|exfalso; apply Hn; right; left; discriminate].
  destruct (snap_phoneNumberToContact v) eqn:Hc;
    [|exfalso; apply Hn; right; right; discriminate].
  reflexivity.
Qed.

(** [{...storeStateDefault, myUser: u}] is a fixed point when the default
    state is empty. *)
Lemma trim_value_fixed D u :
  snap_gameSpecIdToGameSpec D = [] -> snap_matchesList D = [] ->
  snap_phoneNumberToContact D = [] ->
  trim_value D (default_with_user D u) = default_with_user D u.
Proof.
  intros D1 D2 D3. unfold trim_value, default_with_user.
  cbn [snap_gameSpecIdToGameSpec snap_matchesList snap_phoneNumberToContact
       snap_myUser snap_gameSpecsProps snap_stateProps].
  rewrite D1, D2, D3. reflexivity.
Qed.

Lemma trimmed_fixed D u n :
  snap_gameSpecIdToGameSpec D = [] -> snap_matchesList D = [] ->
  snap_phoneNumberToContact D = [] ->
  trimmed D n (default_with_user D u) = default_with_user D u.
Proof.
  intros D1 D2 D3. induction n as [|n IH]; [reflexivity|].
  simpl. rewrite trim_value_fixed by assumption. exact IH.
Qed.

Lemma trimmed_reaches_default D n : forall v,
  snap_gameSpecIdToGameSpec D = [] -> snap_matchesList D = [] ->
  snap_phoneNumberToContact D = [] ->
  trim_measure v + 1 <= n ->
  trimmed D n v = default_with_user D (snap_myUser v).
Proof.
  induction n as [|n IH]; intros v D1 D2 D3 Hn; [lia|].
  simpl. destruct (trims_in_place_dec v) as [Hin|Hout].
  - pose proof (trim_value_decreases D v Hin) as Hlt.
    rewrite IH by (try assumption; lia).
    rewrite trim_value_myUser. reflexivity.
  - rewrite (trim_value_default D v Hout). apply trimmed_fixed; assumption.
Qed.

Lemma trim_measure_bound v :
  trim_measure v + 1 <=
  length (snap_gameSpecIdToGameSpec v) + length (snap_matchesList v) + 1 + 1.
Proof. unfold trim_measure. destruct (snap_phoneNumberToContact v); lia. Qed.

Section Iterate.
Context {W : Type} {E : Env W}.

Lemma trimTimes_value D n : forall (ms0 : MState W) state v,
  has_value (heap ms0) state v ->
  default_ok (heap ms0) D ->
  exists state' h',
    trimTimes n state ms0 = (Normal state', set_heap h' ms0) /\
    has_value h' state' (trimmed D n v) /\
    default_ok h' D.
Proof.
  induction n as [|n IH]; intros ms0 state v Hv HD.
  - exists state, (heap ms0). split; [destruct ms0; reflexivity|]. split; assumption.
  - destruct (trimState_step ms0 state v D Hv HD)
      as (state1 & h1 & Hexec & Hv1 & HD1 & _).
    destruct (IH (set_heap h1 ms0) state1 (trim_value D v) Hv1 HD1)
      as (state' & h' & Hrest & Hv' & HD').
    exists state', h'. split; [|split; assumption].
    cbn [trimTimes]. unfold bind. rewrite Hexec, Hrest. reflexivity.
Qed.

End Iterate.

(** * The variables of the module are left alone *)

Section Keeps.
Context {W : Type} {E : Env W}.

Lemma same_store_refl (ms : MState W) : same_store ms ms.
Proof. repeat split. Qed.

Lemma same_store_trans (ms1 ms2 ms3 : MState W) :
  same_store ms1 ms2 -> same_store ms2 ms3 -> same_store ms1 ms3.
Proof.
  intros (A1 & A2 & A3 & A4 & A5) (B1 & B2 & B3 & B4 & B5).
  repeat split; congruence.
Qed.

Lemma keeps_ret {A} (a : A) : keeps (W:=W) (ret a).
Proof. intros ms. apply same_store_refl. Qed.

Lemma keeps_throw {A} (e : exn) : keeps (W:=W) (A:=A) (throw e).
Proof. intros ms. apply same_store_refl. Qed.

Lemma keeps_liftR {A} (f : list Obj -> Result A) : keeps (W:=W) (liftR f).
Proof. intros ms. apply same_store_refl. Qed.

Lemma keeps_alloc (o : Obj) : keeps (W:=W) (alloc o).
Proof. intros ms. repeat split. Qed.

Lemma keeps_setObj l (o : Obj) : keeps (W:=W) (setObj l o).
Proof. intros ms. repeat split. Qed.

Lemma keeps_bind {A B} (m : M A) (k : A -> M (W:=W) B) :
  keeps m -> (forall a, keeps (k a)) -> keeps (bind m k).
Proof.
  intros Hm Hk ms. unfold bind. specialize (Hm ms).
  destruct (m ms) as [[a|e] ms1]; cbn [snd] in *.
  - eapply same_store_trans; [exact Hm|]. apply Hk.
  - exact Hm.
Qed.

Lemma keeps_attempt {A} (m : M (W:=W) A) : keeps m -> keeps (attempt m).
Proof.
  intros Hm ms. unfold attempt. specialize (Hm ms).
  destruct (m ms) as [r ms1]. exact Hm.
Qed.

Lemma keeps_setItem k s : keeps (W:=W) (localStorage_setItem k s).
Proof.
  intros ms. unfold localStorage_setItem.
  destruct (ls_setItem k s (world ms)). repeat split.
Qed.

Lemma keeps_getItem k : keeps (W:=W) (localStorage_getItem k).
Proof.
  intros ms. unfold localStorage_getItem.
  destruct (ls_getItem k (world ms)). repeat split.
Qed.

Lemma keeps_removeItem k : keeps (W:=W) (localStorage_removeItem k).
Proof.
  intros ms. unfold localStorage_removeItem.
  destruct (ls_removeItem k (world ms)). repeat split.
Qed.

Ltac keeps_step :=
  first
    [ apply keeps_ret | apply keeps_throw | apply keeps_liftR | apply keeps_alloc
    | apply keeps_setObj | apply keeps_setItem | apply keeps_getItem
    | apply keeps_removeItem | apply keeps_attempt
    | apply keeps_bind; [|intros ?]
    | match goal with
      | |- keeps (if ?b then _ else _) => destruct b
      | |- keeps (match ?x with _ => _ end) => destruct x
      end ].

Lemma keeps_trimMatches state : keeps (W:=W) (trimMatches state).
Proof. unfold trimMatches, getState, getArray, getContactMap. repeat keeps_step. Qed.

Lemma keeps_trimState state : keeps (W:=W) (trimState state).
Proof.
  unfold trimState, getState, getGameSpecs, getSpecMap, getArray.
  repeat first [apply keeps_trimMatches | keeps_step].
Qed.

Lemma keeps_save state : keeps (W:=W) (saveStateInLocalStorage state).
Proof. unfold saveStateInLocalStorage, stringify. repeat keeps_step. Qed.

Lemma keeps_deepCopy state : keeps (W:=W) (deepCopy state).
Proof.
  intros ms. unfold deepCopy. destruct (snapshot (heap ms) state); repeat split.
Qed.

Lemma keeps_retryLoop i : forall state, keeps (W:=W) (retryLoop i state).
Proof.
  induction i as [|i IH]; intros state; cbn [retryLoop].
  - apply keeps_ret.
  - repeat first [apply IH | apply keeps_trimState | apply keeps_save | keeps_step].
Qed.

Lemma keeps_persistListener : keeps (W:=W) persistListener.
Proof.
  intros ms. unfold persistListener.
  destruct (hasLocalStorage ms); [|apply same_store_refl].
  revert ms.
  change (keeps (W:=W) (let* state := store_getState in
       let* r := attempt (saveStateInLocalStorage state) in
       match r with
       | Normal _ => ret tt
       | Throw _ =>
           let* state' := deepCopy state in
           retryLoop 100 state'
       end)).
  apply keeps_bind.
  - intros ms. unfold store_getState. destruct (store_state ms); apply same_store_refl.
  - intros state.
    repeat first [apply keeps_retryLoop | apply keeps_deepCopy | apply keeps_save | keeps_step].
Qed.

Lemma keeps_runListeners ls : keeps (W:=W) (runListeners ls).
Proof.
  induction ls as [|[] ls IH]; cbn [runListeners runListener].
  - apply keeps_ret.
  - apply keeps_bind; [apply keeps_persistListener|intros _; exact IH].
Qed.

(** * The listener *)

Lemma shape_grow (h h' : list Obj) q st gs a u :
  (forall l o, h !! l = Some o -> h' !! l = Some o) ->
  shape h q st gs a u -> shape h' q st gs a u.
Proof.
  intros Hg Hs. pose proof Hs as (Hst & Hgs & Hd & Ha & Hms & Hc & _).
  apply (shape_transport h); [exact Hs|..].
  - rewrite Hst. apply Hg. exact Hst.
  - rewrite Hgs. apply Hg. exact Hgs.
  - rewrite Hd. apply Hg. exact Hd.
  - rewrite Ha. apply Hg. exact Ha.
  - rewrite Hc. apply Hg. exact Hc.
  - intros l m Hl. apply Hg. exact Hl.
Qed.

Lemma has_value_grow (h h' : list Obj) q v :
  (forall l o, h !! l = Some o -> h' !! l = Some o) ->
  has_value h q v -> has_value h' q v.
Proof.
  unfold has_value. rewrite !snapshot_shape. intros Hg (st & gs & a & Hs).
  exists st, gs, a. eapply shape_grow; eassumption.
Qed.

Lemma listener_failing D e (P : W -> Prop) (ms0 : MState W) live v :
  hasLocalStorage ms0 = true ->
  store_state ms0 = Some live ->
  has_value (heap ms0) live v ->
  default_ok (heap ms0) D ->
  writes_fail e P ->
  P (world ms0) ->
  exists h' w',
    persistListener ms0 =
    (Normal tt,
     with_effects h' w'
       (storageLog ms0 ++
        SetItem REDUX_STATE_LOCAL_STORAGE_KEY (JSON_stringify v) :: writes_of D v 1 100)
       ms0).
Proof.
  intros Hhas Hstore Hv HD Hfail HP.
  unfold persistListener. rewrite Hhas.
  unfold bind at 1, store_getState. rewrite Hstore.
  unfold bind at 1, attempt at 1. rewrite (save_exec ms0 live v Hv).
  destruct (Hfail REDUX_STATE_LOCAL_STORAGE_KEY (JSON_stringify v) (world ms0) HP)
    as (w1 & Hset & HP1).
  rewrite Hset. cbn [fst snd].
  unfold bind at 1.
  match goal with |- context [deepCopy live ?m] => set (ms1 := m) end.
  assert (Hv1 : has_value (heap ms1) live v) by exact Hv.
  destruct (deepCopy_spec ms1 live v Hv1) as (h2 & Hcopy & Hv2 & _ & Hgrow).
  rewrite Hcopy.
  assert (HD2 : default_ok (heap (set_heap h2 ms1)) D).
  { cbn [heap set_heap]. eapply default_ok_grow; [exact Hgrow|exact HD]. }
  destruct (retryLoop_failing D e P 100 (length (heap ms1) + 4) (set_heap h2 ms1) v
              Hfail HP1 Hv2 HD2) as (h' & w' & Hloop).
  rewrite Hloop. exists h', w'. f_equal.
  cbn [ms1 set_heap with_effects storageLog dispatched hasLocalStorage persistedOldStore
       store_state store_listeners].
  rewrite <- app_assoc. reflexivity.
Qed.

(** The listener for every behaviour of the storage: it returns
    normally, it changes no object that exists, and if the first write
    fails the second one is of the value trimmed once. *)
Lemma listener_frame D (ms0 : MState W) live v :
  store_state ms0 = Some live ->
  has_value (heap ms0) live v ->
  default_ok (heap ms0) D ->
  exists h' w' log',
    persistListener ms0 = (Normal tt, with_effects h' w' log' ms0) /\
    (forall l o, heap ms0 !! l = Some o -> h' !! l = Some o) /\
    (forall e, hasLocalStorage ms0 = true ->
       fst (ls_setItem REDUX_STATE_LOCAL_STORAGE_KEY (JSON_stringify v) (world ms0))
         = Throw e ->
       exists rest,
         log' = storageLog ms0 ++
                  SetItem REDUX_STATE_LOCAL_STORAGE_KEY (JSON_stringify v) ::
                  SetItem REDUX_STATE_LOCAL_STORAGE_KEY (JSON_stringify (trim_value D v)) ::
                  rest /\
         length rest <= 99).
Proof.
  intros Hstore Hv HD.
  unfold persistListener. destruct (hasLocalStorage ms0) eqn:Hhas.
  2: { exists (heap ms0), (world ms0), (storageLog ms0).
       split; [destruct ms0; reflexivity|]. split; [auto|]. intros e He. discriminate. }
  unfold bind at 1, store_getState. rewrite Hstore.
  unfold bind at 1, attempt at 1. rewrite (save_exec ms0 live v Hv).
  destruct (ls_setItem REDUX_STATE_LOCAL_STORAGE_KEY (JSON_stringify v) (world ms0))
    as [[[]|e] w1]; cbn [fst snd].
  { eexists _, _, _. split; [reflexivity|]. split; [auto|]. intros e _ He. discriminate. }
  unfold bind at 1.
  match goal with |- context [deepCopy live ?m] => set (ms1 := m) end.
  assert (Hv1 : has_value (heap ms1) live v) by exact Hv.
  destruct (deepCopy_spec ms1 live v Hv1) as (h2 & Hcopy & Hv2 & Hown & Hgrow).
  rewrite Hcopy.
  assert (HD2 : default_ok (heap (set_heap h2 ms1)) D).
  { cbn [heap set_heap]. eapply default_ok_grow; [exact Hgrow|exact HD]. }
  destruct (retryLoop_frame D (length (heap ms1)) 100 (length (heap ms1) + 4)
              (set_heap h2 ms1) v Hv2 HD2 Hown)
    as (h' & w' & rest & Hloop & Hsame & Hlen & Hfirst).
  rewrite Hloop. eexists h', w', _. split; [reflexivity|]. split.
  - intros l o Hl. rewrite Hsame.
    + cbn [heap set_heap]. apply Hgrow. exact Hl.
    + apply lookup_lt_Some in Hl. exact Hl.
  - intros e' _ _. destruct Hfirst as (rest' & ->); [lia|].
    exists rest'. split.
    + cbn [ms1 set_heap with_effects storageLog]. rewrite <- app_assoc. reflexivity.
    + simpl in Hlen. lia.
Qed.

End Keeps.

(** * The loop is bounded whatever the heap holds *)

Section Bounded.
Context {W : Type} {E : Env W}.

Lemma set_heap_same (ms : MState W) : set_heap (heap ms) ms = ms.
Proof. destruct ms; reflexivity. Qed.

Lemma heap_only_ret {A} (a : A) : heap_only (W:=W) (ret a).
Proof. intros ms. exists (heap ms). symmetry. apply set_heap_same. Qed.

Lemma heap_only_throw {A} (e : exn) : heap_only (W:=W) (A:=A) (throw e).
Proof. intros ms. exists (heap ms). symmetry. apply set_heap_same. Qed.

Lemma heap_only_liftR {A} (f : list Obj -> Result A) : heap_only (W:=W) (liftR f).
Proof. intros ms. exists (heap ms). symmetry. apply set_heap_same. Qed.

Lemma heap_only_alloc (o : Obj) : heap_only (W:=W) (alloc o).
Proof. intros ms. eexists. reflexivity. Qed.

Lemma heap_only_setObj l (o : Obj) : heap_only (W:=W) (setObj l o).
Proof. intros ms. eexists. reflexivity. Qed.

Lemma heap_only_bind {A B} (m : M A) (k : A -> M (W:=W) B) :
  heap_only m -> (forall a, heap_only (k a)) -> heap_only (bind m k).
Proof.
  intros Hm Hk ms. unfold bind. destruct (Hm ms) as (h1 & H1).
  destruct (m ms) as [[a|e] ms1]; cbn [snd] in *; subst ms1.
  - destruct (Hk a (set_heap h1 ms)) as (h2 & H2). exists h2. rewrite H2. reflexivity.
  - exists h1. reflexivity.
Qed.

Ltac heap_only_step :=
  first
    [ apply heap_only_ret | apply heap_only_throw | apply heap_only_liftR
    | apply heap_only_alloc | apply heap_only_setObj
    | apply heap_only_bind; [|intros ?]
    | match goal with
      | |- heap_only (if ?b then _ else _) => destruct b
      | |- heap_only (match ?x with _ => _ end) => destruct x
      end ].

Lemma heap_only_trimMatches state : heap_only (W:=W) (trimMatches state).
Proof. unfold trimMatches, getState, getArray, getContactMap. repeat heap_only_step. Qed.

Lemma heap_only_trimState state : heap_only (W:=W) (trimState state).
Proof.
  unfold trimState, getState, getGameSpecs, getSpecMap, getArray.
  repeat first [apply heap_only_trimMatches | heap_only_step].
Qed.

(** A call of [saveStateInLocalStorage] is at most one write. *)
Lemma save_bounded state (ms : MState W) :
  exists r w' rest,
    saveStateInLocalStorage state ms =
    (r, with_effects (heap ms) w' (storageLog ms ++ rest) ms) /\
    length rest <= 1.
Proof.
  unfold saveStateInLocalStorage, bind, stringify, liftR, localStorage_setItem.
  destruct (snapshot (heap ms) state) as [v|].
  - destruct (ls_setItem REDUX_STATE_LOCAL_STORAGE_KEY (JSON_stringify v) (world ms))
      as [r w'].
    exists r, w', [SetItem REDUX_STATE_LOCAL_STORAGE_KEY (JSON_stringify v)].
    split; [reflexivity|simpl; lia].
  - exists (Throw TypeError), (world ms), []. rewrite app_nil_r.
    split; [destruct ms; reflexivity|simpl; lia].
Qed.

(** The retry loop returns normally after at most [i] writes, also when
    [trimState] throws or the state cannot be encoded. *)
Lemma retryLoop_bounded i : forall state (ms : MState W),
  exists h' w' rest,
    retryLoop i state ms = (Normal tt, with_effects h' w' (storageLog ms ++ rest) ms) /\
    length rest <= i.
Proof.
  induction i as [|i IH]; intros state ms.
  - exists (heap ms), (world ms), []. rewrite app_nil_r.
    split; [destruct ms; reflexivity|simpl; lia].
  - cbn [retryLoop]. unfold bind at 1, attempt at 1.
    destruct (heap_only_trimState state ms) as (h1 & H1).
    destruct (trimState state ms) as [[state'|e] ms1]; cbn [snd] in H1; subst ms1.
    + unfold bind at 1, attempt at 1.
      destruct (save_bounded state' (set_heap h1 ms)) as (r & w1 & rest1 & Hsave & Hlen1).
      rewrite Hsave. cbn [heap set_heap storageLog].
      destruct r as [[]|e].
      * exists h1, w1, rest1. split; [reflexivity|lia].
      * match goal with |- context [retryLoop i state' ?m] => set (ms1 := m) end.
        destruct (IH state' ms1) as (h' & w' & rest & Hloop & Hlen).
        rewrite Hloop. exists h', w', (rest1 ++ rest). split.
        -- f_equal. cbn [ms1 with_effects storageLog]. rewrite <- app_assoc. reflexivity.
        -- rewrite length_app. lia.
    + destruct (IH state (set_heap h1 ms)) as (h' & w' & rest & Hloop & Hlen).
      rewrite Hloop. exists h', w', rest. split; [reflexivity|lia].
Qed.

(** The listener on a well-formed state whose first write fails. *)
Lemma listener_bounded (ms0 : MState W) live v e w1 :
  hasLocalStorage ms0 = true ->
  store_state ms0 = Some live ->
  has_value (heap ms0) live v ->
  ls_setItem REDUX_STATE_LOCAL_STORAGE_KEY (JSON_stringify v) (world ms0) = (Throw e, w1) ->
  exists h' w' rest,
    persistListener ms0 =
    (Normal tt,
     with_effects h' w'
       (storageLog ms0 ++
        SetItem REDUX_STATE_LOCAL_STORAGE_KEY (JSON_stringify v) :: rest) ms0) /\
    length rest <= 100.
Proof.
  intros Hhas Hstore Hv Hset.
  unfold persistListener. rewrite Hhas.
  unfold bind at 1, store_getState. rewrite Hstore.
  unfold bind at 1, attempt at 1. rewrite (save_exec ms0 live v Hv).
  rewrite Hset. cbn [fst snd].
  unfold bind at 1.
  match goal with |- context [deepCopy live ?m] => set (ms1 := m) end.
  assert (Hv1 : has_value (heap ms1) live v) by exact Hv.
  destruct (deepCopy_spec ms1 live v Hv1) as (h2 & Hcopy & _).
  rewrite Hcopy.
  destruct (retryLoop_bounded 100 (length (heap ms1) + 4) (set_heap h2 ms1))
    as (h' & w' & rest & Hloop & Hlen).
  rewrite Hloop. exists h', w', rest. split; [|exact Hlen].
  f_equal. cbn [ms1 set_heap with_effects storageLog]. rewrite <- app_assoc. reflexivity.
Qed.

End Bounded.

(** * The heap never shrinks *)

Section Grows.
Context {W : Type} {E : Env W}.

Lemma trimMatches_length state (ms : MState W) :
  length (heap ms) <= length (heap (snd (trimMatches state ms))).
Proof.
  unfold trimMatches, bind, getState, getArray, getContactMap, liftR, setObj, alloc, ret.
  repeat match goal with
         | |- context [match ?x with _ => _ end] => destruct x
         | |- context [if ?b then _ else _] => destruct b
         end;
    cbn [snd fst heap set_heap]; rewrite ?length_insert, ?length_app; simpl; lia.
Qed.

Lemma trimState_length state (ms : MState W) :
  length (heap ms) <= length (heap (snd (trimState state ms))).
Proof.
  unfold trimState, bind, getState, getGameSpecs, getSpecMap, getArray, liftR, setObj, ret.
  repeat match goal with
         | |- context [trimMatches ?s ?m] => fail 1
         | |- context [match ?x with _ => _ end] => destruct x
         | |- context [if ?b then _ else _] => destruct b
         end;
    try apply trimMatches_length;
    cbn [snd fst heap set_heap]; rewrite ?length_insert; lia.
Qed.

Lemma retryLoop_length i : forall state (ms : MState W),
  length (heap ms) <= length (heap (snd (retryLoop i state ms))).
Proof.
  induction i as [|i IH]; intros state ms; [cbn; lia|].
  cbn [retryLoop]. unfold bind at 1, attempt at 1.
  pose proof (trimState_length state ms) as Hlen.
  destruct (trimState state ms) as [[state'|e] ms1]; cbn [snd] in Hlen.
  - unfold bind at 1, attempt at 1.
    destruct (save_bounded state' ms1) as (r & w1 & rest1 & Hsave & _).
    rewrite Hsave. destruct r as [[]|e].
    + cbn [ret snd heap with_effects]. exact Hlen.
    + etransitivity; [exact Hlen|].
      etransitivity; [|apply IH]. cbn [heap with_effects]. lia.
  - etransitivity; [exact Hlen|apply IH].
Qed.

(** When the first write fails the listener allocates a copy of the
    state: the spec map, the [gameSpecs] record, the contact map, the
    array, the state object and one object per match. *)
Lemma listener_copies (ms0 : MState W) live v e :
  hasLocalStorage ms0 = true ->
  store_state ms0 = Some live ->
  has_value (heap ms0) live v ->
  fst (ls_setItem REDUX_STATE_LOCAL_STORAGE_KEY (JSON_stringify v) (world ms0)) = Throw e ->
  length (heap ms0) + 5 + length (snap_matchesList v)
    <= length (heap (snd (persistListener ms0))).
Proof.
  intros Hhas Hstore Hv Hset.
  unfold persistListener. rewrite Hhas.
  unfold bind at 1, store_getState. rewrite Hstore.
  unfold bind at 1, attempt at 1. rewrite (save_exec ms0 live v Hv).
  rewrite Hset. cbn [fst snd].
  unfold bind at 1, deepCopy. cbn [heap with_effects].
  unfold has_value in Hv. rewrite Hv.
  etransitivity; [|apply retryLoop_length].
  cbn [heap set_heap]. rewrite !length_app, length_map. simpl. lia.
Qed.

End Grows.

(** * The persistence loop *)

Lemma writes_of_length {W} {E : Env W} D v i n : length (writes_of D v i n) = n.
Proof. unfold writes_of. rewrite length_map, length_seq. reflexivity. Qed.

(** C1.  When every write to the storage fails with [QuotaExceededError],
    a notification of the store makes the listener write the state as it
    is, then at most 100 more times, one write for each iteration of
    {trim, encode, write} on the copy, and then return normally: nothing
    is thrown to the store that called the listener.  With
    [storeStateDefault] as expected the iterations are exactly 100, and
    each writes the value trimmed once more. *)
Theorem persist_abandons_after_100_trims {W} {E : Env W}
    (P : W -> Prop) (ms0 : MState W) (live : nat) (v : Snapshot) :
  hasLocalStorage ms0 = true ->
  store_state ms0 = Some live ->
  has_value (heap ms0) live v ->
  writes_fail QuotaExceededError P ->
  P (world ms0) ->
  exists h' w' rest,
    persistListener ms0 =
    (Normal tt,
     with_effects h' w'
       (storageLog ms0 ++
        SetItem REDUX_STATE_LOCAL_STORAGE_KEY (JSON_stringify v) :: rest)
       ms0) /\
    length rest <= 100 /\
    (forall D, default_ok (heap ms0) D ->
               rest = writes_of D v 1 100 /\ length rest = 100).
Proof.
  intros Hhas Hstore Hv Hfail HP.
  destruct (Hfail REDUX_STATE_LOCAL_STORAGE_KEY (JSON_stringify v) (world ms0) HP)
    as (w1 & Hset & _).
  destruct (listener_bounded ms0 live v _ w1 Hhas Hstore Hv Hset)
    as (h' & w' & rest & Hrun & Hlen).
  exists h', w', rest. split; [exact Hrun|]. split; [exact Hlen|].
  intros D HD.
  destruct (listener_failing D QuotaExceededError P ms0 live v Hhas Hstore Hv HD Hfail HP)
    as (h2 & w2 & Hrun2).
  rewrite Hrun in Hrun2. injection Hrun2 as _ _ Hlog.
  apply app_inv_head in Hlog. injection Hlog as Heq.
  split; [exact Heq|]. rewrite Heq. apply writes_of_length.
Qed.

(** C3.  Whatever the storage answers to each write, the listener leaves
    every object that existed when it was called as it was: the recovery
    path writes only to objects it has allocated itself.  The state of the
    store is the same object with the same value afterwards. *)
Theorem recovery_leaves_live_state {W} {E : Env W}
    (D : Snapshot) (ms0 : MState W) (live : nat) (v : Snapshot) :
  store_state ms0 = Some live ->
  has_value (heap ms0) live v ->
  default_ok (heap ms0) D ->
  exists ms',
    persistListener ms0 = (Normal tt, ms') /\
    (forall l o, heap ms0 !! l = Some o -> heap ms' !! l = Some o) /\
    store_state ms' = Some live /\
    has_value (heap ms') live v.
Proof.
  intros Hstore Hv HD.
  destruct (listener_frame D ms0 live v Hstore Hv HD) as (h' & w' & log' & Hrun & Hsame & _).
  eexists. split; [exact Hrun|]. cbn [heap with_effects store_state].
  split; [exact Hsame|]. split; [exact Hstore|].
  eapply has_value_grow; [exact Hsame|exact Hv].
Qed.

(** C4, as amended.  The listener does not look at the kind of error: if
    the first write throws [e], whatever [e] is, the listener takes the
    recovery path.  It makes a copy of the state: the heap gains at least
    the objects of a full copy.  It trims the copy and writes again: the
    second write is of the value trimmed once, while no object that
    existed before is changed and the state of the store still has its
    value.  It returns normally after at most 100 such retries, and after
    exactly 100, each of the value trimmed once more, when every write
    throws [e]. *)
Theorem any_write_error_is_retried {W} {E : Env W}
    (D : Snapshot) (e : exn) (ms0 : MState W) (live : nat) (v : Snapshot) :
  hasLocalStorage ms0 = true ->
  store_state ms0 = Some live ->
  has_value (heap ms0) live v ->
  default_ok (heap ms0) D ->
  fst (ls_setItem REDUX_STATE_LOCAL_STORAGE_KEY (JSON_stringify v) (world ms0)) = Throw e ->
  exists h' w' rest,
    persistListener ms0 =
    (Normal tt,
     with_effects h' w'
       (storageLog ms0 ++
        SetItem REDUX_STATE_LOCAL_STORAGE_KEY (JSON_stringify v) ::
        SetItem REDUX_STATE_LOCAL_STORAGE_KEY (JSON_stringify (trim_value D v)) :: rest)
       ms0) /\
    length rest <= 99 /\
    length (heap ms0) + 5 + length (snap_matchesList v) <= length h' /\
    (forall l o, heap ms0 !! l = Some o -> h' !! l = Some o) /\
    has_value h' live v /\
    (forall P : W -> Prop,
       writes_fail e P -> P (world ms0) ->
       SetItem REDUX_STATE_LOCAL_STORAGE_KEY (JSON_stringify (trim_value D v)) :: rest
       = writes_of D v 1 100).
Proof.
  intros Hhas Hstore Hv HD He.
  destruct (listener_frame D ms0 live v Hstore Hv HD)
    as (h' & w' & log' & Hrun & Hsame & Hlog).
  destruct (Hlog e Hhas He) as (rest & -> & Hlen).
  pose proof (listener_copies ms0 live v e Hhas Hstore Hv He) as Hcopy.
  rewrite Hrun in Hcopy. cbn [snd heap with_effects] in Hcopy.
  exists h', w', rest. split; [exact Hrun|]. split; [exact Hlen|].
  split; [exact Hcopy|]. split; [exact Hsame|].
  split; [eapply has_value_grow; [exact Hsame|exact Hv]|].
  intros P Hfail HP.
  destruct (listener_failing D e P ms0 live v Hhas Hstore Hv HD Hfail HP)
    as (h2 & w2 & Hrun2).
  rewrite Hrun in Hrun2. injection Hrun2 as _ _ Hlog2.
  rewrite (cons_middle _ (storageLog ms0)), (cons_middle _ (storageLog ms0) (writes_of _ _ _ _)),
    !app_assoc in Hlog2.
  apply app_inv_head in Hlog2. exact Hlog2.
Qed.

(** * trimState *)

(** C5.  When some game spec is used by no match, one call of [trimState]
    deletes every such spec from the spec map of its argument and returns
    the argument; the matches and all other fields keep their value. *)
Theorem trim_deletes_all_orphaned_specs {W} {E : Env W}
    (ms0 : MState W) (state : nat) (v : Snapshot) :
  has_value (heap ms0) state v ->
  orphans (snap_gameSpecIdToGameSpec v) (snap_matchesList v) <> [] ->
  exists h',
    trimState state ms0 = (Normal state, set_heap h' ms0) /\
    has_value h' state
      (mkSnapshot
         (filter (fun kv => referenced (snap_matchesList v) (fst kv))
                 (snap_gameSpecIdToGameSpec v))
         (snap_gameSpecsProps v) (snap_matchesList v)
         (snap_phoneNumberToContact v) (snap_myUser v) (snap_stateProps v)).
Proof.
  intros Hv Hne. unfold has_value in *.
  apply snapshot_shape in Hv. destruct Hv as (st & gs & a & Hs).
  eexists. split; [apply (trimState_specs ms0 state st gs a v Hs Hne)|].
  apply snapshot_shape. exists st, gs, a.
  apply (step_specs (heap ms0) state st gs a v _ Hs).
Qed.

(** C6.  When every game spec is used by some match and there is a match,
    one call of [trimState] removes the match whose [lastUpdatedOn] is
    least, the first such match of the list if several have it, and
    returns the argument; nothing else changes. *)
Theorem trim_removes_oldest_match {W} {E : Env W}
    (ms0 : MState W) (state : nat) (v : Snapshot) :
  has_value (heap ms0) state v ->
  orphans (snap_gameSpecIdToGameSpec v) (snap_matchesList v) = [] ->
  snap_matchesList v <> [] ->
  exists i h',
    first_oldest (snap_matchesList v) i /\
    trimState state ms0 = (Normal state, set_heap h' ms0) /\
    has_value h' state
      (mkSnapshot (snap_gameSpecIdToGameSpec v) (snap_gameSpecsProps v)
                  (delete i (snap_matchesList v))
                  (snap_phoneNumberToContact v) (snap_myUser v) (snap_stateProps v)).
Proof.
  intros Hv Ho Hne. unfold has_value in *.
  apply snapshot_shape in Hv. destruct Hv as (st & gs & a & Hs).
  exists (oldest_index (snap_matchesList v)). eexists.
  split; [apply oldest_index_first_oldest; exact Hne|]. split.
  - rewrite (trimState_no_orphans ms0 state st gs a v Hs Ho).
    apply (trimMatches_oldest ms0 state st gs a v Hs Hne).
  - apply snapshot_shape. exists st, gs, (delete (oldest_index (snap_matchesList v)) a).
    apply (step_matches (heap ms0) state st gs a v _ Hs).
Qed.

(** C7.  From any state, [n] calls of [trimState] in a row give a state
    of value [{...storeStateDefault, myUser: s.myUser}] as soon as [n] is
    at least |specs| + |matches| + 1 + 1, and one more call on such a
    state gives that value again. *)
Theorem trim_reaches_default_with_user {W} {E : Env W}
    (D : Snapshot) (ms0 : MState W) (state : nat) (v : Snapshot) (n : nat) :
  has_value (heap ms0) state v ->
  default_ok (heap ms0) D ->
  length (snap_gameSpecIdToGameSpec v) + length (snap_matchesList v) + 1 + 1 <= n ->
  exists state' h',
    trimTimes n state ms0 = (Normal state', set_heap h' ms0) /\
    has_value h' state' (default_with_user D (snap_myUser v)) /\
    exists state'' h'',
      trimState state' (set_heap h' ms0) = (Normal state'', set_heap h'' ms0) /\
      has_value h'' state'' (default_with_user D (snap_myUser v)).
Proof.
  intros Hv HD Hn.
  pose proof HD as (_ & D1 & D2 & D3).
  destruct (trimTimes_value D n ms0 state v Hv HD) as (state' & h' & Hrun & Hv' & HD').
  rewrite (trimmed_reaches_default D n v D1 D2 D3) in Hv'
    by (pose proof (trim_measure_bound v); lia).
  exists state', h'. split; [exact Hrun|]. split; [exact Hv'|].
  destruct (trimState_step (set_heap h' ms0) state' _ D Hv' HD')
    as (state'' & h'' & Hexec & Hv'' & _).
  exists state'', h''. split; [exact Hexec|].
  rewrite trim_value_fixed in Hv'' by assumption. exact Hv''.
Qed.


(** * dispatch *)

Lemma get_prop_set_prop k x (o : props) : get_prop k (set_prop k x o) = Some x.
Proof.
  induction o as [|[k' x'] o IH]; simpl.
  - rewrite String.eqb_refl. reflexivity.
  - destruct (String.eqb k' k) eqn:Hk; simpl.
    + rewrite String.eqb_refl. reflexivity.
    + rewrite Hk. exact IH.
Qed.

(** What [dispatch] does with an action object that has the single key
    [k]: the assignment of line 118 is made on that object, and the store
    reduces the object as it then is. *)
Lemma dispatch_one_key_exec {W} {E : Env W}
    (ms0 : MState W) (action : nat) (k : string) (p : json) :
  heap ms0 !! action = Some (OAction [(k, p)]) ->
  exists r ms',
    dispatch action ms0 = (r, ms') /\
    dispatched ms' = dispatched ms0 ++ [set_prop "type" (JStr k) [(k, p)]].
Proof.
  intros Ha.
  destruct (dispatch action ms0) as [r ms'] eqn:Hd.
  exists r, ms'. split; [reflexivity|].
  unfold dispatch, bind at 1, liftR, readAction in Hd. rewrite Ha in Hd.
  cbn [Object_keys map length Nat.eqb checkCondition hd fst] in Hd.
  unfold bind at 1, ret at 1 in Hd. unfold bind at 1, setObj in Hd.
  unfold store_dispatch, bind at 1, liftR, readAction in Hd.
  cbn [heap set_heap] in Hd.
  rewrite list_lookup_insert_eq in Hd by (eapply lookup_lt_Some; exact Ha).
  rewrite get_prop_set_prop in Hd.
  unfold bind in Hd. cbn [store_state set_heap heap] in Hd.
  destruct (reducer (store_state ms0) (set_prop "type" (JStr k) [(k, p)])
              (<[action:=OAction (set_prop "type" (JStr k) [(k, p)])]> (heap ms0)))
    as [s h] eqn:Hred.
  match type of Hd with
  | runListeners ?ls ?m = _ => pose proof (keeps_runListeners ls m) as (Hkeep & _)
  end.
  rewrite Hd in Hkeep. cbn [snd] in Hkeep. rewrite Hkeep. reflexivity.
Qed.

(** C9.  [dispatch] counts the own keys of the action object.  If there
    is not exactly one, be it none or several, it throws before anything
    is touched: the machine is as it was and nothing has reached the
    store.  If there is exactly one key [k] with payload [p], the store
    receives one action, the object [{k: p, type: k}]: the payload under
    its key, and the name of the key as [type].  The one key may be
    [type] itself: then the assignment of line 118 replaces the payload,
    and the store receives [{type: "type"}]. *)
Theorem dispatch_requires_one_key {W} {E : Env W}
    (ms0 : MState W) (action : nat) (a : props) :
  heap ms0 !! action = Some (OAction a) ->
  (length (Object_keys a) <> 1 ->
   dispatch action ms0 = (Throw (Error "actionType"), ms0)) /\
  (forall k p, a = [(k, p)] -> k <> "type" ->
   exists r ms',
     dispatch action ms0 = (r, ms') /\
     dispatched ms' = dispatched ms0 ++ [[(k, p); ("type", JStr k)]]) /\
  (forall p, a = [("type", p)] ->
   exists r ms',
     dispatch action ms0 = (r, ms') /\
     dispatched ms' = dispatched ms0 ++ [[("type", JStr "type")]]).
Proof.
  intros Ha. split; [|split].
  - intros Hlen. unfold dispatch, bind, liftR, readAction. rewrite Ha.
    destruct (length (Object_keys a) =? 1) eqn:Hk;
      [apply Nat.eqb_eq in Hk; contradiction|].
    reflexivity.
  - intros k p -> Hk.
    destruct (dispatch_one_key_exec ms0 action k p Ha) as (r & ms' & Hd & Hlog).
    exists r, ms'. split; [exact Hd|]. rewrite Hlog.
    cbn [set_prop]. destruct (String.eqb k "type") eqn:Heq; [|reflexivity].
    apply String.eqb_eq in Heq. contradiction.
  - intros p ->.
    destruct (dispatch_one_key_exec ms0 action "type" p Ha) as (r & ms' & Hd & Hlog).
    exists r, ms'. split; [exact Hd|]. rewrite Hlog. reflexivity.
Qed.

(** * Start-up *)

Section Startup.
Context {W : Type} {E : Env W}.

Lemma keeps_check : keeps (W:=W) checkIfLocalStorageWorks.
Proof.
  unfold checkIfLocalStorageWorks.
  destruct (window_defined && negb localStorage_in_window); [apply keeps_ret|].
  apply keeps_bind.
  - apply keeps_attempt. apply keeps_bind; [apply keeps_setItem|].
    intros _. apply keeps_removeItem.
  - intros [|]; apply keeps_ret.
Qed.

Lemma persistListener_off (ms : MState W) :
  hasLocalStorage ms = false -> persistListener ms = (Normal tt, ms).
Proof. intros H. unfold persistListener. rewrite H. reflexivity. Qed.

Lemma runListeners_off ls (ms : MState W) :
  hasLocalStorage ms = false -> runListeners ls ms = (Normal tt, ms).
Proof.
  intros H. induction ls as [|[] ls IH]; [reflexivity|].
  cbn [runListeners runListener]. unfold bind.
  rewrite (persistListener_off ms H). exact IH.
Qed.

Lemma store_dispatch_off a (ms : MState W) :
  hasLocalStorage ms = false ->
  hasLocalStorage (snd (store_dispatch a ms)) = false /\
  storageLog (snd (store_dispatch a ms)) = storageLog ms /\
  world (snd (store_dispatch a ms)) = world ms.
Proof.
  intros H. destruct (store_dispatch a ms) as [r ms'] eqn:Hd. cbn [snd].
  unfold store_dispatch, bind at 1, liftR in Hd.
  destruct (readAction (heap ms) a) as [o|e];
    [|injection Hd as _ <-; auto].
  destruct (get_prop "type" o);
    [|unfold throw in Hd; injection Hd as _ <-; auto].
  unfold bind in Hd.
  destruct (reducer (store_state ms) o (heap ms)) as [s h].
  rewrite runListeners_off in Hd by exact H.
  injection Hd as _ <-. auto.
Qed.

Lemma dispatch_off a (ms : MState W) :
  hasLocalStorage ms = false ->
  hasLocalStorage (snd (dispatch a ms)) = false /\
  storageLog (snd (dispatch a ms)) = storageLog ms /\
  world (snd (dispatch a ms)) = world ms.
Proof.
  intros H. destruct (dispatch a ms) as [r ms'] eqn:Hd. cbn [snd].
  unfold dispatch, bind at 1, liftR in Hd.
  destruct (readAction (heap ms) a) as [o|e];
    [|injection Hd as _ <-; auto].
  unfold bind at 1, checkCondition in Hd.
  destruct (length (Object_keys o) =? 1);
    [|unfold throw in Hd; injection Hd as _ <-; auto].
  unfold ret at 1 in Hd. unfold bind at 1, setObj in Hd.
  match type of Hd with store_dispatch a ?m = _ =>
    destruct (store_dispatch_off a m H) as (H1 & H2 & H3)
  end.
  rewrite Hd in H1, H2, H3. cbn [snd] in *. auto.
Qed.

Lemma run_off inputs : forall (ms : MState W),
  hasLocalStorage ms = false ->
  storageLog (snd (run inputs ms)) = storageLog ms /\
  world (snd (run inputs ms)) = world ms.
Proof.
  induction inputs as [|[a|a] inputs IH]; intros ms H; [auto|..];
    cbn [run]; unfold bind, attempt.
  - destruct (dispatch_off a ms H) as (H1 & H2 & H3).
    destruct (dispatch a ms) as [r ms1]. cbn [snd] in *.
    destruct (IH ms1 H1) as (I1 & I2). split; congruence.
  - destruct (store_dispatch_off a ms H) as (H1 & H2 & H3).
    destruct (store_dispatch a ms) as [r ms1]. cbn [snd] in *.
    destruct (IH ms1 H1) as (I1 & I2). split; congruence.
Qed.

Lemma restoreOldState_exec (ms : MState W) o w :
  hasLocalStorage ms = true ->
  ls_getItem REDUX_STATE_LOCAL_STORAGE_KEY (world ms) = (Normal o, w) ->
  restoreOldState ms =
  (match o with
   | Some (String c s) =>
       match JSON_parse (String c s) with
       | Some j => Normal (Some j)
       | None => Throw SyntaxError
       end
   | _ => Normal None
   end,
   set_storage w (GetItem REDUX_STATE_LOCAL_STORAGE_KEY) ms).
Proof.
  intros Hhas Hget. unfold restoreOldState. rewrite Hhas.
  unfold bind, localStorage_getItem. rewrite Hget.
  destruct o as [[|c s]|]; try reflexivity.
  cbn [truthy]. destruct (JSON_parse (String c s)); reflexivity.
Qed.

End Startup.

(** C10, as amended.  When the probe of the storage fails, the module
    still subscribes its listener to the store, but with
    [hasLocalStorage] false the listener does nothing: in whatever way
    the process goes on, the storage is not called again after the
    probe. *)
Theorem failed_probe_silences_listener {W} {E : Env W} (ms0 : MState W) :
  fst (checkIfLocalStorageWorks ms0) = Normal false ->
  exists ms1,
    module_init ms0 = (Normal tt, ms1) /\
    hasLocalStorage ms1 = false /\
    store_listeners ms1 = store_listeners ms0 ++ [PersistListener] /\
    storageLog ms1 = storageLog (snd (checkIfLocalStorageWorks ms0)) /\
    forall inputs,
      storageLog (snd (run inputs ms1)) = storageLog ms1 /\
      world (snd (run inputs ms1)) = world ms1.
Proof.
  intros Hprobe.
  pose proof (keeps_check ms0) as (_ & _ & _ & _ & Hls).
  destruct (checkIfLocalStorageWorks ms0) as [r msp] eqn:Hc. cbn [fst snd] in *. subst r.
  unfold module_init, bind at 1. rewrite Hc.
  unfold bind at 1. unfold bind at 1.
  unfold restoreOldState. cbn [hasLocalStorage set_hasLocalStorage].
  unfold bind at 1. unfold bind at 1, createStore.
  cbn [heap set_persistedOldStore set_hasLocalStorage].
  destruct (reducer None [("type", JStr "@@redux/INIT")] (heap msp)) as [s h].
  unfold persistNewState, store_subscribe.
  eexists. split; [reflexivity|].
  split; [reflexivity|]. split; [simpl; rewrite Hls; reflexivity|].
  split; [reflexivity|].
  intros inputs. apply run_off. reflexivity.
Qed.

(** C2, as amended.  When the probe has succeeded, start-up reads the
    key.  Without a stored string, or with an empty one, there is no old
    state and start-up goes on.  A string that [JSON.parse] accepts gives
    the old state.  A string that [JSON.parse] rejects is not tolerated:
    the [SyntaxError] leaves [restoreOldState] and the top level of the
    module, before the store is created or the listener subscribed. *)
Theorem startup_restores_or_throws {W} {E : Env W}
    (ms0 msp : MState W) (o : option string) (w : W) :
  checkIfLocalStorageWorks ms0 = (Normal true, msp) ->
  ls_getItem REDUX_STATE_LOCAL_STORAGE_KEY (world msp) = (Normal o, w) ->
  match o with
  | Some (String c s) =>
      match JSON_parse (String c s) with
      | Some j =>
          exists ms', module_init ms0 = (Normal tt, ms') /\
                      persistedOldStore ms' = Some j
      | None =>
          exists ms', module_init ms0 = (Throw SyntaxError, ms') /\
                      store_state ms' = store_state ms0 /\
                      store_listeners ms' = store_listeners ms0
      end
  | _ =>
      exists ms', module_init ms0 = (Normal tt, ms') /\
                  persistedOldStore ms' = None
  end.
Proof.
  intros Hc Hget.
  pose proof (keeps_check ms0) as (_ & _ & _ & Hst & Hls).
  rewrite Hc in Hst, Hls. cbn [snd] in Hst, Hls.
  set (ms2 := set_storage w (GetItem REDUX_STATE_LOCAL_STORAGE_KEY)
                (set_hasLocalStorage true msp)).
  assert (Hinit : forall r,
            restoreOldState (set_hasLocalStorage true msp) = (r, ms2) ->
            module_init ms0 =
            match r with
            | Normal old =>
                ((fun ms => (Normal tt, set_persistedOldStore old ms)) ;;;
                 createStore ;;; persistNewState) ms2
            | Throw e => (Throw e, ms2)
            end).
  { intros r Hr. unfold module_init, bind at 1. rewrite Hc.
    unfold bind at 1. unfold bind at 1. rewrite Hr. reflexivity. }
  assert (Hgo : forall old,
            exists ms',
              ((fun ms => (Normal tt, set_persistedOldStore old ms)) ;;;
               createStore ;;; persistNewState) ms2 = (Normal tt, ms') /\
              persistedOldStore ms' = old).
  { intros old. unfold bind, createStore. cbn [heap set_persistedOldStore].
    destruct (reducer None [("type", JStr "@@redux/INIT")] (heap ms2)) as [s h].
    eexists. split; reflexivity. }
  pose proof (restoreOldState_exec (set_hasLocalStorage true msp) o w eq_refl Hget) as Hr.
  destruct o as [[|c s]|].
  - rewrite (Hinit _ Hr). apply Hgo.
  - destruct (JSON_parse (String c s)) as [j|]; rewrite (Hinit _ Hr).
    + apply Hgo.
    + eexists. split; [reflexivity|]. split; assumption.
  - rewrite (Hinit _ Hr). apply Hgo.
Qed.

(** * Further properties of [trimState] *)

Lemma orphans_after_filter (specs : props) ms :
  orphans (filter (fun kv => referenced ms (fst kv)) specs) ms = [].
Proof.
  unfold orphans, Object_keys. induction specs as [|kv specs IH]; [reflexivity|].
  rewrite filter_cons. destruct (referenced ms (fst kv)) eqn:Href; simpl.
  - rewrite filter_cons. simpl. rewrite Href. simpl. exact IH.
  - exact IH.
Qed.

(** A trimming step keeps entries and their order. *)
Lemma trim_value_sublists D v :
  snap_gameSpecIdToGameSpec D = [] -> snap_matchesList D = [] ->
  snap_phoneNumberToContact D = [] ->
  snap_gameSpecIdToGameSpec (trim_value D v) `sublist_of` snap_gameSpecIdToGameSpec v /\
  snap_matchesList (trim_value D v) `sublist_of` snap_matchesList v /\
  snap_phoneNumberToContact (trim_value D v) `sublist_of` snap_phoneNumberToContact v.
Proof.
  intros D1 D2 D3. unfold trim_value.
  destruct (orphans (snap_gameSpecIdToGameSpec v) (snap_matchesList v)).
  - destruct (snap_matchesList v) as [|m ms] eqn:Hm.
    + destruct (snap_phoneNumberToContact v) eqn:Hc;
        cbn [snap_gameSpecIdToGameSpec snap_matchesList snap_phoneNumberToContact].
      * rewrite D1, D2, D3. repeat split; apply sublist_nil_l.
      * repeat split; first [reflexivity | apply sublist_nil_l].
    + cbn [snap_gameSpecIdToGameSpec snap_matchesList snap_phoneNumberToContact].
      repeat split; first [reflexivity | apply sublist_delete].
  - cbn [snap_gameSpecIdToGameSpec snap_matchesList snap_phoneNumberToContact].
    repeat split; first [reflexivity | apply sublist_filter].
Qed.

(** The first three steps touch the collections only. *)
Lemma trim_value_other_fields D v :
  trims_in_place v ->
  snap_gameSpecsProps (trim_value D v) = snap_gameSpecsProps v /\
  snap_stateProps (trim_value D v) = snap_stateProps v.
Proof.
  intros Ht. unfold trim_value, trims_in_place in *.
  destruct (orphans (snap_gameSpecIdToGameSpec v) (snap_matchesList v));
    [|split; reflexivity].
  destruct (snap_matchesList v); [|split; reflexivity].
  destruct (snap_phoneNumberToContact v); [|split; reflexivity].
  destruct Ht as [Ht|[Ht|Ht]]; contradiction.
Qed.

Lemma others_kept_refl (h : list Obj) : others_kept h h.
Proof. intros l o Hl _. exact Hl. Qed.

Lemma others_kept_trans (h1 h2 h3 : list Obj) :
  others_kept h1 h2 -> others_kept h2 h3 -> others_kept h1 h3.
Proof. intros H12 H23 l o Hl Hk. apply H23; [apply H12; assumption|exact Hk]. Qed.

Lemma others_kept_app (h x : list Obj) : others_kept h (h ++ x).
Proof. intros l o Hl _. apply lookup_app_l_Some. exact Hl. Qed.

Lemma others_kept_insert (h : list Obj) l o0 o :
  h !! l = Some o0 -> trim_may_write o0 = true -> others_kept h (<[l:=o]> h).
Proof.
  intros H0 Hw l' o' Hl' Hk. rewrite list_lookup_insert_ne; [exact Hl'|].
  intros ->. rewrite H0 in Hl'. injection Hl' as <-. congruence.
Qed.

Section TrimMore.
Context {W : Type} {E : Env W}.

Lemma trimMatches_others_kept state (ms : MState W) :
  others_kept (heap ms) (heap (snd (trimMatches state ms))).
Proof.
  unfold trimMatches, bind, getState, getArray, getContactMap, liftR,
    readState, readArray, readContactMap.
  destruct (heap ms !! state) as [[st| | | | | |]|] eqn:Hst;
    try apply others_kept_refl.
  destruct (heap ms !! matchesList st) as [[| | | |a| |]|] eqn:Ha;
    try apply others_kept_refl.
  destruct (0 <? length a).
  - destruct (Array_reduce (heap ms) a (hd 0 a)) as [oldest|e];
      [|apply others_kept_refl].
    cbn [snd heap set_heap setObj ret].
    eapply others_kept_insert; [exact Ha|reflexivity].
  - destruct (heap ms !! phoneNumberToContact st) as [[| | |c| | |]|] eqn:Hc;
      try apply others_kept_refl.
    destruct (0 <? length (Object_keys c)).
    + cbn [snd heap set_heap setObj ret alloc].
      eapply others_kept_trans; [apply others_kept_app|].
      eapply others_kept_insert; [apply lookup_app_l_Some; exact Hst|reflexivity].
    + destruct (heap ms !! storeStateDefault) as [[d| | | | | |]|] eqn:Hd;
        try apply others_kept_refl.
      cbn [snd heap set_heap alloc]. apply others_kept_app.
Qed.

Lemma trimState_others_kept state (ms : MState W) :
  others_kept (heap ms) (heap (snd (trimState state ms))).
Proof.
  pose proof (trimMatches_others_kept state ms) as Hrest.
  unfold trimState, bind, getState, getGameSpecs, getSpecMap, getArray, liftR,
    readState, readGameSpecs, readSpecMap, readArray.
  destruct (heap ms !! state) as [[st| | | | | |]|] eqn:Hst;
    try apply others_kept_refl.
  destruct (heap ms !! gameSpecs st) as [[|gs| | | | |]|] eqn:Hgs;
    try apply others_kept_refl.
  destruct (heap ms !! gameSpecIdToGameSpec gs) as [[| |d| | | |]|] eqn:Hd;
    try apply others_kept_refl.
  destruct (0 <? length (Object_keys d)); [|exact Hrest].
  destruct (heap ms !! matchesList st) as [[| | | |a| |]|] eqn:Ha;
    try apply others_kept_refl.
  destruct (gameSpecsToDelete (heap ms) a (Object_keys d)) as [toDelete|e];
    [|apply others_kept_refl].
  destruct (0 <? length toDelete); [|exact Hrest].
  cbn [snd heap set_heap setObj ret].
  eapply others_kept_insert; [exact Hd|reflexivity].
Qed.

End TrimMore.

(** X1.  On a state without game specs and without matches whose contact
    map is not empty, [trimState] points the contacts field of its
    argument to a new empty map and returns the argument.  The value of
    every other field is kept, and every other object of the heap, the
    old contact map among them, is what it was. *)
Theorem trim_clears_contacts {W} {E : Env W}
    (ms0 : MState W) (state : nat) (v : Snapshot) :
  has_value (heap ms0) state v ->
  snap_gameSpecIdToGameSpec v = [] ->
  snap_matchesList v = [] ->
  snap_phoneNumberToContact v <> [] ->
  exists h',
    trimState state ms0 = (Normal state, set_heap h' ms0) /\
    has_value h' state
      (mkSnapshot [] (snap_gameSpecsProps v) [] [] (snap_myUser v) (snap_stateProps v)) /\
    (forall l o, l <> state -> heap ms0 !! l = Some o -> h' !! l = Some o).
Proof.
  intros Hv Hs Hm Hc. unfold has_value in *.
  apply snapshot_shape in Hv. destruct Hv as (st & gs & a & Hsh).
  assert (Ho : orphans (snap_gameSpecIdToGameSpec v) (snap_matchesList v) = [])
    by (rewrite Hs; reflexivity).
  eexists. split; [|split].
  - rewrite (trimState_no_orphans ms0 state st gs a v Hsh Ho).
    apply (trimMatches_contacts ms0 state st gs a v Hsh Hm Hc).
  - apply snapshot_shape. eexists _, gs, a.
    pose proof (step_contacts (heap ms0) state st gs a v Hsh) as (Hs' & _).
    rewrite Hs, Hm in Hs'. exact Hs'.
  - intros l o Hne Hl. rewrite list_lookup_insert_ne by congruence.
    apply lookup_app_l_Some. exact Hl.
Qed.

(** X2.  [trimState] keeps the user and lets no collection grow: the
    game specs, the matches and the contacts of the state it returns are
    sub-lists of those of its argument, entries unchanged and in the same
    order.  The remaining fields are those of the argument as long as one
    of the first three steps applies.  In the fourth step they are the
    fields of [storeStateDefault], whatever the argument had there: the
    state returned is [{...storeStateDefault, myUser}]. *)
Theorem trim_keeps_user_and_grows_no_collection {W} {E : Env W}
    (D : Snapshot) (ms0 : MState W) (state : nat) (v : Snapshot) :
  has_value (heap ms0) state v ->
  default_ok (heap ms0) D ->
  exists state' h' v',
    trimState state ms0 = (Normal state', set_heap h' ms0) /\
    has_value h' state' v' /\
    snap_myUser v' = snap_myUser v /\
    snap_gameSpecIdToGameSpec v' `sublist_of` snap_gameSpecIdToGameSpec v /\
    snap_matchesList v' `sublist_of` snap_matchesList v /\
    snap_phoneNumberToContact v' `sublist_of` snap_phoneNumberToContact v /\
    (trims_in_place v ->
     snap_gameSpecsProps v' = snap_gameSpecsProps v /\
     snap_stateProps v' = snap_stateProps v) /\
    (~ trims_in_place v ->
     v' = default_with_user D (snap_myUser v)).
Proof.
  intros Hv HD. pose proof HD as (_ & D1 & D2 & D3).
  destruct (trimState_step ms0 state v D Hv HD) as (state' & h' & Hexec & Hv' & _).
  exists state', h', (trim_value D v). split; [exact Hexec|]. split; [exact Hv'|].
  split; [apply trim_value_myUser|].
  pose proof (trim_value_sublists D v D1 D2 D3) as (S1 & S2 & S3).
  split; [exact S1|]. split; [exact S2|]. split; [exact S3|]. split.
  - apply trim_value_other_fields.
  - apply trim_value_default.
Qed.

(** X3.  Whatever the heap holds, [trimState] calls no storage function
    and assigns to no variable of the module or of the store: it changes
    the heap only, also when it throws. *)
Theorem trimState_changes_the_heap_only {W} {E : Env W}
    (ms : MState W) (state : nat) :
  world (snd (trimState state ms)) = world ms /\
  storageLog (snd (trimState state ms)) = storageLog ms /\
  same_store ms (snd (trimState state ms)).
Proof.
  destruct (heap_only_trimState state ms) as (h & ->).
  repeat split.
Qed.


(** X5.  After [trimState] has deleted the orphaned game specs, no game
    spec of the state is orphaned: the next call goes on to the
    matches. *)
Theorem trim_leaves_no_orphans {W} {E : Env W}
    (ms0 : MState W) (state : nat) (v : Snapshot) :
  has_value (heap ms0) state v ->
  orphans (snap_gameSpecIdToGameSpec v) (snap_matchesList v) <> [] ->
  exists h' v',
    trimState state ms0 = (Normal state, set_heap h' ms0) /\
    has_value h' state v' /\
    snap_matchesList v' = snap_matchesList v /\
    orphans (snap_gameSpecIdToGameSpec v') (snap_matchesList v') = [].
Proof.
  intros Hv Hne. unfold has_value in *.
  apply snapshot_shape in Hv. destruct Hv as (st & gs & a & Hs).
  eexists _, _. split; [apply (trimState_specs ms0 state st gs a v Hs Hne)|].
  split.
  - apply snapshot_shape. exists st, gs, a.
    apply (step_specs (heap ms0) state st gs a v _ Hs).
  - split; [reflexivity|]. apply orphans_after_filter.
Qed.

(** X6.  The state that step 4 returns shares its match list with
    [storeStateDefault].  If the default state had matches, trimming
    would therefore reach into it: two calls of [trimState] from a state
    that has nothing left to trim take the oldest match out of
    [storeStateDefault] itself. *)
Theorem trim_after_default_writes_default {W} {E : Env W}
    (D : Snapshot) (ms0 : MState W) (state : nat) (v : Snapshot) :
  has_value (heap ms0) state v ->
  ~ trims_in_place v ->
  has_value (heap ms0) storeStateDefault D ->
  snap_gameSpecIdToGameSpec D = [] ->
  snap_matchesList D <> [] ->
  exists state' h',
    trimTimes 2 state ms0 = (Normal state', set_heap h' ms0) /\
    has_value h' storeStateDefault
      (mkSnapshot (snap_gameSpecIdToGameSpec D) (snap_gameSpecsProps D)
                  (delete (oldest_index (snap_matchesList D)) (snap_matchesList D))
                  (snap_phoneNumberToContact D) (snap_myUser D) (snap_stateProps D)).
Proof.
  intros Hv Hout HD HDs HDm. unfold has_value in *.
  apply snapshot_shape in Hv. destruct Hv as (st & gs & a & Hs).
  apply snapshot_shape in HD. destruct HD as (st0 & gs0 & a0 & Hs0).
  assert (Ho : orphans (snap_gameSpecIdToGameSpec v) (snap_matchesList v) = []).
  { destruct (orphans _ _) eqn:Heq; [reflexivity|].
    exfalso. apply Hout. left. rewrite Heq. discriminate. }
  assert (Hm : snap_matchesList v = []).
  { destruct (snap_matchesList v) eqn:Heq; [reflexivity|].
    exfalso. apply Hout. right. left. rewrite Heq. discriminate. }
  assert (Hc : snap_phoneNumberToContact v = []).
  { destruct (snap_phoneNumberToContact v) eqn:Heq; [reflexivity|].
    exfalso. apply Hout. right. right. rewrite Heq. discriminate. }
  pose proof (step_default (heap ms0) state st gs a v D st0 gs0 a0 Hs Hs0) as (Hs1 & Hs01).
  set (st1 := mkStoreState (gameSpecs st0) (matchesList st0) (phoneNumberToContact st0)
                           (myUser st) (stateProps st0)) in *.
  set (h1 := heap ms0 ++ [OState st1]) in *.
  assert (Hfirst : trimState state ms0 = (Normal (length (heap ms0)), set_heap h1 ms0)).
  { rewrite (trimState_no_orphans ms0 state st gs a v Hs Ho).
    apply (trimMatches_default ms0 state st gs a v st0 Hs Hm Hc). apply Hs0. }
  assert (Ho1 : orphans (snap_gameSpecIdToGameSpec (default_with_user D (snap_myUser v)))
                        (snap_matchesList (default_with_user D (snap_myUser v))) = [])
    by (cbn [default_with_user snap_gameSpecIdToGameSpec]; rewrite HDs; reflexivity).
  assert (Hsecond :
    trimState (length (heap ms0)) (set_heap h1 ms0) =
    (Normal (length (heap ms0)),
     set_heap (<[matchesList st1 :=
                   OArray (delete (oldest_index (snap_matchesList D)) a0)]> h1) ms0)).
  { rewrite (trimState_no_orphans (set_heap h1 ms0) _ st1 gs0 a0 _ Hs1 Ho1).
    apply (trimMatches_oldest (set_heap h1 ms0) _ st1 gs0 a0 _ Hs1). exact HDm. }
  eexists _, _. split.
  - cbn [trimTimes]. unfold bind. rewrite Hfirst, Hsecond. reflexivity.
  - apply snapshot_shape. exists st0, gs0, (delete (oldest_index (snap_matchesList D)) a0).
    apply (step_matches h1 storeStateDefault st0 gs0 a0 D _ Hs01).
Qed.

(** * Further properties of the listener *)

Lemma writes_of_shift {W} {E : Env W} D v i n :
  writes_of D (trim_value D v) i n = writes_of D v (S i) n.
Proof. unfold writes_of. rewrite <- seq_shift, map_map. reflexivity. Qed.

Lemma writes_of_first {W} {E : Env W} D v i n :
  writes_of D v i (S n) =
  SetItem REDUX_STATE_LOCAL_STORAGE_KEY (JSON_stringify (trimmed D i v))
    :: writes_of D v (S i) n.
Proof. reflexivity. Qed.

Section ListenMore.
Context {W : Type} {E : Env W}.

(** The retry loop writes the values trimmed once, twice, ... in this
    order and stops after a write that succeeds. *)
Lemma retryLoop_prefix D i : forall state (ms0 : MState W) v,
  has_value (heap ms0) state v ->
  default_ok (heap ms0) D ->
  exists h' w' n,
    n <= i /\
    retryLoop i state ms0 =
    (Normal tt, with_effects h' w' (storageLog ms0 ++ writes_of D v 1 n) ms0).
Proof.
  induction i as [|i IH]; intros state ms0 v Hv HD.
  - exists (heap ms0), (world ms0), 0. split; [lia|].
    unfold writes_of. simpl. rewrite app_nil_r. destruct ms0; reflexivity.
  - destruct (trimState_step ms0 state v D Hv HD)
      as (state' & h1 & Hexec & Hv1 & HD1 & _).
    cbn [retryLoop]. unfold bind at 1, attempt at 1. rewrite Hexec.
    unfold bind at 1, attempt at 1.
    rewrite (save_exec (set_heap h1 ms0) state' _ Hv1).
    cbn [heap set_heap world storageLog].
    destruct (ls_setItem REDUX_STATE_LOCAL_STORAGE_KEY
                (JSON_stringify (trim_value D v)) (world ms0)) as [[[]|e] w1];
      cbn [fst snd].
    + exists h1, w1, 1. split; [lia|]. reflexivity.
    + match goal with |- context [retryLoop i state' ?m] => set (ms1 := m) end.
      destruct (IH state' ms1 (trim_value D v) Hv1 HD1) as (h' & w' & n & Hn & Hloop).
      rewrite Hloop. exists h', w', (S n). split; [lia|]. f_equal.
      cbn [ms1 with_effects storageLog dispatched hasLocalStorage persistedOldStore
           store_state store_listeners].
      rewrite <- app_assoc, writes_of_shift, (writes_of_first D v 1 n). reflexivity.
Qed.


Lemma save_writes state (ms : MState W) :
  exists r w' rest,
    saveStateInLocalStorage state ms =
    (r, with_effects (heap ms) w' (storageLog ms ++ rest) ms) /\
    length rest <= 1 /\ Forall is_state_write rest.
Proof.
  unfold saveStateInLocalStorage, bind, stringify, liftR, localStorage_setItem.
  destruct (snapshot (heap ms) state) as [v|].
  - destruct (ls_setItem REDUX_STATE_LOCAL_STORAGE_KEY (JSON_stringify v) (world ms))
      as [r w'].
    exists r, w', [SetItem REDUX_STATE_LOCAL_STORAGE_KEY (JSON_stringify v)].
    split; [reflexivity|]. split; [simpl; lia|].
    constructor; [|constructor]. eexists. reflexivity.
  - exists (Throw TypeError), (world ms), []. rewrite app_nil_r.
    split; [destruct ms; reflexivity|]. split; [simpl; lia|constructor].
Qed.

(** ** Well-formed states stay well formed

    The writes of [trimState] replace a spec map by a spec map, an array
    by a shorter array and a state object by a state object: whatever
    states share the object written, each of them still has a value. *)

Lemma snapshot_insert_specs (h : list Obj) m d d' q v :
  h !! m = Some (OSpecMap d) ->
  snapshot h q = Some v ->
  exists v', snapshot (<[m := OSpecMap d']> h) q = Some v'.
Proof.
  intros Hm Hq. apply snapshot_shape in Hq. destruct Hq as (st & gs & a & Hs).
  pose proof Hs as (Hst & Hgs & Hd & Ha & Hms & Hc & _).
  destruct (decide (gameSpecIdToGameSpec gs = m)) as [<-|Hne].
  - eexists. apply snapshot_shape. exists st, gs, a.
    exact (proj1 (step_specs h q st gs a v d' Hs)).
  - exists v. apply snapshot_shape. exists st, gs, a.
    apply (shape_transport h); [exact Hs|..].
    + other_loc. reflexivity.
    + other_loc. reflexivity.
    + rewrite list_lookup_insert_ne by congruence. reflexivity.
    + other_loc. reflexivity.
    + other_loc. reflexivity.
    + intros l x Hl. other_loc. exact Hl.
Qed.

Lemma snapshot_insert_delete (h : list Obj) m a0 i q v :
  h !! m = Some (OArray a0) ->
  snapshot h q = Some v ->
  exists v', snapshot (<[m := OArray (delete i a0)]> h) q = Some v'.
Proof.
  intros Hm Hq. apply snapshot_shape in Hq. destruct Hq as (st & gs & a & Hs).
  pose proof Hs as (Hst & Hgs & Hd & Ha & Hms & Hc & _).
  destruct (decide (matchesList st = m)) as [<-|Hne].
  - assert (a0 = a) as -> by congruence.
    eexists. apply snapshot_shape. exists st, gs, (delete i a).
    exact (proj1 (step_matches h q st gs a v i Hs)).
  - exists v. apply snapshot_shape. exists st, gs, a.
    apply (shape_transport h); [exact Hs|..].
    + other_loc. reflexivity.
    + other_loc. reflexivity.
    + other_loc. reflexivity.
    + rewrite list_lookup_insert_ne by congruence. reflexivity.
    + other_loc. reflexivity.
    + intros l x Hl. other_loc. exact Hl.
Qed.

Lemma snapshot_new_contacts (h : list Obj) state st0 q v :
  h !! state = Some (OState st0) ->
  snapshot h q = Some v ->
  exists v',
    snapshot (<[state := OState (mkStoreState (gameSpecs st0) (matchesList st0) (length h)
                                              (myUser st0) (stateProps st0))]>
                (h ++ [OContactMap []])) q = Some v'.
Proof.
  intros Hstate Hq. apply snapshot_shape in Hq. destruct Hq as (st & gs & a & Hs).
  destruct (decide (q = state)) as [->|Hne].
  - assert (st0 = st) as -> by (destruct Hs as (Hst & _); congruence).
    eexists. apply snapshot_shape. eexists _, gs, a.
    exact (proj1 (step_contacts h state st gs a v Hs)).
  - pose proof (shape_app h [OContactMap []] _ _ _ _ _ Hs) as Hs1.
    pose proof Hs1 as (Hst & Hgs & Hd & Ha & Hms & Hc & _).
    assert (Hstate1 : (h ++ [OContactMap []]) !! state = Some (OState st0))
      by (apply lookup_app_l_Some; exact Hstate).
    exists v. apply snapshot_shape. exists st, gs, a.
    apply (shape_transport (h ++ [OContactMap []])); [exact Hs1|..].
    + rewrite list_lookup_insert_ne by congruence. reflexivity.
    + other_loc. reflexivity.
    + other_loc. reflexivity.
    + other_loc. reflexivity.
    + other_loc. reflexivity.
    + intros l x Hl. other_loc. exact Hl.
Qed.

Lemma snapshot_app (h x : list Obj) q v :
  snapshot h q = Some v -> snapshot (h ++ x) q = Some v.
Proof.
  intros Hq. apply snapshot_shape in Hq. destruct Hq as (st & gs & a & Hs).
  apply snapshot_shape. exists st, gs, a. apply shape_app. exact Hs.
Qed.

(** [trimState] on a well-formed state, whatever [storeStateDefault]
    holds: it returns a well-formed state, and every state that was well
    formed still is, [storeStateDefault] among them. *)
Lemma trimState_well_formed (ms0 : MState W) state v D :
  has_value (heap ms0) state v ->
  has_value (heap ms0) storeStateDefault D ->
  exists state' h' v',
    trimState state ms0 = (Normal state', set_heap h' ms0) /\
    has_value h' state' v' /\
    (forall q u, has_value (heap ms0) q u -> exists u', has_value h' q u').
Proof.
  intros Hv HD. unfold has_value in *.
  apply snapshot_shape in Hv. destruct Hv as (st & gs & a & Hs).
  pose proof Hs as (Hst & Hgs & Hd & Ha & Hms & Hc & _).
  destruct (orphans (snap_gameSpecIdToGameSpec v) (snap_matchesList v)) as [|k ks] eqn:Ho.
  2: { assert (Hne : orphans (snap_gameSpecIdToGameSpec v) (snap_matchesList v) <> [])
         by (rewrite Ho; discriminate).
       eexists state, _, _.
       split; [apply (trimState_specs ms0 state st gs a v Hs Hne)|]. split.
       - apply snapshot_shape. exists st, gs, a.
         exact (proj1 (step_specs (heap ms0) state st gs a v _ Hs)).
       - intros q u Hq. eapply snapshot_insert_specs; [exact Hd|exact Hq]. }
  destruct (snap_matchesList v) as [|m ms] eqn:Hmatches.
  2: { assert (Hne : snap_matchesList v <> []) by (rewrite Hmatches; discriminate).
       eexists state, _, _. split.
       { rewrite (trimState_no_orphans ms0 state st gs a v Hs)
           by (rewrite Hmatches; exact Ho).
         apply (trimMatches_oldest ms0 state st gs a v Hs Hne). }
       split.
       - apply snapshot_shape. exists st, gs, (delete (oldest_index (snap_matchesList v)) a).
         exact (proj1 (step_matches (heap ms0) state st gs a v _ Hs)).
       - intros q u Hq. eapply snapshot_insert_delete; [exact Ha|exact Hq]. }
  destruct (snap_phoneNumberToContact v) as [|c cs] eqn:Hcontacts.
  2: { assert (Hne : snap_phoneNumberToContact v <> [])
         by (rewrite Hcontacts; discriminate).
       eexists state, _, _. split.
       { rewrite (trimState_no_orphans ms0 state st gs a v Hs)
           by (rewrite Hmatches; exact Ho).
         apply (trimMatches_contacts ms0 state st gs a v Hs Hmatches Hne). }
       split.
       - apply snapshot_shape. eexists _, gs, a.
         exact (proj1 (step_contacts (heap ms0) state st gs a v Hs)).
       - intros q u Hq. eapply snapshot_new_contacts; [exact Hst|exact Hq]. }
  apply snapshot_shape in HD. destruct HD as (st0 & gs0 & a0 & Hs0).
  eexists (length (heap ms0)), _, _. split.
  { rewrite (trimState_no_orphans ms0 state st gs a v Hs) by (rewrite Hmatches; exact Ho).
    apply (trimMatches_default ms0 state st gs a v st0 Hs Hmatches Hcontacts).
    apply Hs0. }
  split.
  - apply snapshot_shape. eexists _, gs0, a0.
    exact (proj1 (step_default (heap ms0) state st gs a v D st0 gs0 a0 Hs Hs0)).
  - intros q u Hq. exists u. apply snapshot_app. exact Hq.
Qed.

(** The retry loop on a well-formed state, whatever [storeStateDefault]
    holds: every iteration trims and writes, none is cut short by an
    exception of [trimState] or of the encoder. *)
Lemma retryLoop_well_formed i : forall state (ms : MState W) v D,
  has_value (heap ms) state v ->
  has_value (heap ms) storeStateDefault D ->
  exists h' w' rest,
    retryLoop i state ms = (Normal tt, with_effects h' w' (storageLog ms ++ rest) ms) /\
    length rest <= i /\
    Forall is_state_write rest /\
    (forall e (P : W -> Prop), writes_fail e P -> P (world ms) -> length rest = i).
Proof.
  induction i as [|i IH]; intros state ms v D Hv HD.
  - exists (heap ms), (world ms), []. rewrite app_nil_r.
    split; [destruct ms; reflexivity|]. split; [simpl; lia|]. split; [constructor|].
    reflexivity.
  - destruct (trimState_well_formed ms state v D Hv HD)
      as (state' & h1 & v1 & Hexec & Hv1 & Hkeep).
    destruct (Hkeep _ _ HD) as (D1 & HD1).
    cbn [retryLoop]. unfold bind at 1, attempt at 1. rewrite Hexec.
    unfold bind at 1, attempt at 1.
    rewrite (save_exec (set_heap h1 ms) state' v1 Hv1).
    cbn [heap set_heap world storageLog].
    destruct (ls_setItem REDUX_STATE_LOCAL_STORAGE_KEY (JSON_stringify v1) (world ms))
      as [[[]|e0] w1] eqn:Hset; cbn [fst snd].
    + exists h1, w1, [SetItem REDUX_STATE_LOCAL_STORAGE_KEY (JSON_stringify v1)].
      split; [reflexivity|]. split; [simpl; lia|]. split.
      * constructor; [eexists; reflexivity|constructor].
      * intros e P Hfail HP.
        destruct (Hfail REDUX_STATE_LOCAL_STORAGE_KEY (JSON_stringify v1) (world ms) HP)
          as (w2 & Hthrow & _).
        rewrite Hset in Hthrow. discriminate.
    + match goal with |- context [retryLoop i state' ?m] => set (ms1 := m) end.
      destruct (IH state' ms1 v1 D1 Hv1 HD1) as (h' & w' & rest & Hloop & Hlen & Hall & Hex).
      rewrite Hloop.
      exists h', w', (SetItem REDUX_STATE_LOCAL_STORAGE_KEY (JSON_stringify v1) :: rest).
      split; [|split; [|split]].
      * f_equal. cbn [ms1 with_effects storageLog]. rewrite <- app_assoc. reflexivity.
      * simpl. lia.
      * constructor; [eexists; reflexivity|exact Hall].
      * intros e P Hfail HP.
        destruct (Hfail REDUX_STATE_LOCAL_STORAGE_KEY (JSON_stringify v1) (world ms) HP)
          as (w2 & Hthrow & HP2).
        rewrite Hset in Hthrow. injection Hthrow as _ <-.
        simpl. f_equal. apply (Hex e P Hfail). exact HP2.
Qed.

End ListenMore.

(** X7.  When the first write succeeds the listener is done: it has made
    that one write, of the encoded state under the key [reduxState]; it
    has made no copy and trimmed nothing, the heap is as it was. *)
Theorem listener_writes_once_on_success {W} {E : Env W}
    (ms0 : MState W) (live : nat) (v : Snapshot) (w' : W) :
  hasLocalStorage ms0 = true ->
  store_state ms0 = Some live ->
  has_value (heap ms0) live v ->
  ls_setItem REDUX_STATE_LOCAL_STORAGE_KEY (JSON_stringify v) (world ms0) = (Normal tt, w') ->
  persistListener ms0 =
  (Normal tt,
   with_effects (heap ms0) w'
     (storageLog ms0 ++ [SetItem REDUX_STATE_LOCAL_STORAGE_KEY (JSON_stringify v)]) ms0).
Proof.
  intros Hhas Hstore Hv Hset.
  unfold persistListener. rewrite Hhas.
  unfold bind at 1, store_getState. rewrite Hstore.
  unfold bind at 1, attempt at 1. rewrite (save_exec ms0 live v Hv).
  rewrite Hset. reflexivity.
Qed.

(** X8.  Whatever the storage answers, the values the listener writes are
    the state as it is, the state trimmed once, trimmed twice and so on,
    in this order and without a gap: at least one and at most 101 of
    them, and then the listener returns normally. *)
Theorem listener_writes_trimmed_values {W} {E : Env W}
    (D : Snapshot) (ms0 : MState W) (live : nat) (v : Snapshot) :
  hasLocalStorage ms0 = true ->
  store_state ms0 = Some live ->
  has_value (heap ms0) live v ->
  default_ok (heap ms0) D ->
  exists h' w' n,
    1 <= n <= 101 /\
    persistListener ms0 =
    (Normal tt, with_effects h' w' (storageLog ms0 ++ writes_of D v 0 n) ms0).
Proof.
  intros Hhas Hstore Hv HD.
  unfold persistListener. rewrite Hhas.
  unfold bind at 1, store_getState. rewrite Hstore.
  unfold bind at 1, attempt at 1. rewrite (save_exec ms0 live v Hv).
  destruct (ls_setItem REDUX_STATE_LOCAL_STORAGE_KEY (JSON_stringify v) (world ms0))
    as [[[]|e] w1]; cbn [fst snd].
  { exists (heap ms0), w1, 1. split; [lia|]. reflexivity. }
  unfold bind at 1.
  match goal with |- context [deepCopy live ?m] => set (ms1 := m) end.
  assert (Hv1 : has_value (heap ms1) live v) by exact Hv.
  destruct (deepCopy_spec ms1 live v Hv1) as (h2 & Hcopy & Hv2 & _ & Hgrow).
  rewrite Hcopy.
  assert (HD2 : default_ok (heap (set_heap h2 ms1)) D).
  { cbn [heap set_heap]. eapply default_ok_grow; [exact Hgrow|exact HD]. }
  destruct (retryLoop_prefix D 100 (length (heap ms1) + 4) (set_heap h2 ms1) v Hv2 HD2)
    as (h' & w' & n & Hn & Hloop).
  rewrite Hloop. exists h', w', (S n). split; [lia|]. f_equal.
  cbn [ms1 set_heap with_effects storageLog].
  rewrite <- app_assoc, (writes_of_first D v 0 n). reflexivity.
Qed.

(** X9.  The bound of the listener does not depend on what
    [storeStateDefault] holds.  On a well-formed state, with any
    well-formed default state, empty or not, and whatever the storage
    answers, one call of the listener returns normally after at most 101
    storage calls, each of them a write of the key [reduxState]: the
    listener never reads or removes a key, and it leaves the variables of
    the module and of the store alone.  It makes no call when the probe
    has failed; otherwise the first call writes the state as it is.
    When every write fails the calls are exactly 101: no iteration of
    the loop is cut short. *)
Theorem listener_only_writes_the_snapshot {W} {E : Env W}
    (D : Snapshot) (ms : MState W) (live : nat) (v : Snapshot) :
  store_state ms = Some live ->
  has_value (heap ms) live v ->
  has_value (heap ms) storeStateDefault D ->
  exists h' w' rest,
    persistListener ms = (Normal tt, with_effects h' w' (storageLog ms ++ rest) ms) /\
    length rest <= 101 /\
    Forall is_state_write rest /\
    (hasLocalStorage ms = false -> rest = []) /\
    (hasLocalStorage ms = true ->
     exists rest', rest = SetItem "reduxState" (JSON_stringify v) :: rest') /\
    (forall e (P : W -> Prop),
       hasLocalStorage ms = true -> writes_fail e P -> P (world ms) ->
       length rest = 101).
Proof.
  intros Hstore Hv HD.
  unfold persistListener. destruct (hasLocalStorage ms) eqn:Hhas.
  2: { exists (heap ms), (world ms), []. rewrite app_nil_r.
       split; [destruct ms; reflexivity|]. split; [simpl; lia|]. split; [constructor|].
       split; [reflexivity|]. split; intros; discriminate. }
  unfold bind at 1, store_getState. rewrite Hstore.
  unfold bind at 1, attempt at 1. rewrite (save_exec ms live v Hv).
  destruct (ls_setItem REDUX_STATE_LOCAL_STORAGE_KEY (JSON_stringify v) (world ms))
    as [[[]|e0] w1] eqn:Hset; cbn [fst snd].
  { exists (heap ms), w1, [SetItem REDUX_STATE_LOCAL_STORAGE_KEY (JSON_stringify v)].
    split; [reflexivity|]. split; [simpl; lia|]. split.
    { constructor; [eexists; reflexivity|constructor]. }
    split; [discriminate|]. split; [intros _; eexists; reflexivity|].
    intros e P _ Hfail HP.
    destruct (Hfail REDUX_STATE_LOCAL_STORAGE_KEY (JSON_stringify v) (world ms) HP)
      as (w2 & Hthrow & _).
    rewrite Hset in Hthrow. discriminate. }
  unfold bind at 1.
  match goal with |- context [deepCopy live ?m] => set (ms1 := m) end.
  assert (Hv1 : has_value (heap ms1) live v) by exact Hv.
  destruct (deepCopy_spec ms1 live v Hv1) as (h2 & Hcopy & Hv2 & _ & Hgrow).
  rewrite Hcopy.
  assert (HD2 : has_value (heap (set_heap h2 ms1)) storeStateDefault D).
  { cbn [heap set_heap]. eapply has_value_grow; [exact Hgrow|exact HD]. }
  destruct (retryLoop_well_formed 100 (length (heap ms1) + 4) (set_heap h2 ms1) v D Hv2 HD2)
    as (h' & w' & rest & Hloop & Hlen & Hall & Hex).
  rewrite Hloop.
  exists h', w', (SetItem REDUX_STATE_LOCAL_STORAGE_KEY (JSON_stringify v) :: rest).
  split; [|split; [|split; [|split; [|split]]]].
  - f_equal. cbn [ms1 set_heap with_effects storageLog]. rewrite <- app_assoc. reflexivity.
  - simpl. lia.
  - constructor; [eexists; reflexivity|exact Hall].
  - discriminate.
  - intros _. eexists. reflexivity.
  - intros e P _ Hfail HP.
    destruct (Hfail REDUX_STATE_LOCAL_STORAGE_KEY (JSON_stringify v) (world ms) HP)
      as (w2 & Hthrow & HP2).
    rewrite Hset in Hthrow. injection Hthrow as _ <-.
    simpl. f_equal. apply (Hex e P Hfail). exact HP2.
Qed.

(** * Further properties of start-up *)

Section StartMore.
Context {W : Type} {E : Env W}.

Lemma probe_exec (ms : MState W) :
  exists b w' rest,
    checkIfLocalStorageWorks ms =
    (Normal b, with_effects (heap ms) w' (storageLog ms ++ rest) ms) /\
    length rest <= 2 /\
    Forall is_probe_call rest /\
    (b = true ->
     rest = [SetItem "testLocalStorage" "someTestValue"; RemoveItem "testLocalStorage"]) /\
    (window_defined && negb localStorage_in_window = true -> b = false /\ rest = []).
Proof.
  unfold checkIfLocalStorageWorks.
  destruct (window_defined && negb localStorage_in_window).
  { exists false, (world ms), []. rewrite app_nil_r.
    split; [destruct ms; reflexivity|]. split; [simpl; lia|]. split; [constructor|].
    split; [discriminate|auto]. }
  unfold bind at 1, attempt, bind, localStorage_setItem, localStorage_removeItem.
  destruct (ls_setItem "testLocalStorage" "someTestValue" (world ms)) as [[[]|e] w1].
  - cbn [world set_storage].
    destruct (ls_removeItem "testLocalStorage" w1) as [[[]|e] w2].
    + exists true, w2, [SetItem "testLocalStorage" "someTestValue";
                        RemoveItem "testLocalStorage"].
      split; [unfold ret, set_storage, with_effects; cbn; rewrite <- app_assoc; reflexivity|].
      split; [simpl; lia|]. split.
      * constructor; [left; reflexivity|]. constructor; [right; reflexivity|constructor].
      * split; [reflexivity|discriminate].
    + exists false, w2, [SetItem "testLocalStorage" "someTestValue";
                         RemoveItem "testLocalStorage"].
      split; [unfold ret, set_storage, with_effects; cbn; rewrite <- app_assoc; reflexivity|].
      split; [simpl; lia|]. split.
      * constructor; [left; reflexivity|]. constructor; [right; reflexivity|constructor].
      * split; discriminate.
  - exists false, w1, [SetItem "testLocalStorage" "someTestValue"].
    split; [reflexivity|]. split; [simpl; lia|]. split.
    + constructor; [left; reflexivity|constructor].
    + split; discriminate.
Qed.

Lemma restore_exec (ms : MState W) :
  exists r w' rest,
    restoreOldState ms = (r, with_effects (heap ms) w' (storageLog ms ++ rest) ms) /\
    (rest = [] \/ rest = [GetItem "reduxState"]) /\
    (hasLocalStorage ms = false -> r = Normal None /\ rest = [] /\ w' = world ms).
Proof.
  unfold restoreOldState. destruct (hasLocalStorage ms).
  2: { exists (Normal None), (world ms), []. rewrite app_nil_r.
       split; [destruct ms; reflexivity|]. split; [left; reflexivity|auto]. }
  unfold bind, localStorage_getItem.
  destruct (ls_getItem REDUX_STATE_LOCAL_STORAGE_KEY (world ms)) as [[o|e] w1].
  - assert (Hex : exists r,
              match o with
              | Some str =>
                  if truthy str
                  then match JSON_parse str with
                       | Some v => ret (Some v)
                       | None => throw SyntaxError
                       end
                  else ret None
              | None => ret None
              end (set_storage w1 (GetItem REDUX_STATE_LOCAL_STORAGE_KEY) ms)
              = (r, set_storage w1 (GetItem REDUX_STATE_LOCAL_STORAGE_KEY) ms)).
    { destruct o as [str|]; [|eexists; reflexivity].
      destruct (truthy str); [|eexists; reflexivity].
      destruct (JSON_parse str); eexists; reflexivity. }
    destruct Hex as (r & Hr). rewrite Hr.
    exists r, w1, [GetItem "reduxState"].
    split; [reflexivity|]. split; [right; reflexivity|discriminate].
  - exists (Throw e), w1, [GetItem "reduxState"].
    split; [reflexivity|]. split; [right; reflexivity|discriminate].
Qed.

End StartMore.

(** X10.  The probe never throws, and its answer is the outcome of its
    two calls: it answers [true] exactly when [localStorage] is there,
    the write of the test value succeeded, and the removal that followed,
    on the storage as the write left it, succeeded as well.  When the
    write throws, the removal is not attempted.  When there is a window
    without [localStorage] no call is made.  The calls, two at most, are
    on the key [testLocalStorage]; the heap is not touched. *)
Theorem probe_never_throws {W} {E : Env W} (ms : MState W) :
  exists b w' rest,
    checkIfLocalStorageWorks ms =
    (Normal b, with_effects (heap ms) w' (storageLog ms ++ rest) ms) /\
    length rest <= 2 /\
    Forall is_probe_call rest /\
    (b = true <->
     window_defined && negb localStorage_in_window = false /\
     exists w1,
       ls_setItem "testLocalStorage" "someTestValue" (world ms) = (Normal tt, w1) /\
       ls_removeItem "testLocalStorage" w1 = (Normal tt, w')) /\
    (b = true ->
     rest = [SetItem "testLocalStorage" "someTestValue"; RemoveItem "testLocalStorage"]) /\
    (window_defined && negb localStorage_in_window = true ->
     b = false /\ rest = [] /\ w' = world ms) /\
    (forall e w1,
       window_defined && negb localStorage_in_window = false ->
       ls_setItem "testLocalStorage" "someTestValue" (world ms) = (Throw e, w1) ->
       b = false /\ rest = [SetItem "testLocalStorage" "someTestValue"] /\ w' = w1) /\
    (forall e w1 w2,
       window_defined && negb localStorage_in_window = false ->
       ls_setItem "testLocalStorage" "someTestValue" (world ms) = (Normal tt, w1) ->
       ls_removeItem "testLocalStorage" w1 = (Throw e, w2) ->
       b = false /\ w' = w2 /\
       rest = [SetItem "testLocalStorage" "someTestValue"; RemoveItem "testLocalStorage"]).
Proof.
  unfold checkIfLocalStorageWorks.
  destruct (window_defined && negb localStorage_in_window) eqn:Hwin.
  { exists false, (world ms), []. rewrite app_nil_r.
    split; [destruct ms; reflexivity|]. split; [simpl; lia|]. split; [constructor|].
    split; [split; [discriminate|intros (Hc & _); discriminate]|].
    split; [discriminate|]. split; [auto|]. split; intros; discriminate. }
  unfold bind at 1, attempt, bind, localStorage_setItem, localStorage_removeItem.
  destruct (ls_setItem "testLocalStorage" "someTestValue" (world ms)) as [[[]|e] w1]
    eqn:Hset.
  - cbn [world set_storage].
    destruct (ls_removeItem "testLocalStorage" w1) as [[[]|e] w2] eqn:Hrem.
    + exists true, w2, [SetItem "testLocalStorage" "someTestValue";
                        RemoveItem "testLocalStorage"].
      split; [unfold ret, set_storage, with_effects; cbn; rewrite <- app_assoc; reflexivity|].
      split; [simpl; lia|]. split.
      { constructor; [left; reflexivity|]. constructor; [right; reflexivity|constructor]. }
      split.
      { split; [|reflexivity]. intros _. split; [reflexivity|].
        exists w1. split; [reflexivity|exact Hrem]. }
      split; [reflexivity|]. split; [discriminate|]. split.
      * intros e w3 _ Hc. discriminate.
      * intros e w3 w4 _ Hc Hc'. injection Hc as <-. rewrite Hrem in Hc'. discriminate.
    + exists false, w2, [SetItem "testLocalStorage" "someTestValue";
                         RemoveItem "testLocalStorage"].
      split; [unfold ret, set_storage, with_effects; cbn; rewrite <- app_assoc; reflexivity|].
      split; [simpl; lia|]. split.
      { constructor; [left; reflexivity|]. constructor; [right; reflexivity|constructor]. }
      split.
      { split; [discriminate|]. intros (_ & w3 & Hc & Hc').
        injection Hc as <-. rewrite Hrem in Hc'. discriminate. }
      split; [discriminate|]. split; [discriminate|]. split.
      * intros e' w3 _ Hc. discriminate.
      * intros e' w3 w4 _ Hc Hc'. injection Hc as <-. rewrite Hrem in Hc'.
        injection Hc' as _ <-. auto.
  - exists false, w1, [SetItem "testLocalStorage" "someTestValue"].
    split; [reflexivity|]. split; [simpl; lia|]. split.
    { constructor; [left; reflexivity|constructor]. }
    split.
    { split; [discriminate|]. intros (_ & w3 & Hc & _). discriminate. }
    split; [discriminate|]. split; [discriminate|]. split.
    + intros e' w3 _ Hc. injection Hc as _ <-. auto.
    + intros e' w3 w4 _ Hc. discriminate.
Qed.

(** X11.  [restoreOldState] never writes to the storage and never removes
    a key: it makes at most one storage call, a read of the key
    [reduxState], and when the probe has failed it makes none and returns
    [undefined].  The heap is as it was. *)
Theorem restoreOldState_only_reads {W} {E : Env W} (ms : MState W) :
  exists r w' rest,
    restoreOldState ms = (r, with_effects (heap ms) w' (storageLog ms ++ rest) ms) /\
    (rest = [] \/ rest = [GetItem "reduxState"]) /\
    (hasLocalStorage ms = false -> r = Normal None /\ rest = [] /\ w' = world ms).
Proof. apply restore_exec. Qed.

(** X12.  When the top level of the module completes, the first state of
    the store is what the reducer makes of [undefined], whether or not a
    snapshot was restored; exactly one listener has been subscribed, no
    action has been logged, and none of the at most three storage calls
    was a write of the snapshot. *)
Theorem startup_state_comes_from_reducer {W} {E : Env W} (ms0 ms1 : MState W) :
  module_init ms0 = (Normal tt, ms1) ->
  store_state ms1 =
    Some (fst (reducer None [("type", JStr "@@redux/INIT")] (heap ms0))) /\
  heap ms1 = snd (reducer None [("type", JStr "@@redux/INIT")] (heap ms0)) /\
  store_listeners ms1 = store_listeners ms0 ++ [PersistListener] /\
  dispatched ms1 = dispatched ms0 /\
  exists rest,
    storageLog ms1 = storageLog ms0 ++ rest /\
    length rest <= 3 /\
    Forall (fun c => ~ is_state_write c) rest.
Proof.
  intros Hinit.
  destruct (probe_exec ms0) as (b & wA & restA & HA & HlenA & HallA & _).
  unfold module_init, bind at 1 in Hinit. rewrite HA in Hinit.
  unfold bind at 1 in Hinit. unfold bind at 1 in Hinit.
  match type of Hinit with
  | context [restoreOldState ?m] =>
      destruct (restore_exec m) as (r & wB & restB & HB & HrestB & _); rewrite HB in Hinit
  end.
  destruct r as [old|e]; [|discriminate].
  unfold bind at 1 in Hinit. unfold bind at 1, createStore in Hinit.
  cbn [heap with_effects set_persistedOldStore set_hasLocalStorage] in Hinit.
  destruct (reducer None [("type", JStr "@@redux/INIT")] (heap ms0)) as [s h].
  unfold persistNewState, store_subscribe in Hinit. injection Hinit as <-.
  cbn. rewrite app_nil_r. repeat split.
  exists (restA ++ restB). split; [rewrite app_assoc; reflexivity|]. split.
  - rewrite length_app. destruct HrestB as [->| ->]; simpl; lia.
  - apply Forall_app. split.
    + eapply Forall_impl; [exact HallA|].
      intros c [-> | ->] (value & Hc); discriminate.
    + destruct HrestB as [->| ->]; [constructor|].
      constructor; [|constructor]. intros (value & Hc). discriminate.
Qed.

(** * Further properties of [dispatch] *)

Section DispatchMore.
Context {W : Type} {E : Env W}.

Lemma deepCopy_others_kept state (ms : MState W) :
  others_kept (heap ms) (heap (snd (deepCopy state ms))).
Proof.
  unfold deepCopy. destruct (snapshot (heap ms) state).
  - cbn [snd heap set_heap]. apply others_kept_app.
  - apply others_kept_refl.
Qed.

Lemma retryLoop_others_kept i : forall state (ms : MState W),
  others_kept (heap ms) (heap (snd (retryLoop i state ms))).
Proof.
  induction i as [|i IH]; intros state ms; [apply others_kept_refl|].
  cbn [retryLoop]. unfold bind at 1, attempt at 1.
  pose proof (trimState_others_kept state ms) as Htrim.
  destruct (trimState state ms) as [[state'|e] ms1]; cbn [snd] in Htrim.
  - unfold bind at 1, attempt at 1.
    destruct (save_writes state' ms1) as (r & w1 & rest1 & Hsave & _).
    rewrite Hsave. destruct r as [[]|e].
    + exact Htrim.
    + eapply others_kept_trans; [exact Htrim|].
      match goal with |- context [retryLoop i state' ?m] => exact (IH state' m) end.
  - eapply others_kept_trans; [exact Htrim|]. apply IH.
Qed.

Lemma listener_others_kept (ms : MState W) :
  others_kept (heap ms) (heap (snd (persistListener ms))).
Proof.
  unfold persistListener. destruct (hasLocalStorage ms); [|apply others_kept_refl].
  unfold bind at 1, store_getState.
  destruct (store_state ms) as [live|]; [|apply others_kept_refl].
  unfold bind at 1, attempt at 1.
  destruct (save_writes live ms) as (r & w1 & rest1 & Hsave & _).
  rewrite Hsave. destruct r as [[]|e]; [apply others_kept_refl|].
  unfold bind at 1.
  match goal with |- context [deepCopy live ?m] =>
    pose proof (deepCopy_others_kept live m) as Hcopy;
    destruct (deepCopy live m) as [[copy|e'] ms2]
  end; cbn [snd heap with_effects] in Hcopy.
  - eapply others_kept_trans; [exact Hcopy|]. apply retryLoop_others_kept.
  - exact Hcopy.
Qed.

Lemma runListeners_others_kept ls : forall (ms : MState W),
  others_kept (heap ms) (heap (snd (runListeners ls ms))).
Proof.
  induction ls as [|[] ls IH]; intros ms; [apply others_kept_refl|].
  cbn [runListeners runListener]. unfold bind.
  pose proof (listener_others_kept ms) as Hl.
  destruct (persistListener ms) as [[[]|e] ms1]; cbn [snd] in *.
  - eapply others_kept_trans; [exact Hl|]. apply IH.
  - exact Hl.
Qed.

(** [dispatch] on an action with one key, step by step. *)
Lemma dispatch_single_exec (ms : MState W) action k p :
  heap ms !! action = Some (OAction [(k, p)]) ->
  let a' := set_prop "type" (JStr k) [(k, p)] in
  let h1 := <[action := OAction a']> (heap ms) in
  dispatch action ms =
  runListeners (store_listeners ms)
    (set_store (snd (reducer (store_state ms) a' h1))
               (Some (fst (reducer (store_state ms) a' h1))) [a'] ms).
Proof.
  intros Ha a' h1.
  unfold dispatch, bind at 1, liftR, readAction. rewrite Ha.
  cbn [Object_keys map length Nat.eqb checkCondition hd fst].
  unfold bind at 1, ret at 1. unfold bind at 1, setObj.
  unfold store_dispatch, bind at 1, liftR, readAction.
  cbn [heap set_heap].
  rewrite list_lookup_insert_eq by (eapply lookup_lt_Some; exact Ha).
  fold a'. unfold a' at 1. rewrite get_prop_set_prop.
  unfold bind. cbn [store_state set_heap heap]. fold a' h1.
  destruct (reducer (store_state ms) a' h1) as [s h]. reflexivity.
Qed.

Lemma listener_success_exec (ms0 : MState W) live v w' :
  hasLocalStorage ms0 = true ->
  store_state ms0 = Some live ->
  has_value (heap ms0) live v ->
  ls_setItem REDUX_STATE_LOCAL_STORAGE_KEY (JSON_stringify v) (world ms0) = (Normal tt, w') ->
  persistListener ms0 =
  (Normal tt,
   with_effects (heap ms0) w'
     (storageLog ms0 ++ [SetItem REDUX_STATE_LOCAL_STORAGE_KEY (JSON_stringify v)]) ms0).
Proof.
  intros Hhas Hstore Hv Hset.
  unfold persistListener. rewrite Hhas.
  unfold bind at 1, store_getState. rewrite Hstore.
  unfold bind at 1, attempt at 1. rewrite (save_exec ms0 live v Hv).
  rewrite Hset. reflexivity.
Qed.

End DispatchMore.

(** X13.  [dispatch] writes [type] into the action object it is given.
    An action object that has been dispatched therefore has two keys, and
    a second [dispatch] of the same object throws without reaching the
    store, provided the reducer leaves the object alone and its key was
    not [type] itself. *)
Theorem dispatch_twice_throws {W} {E : Env W}
    (ms0 : MState W) (action : nat) (k : string) (p : json) :
  heap ms0 !! action = Some (OAction [(k, p)]) ->
  k <> "type" ->
  (forall s a h o, h !! action = Some (OAction o) ->
                   snd (reducer s a h) !! action = Some (OAction o)) ->
  let ms1 := snd (dispatch action ms0) in
  heap ms1 !! action = Some (OAction [(k, p); ("type", JStr k)]) /\
  dispatch action ms1 = (Throw (Error "actionType"), ms1).
Proof.
  intros Ha Hk Hred ms1.
  assert (Hobj : heap ms1 !! action = Some (OAction [(k, p); ("type", JStr k)])).
  { unfold ms1. rewrite (dispatch_single_exec ms0 action k p Ha).
    apply runListeners_others_kept; [|reflexivity].
    cbn [heap set_store]. 
    assert (Hset : set_prop "type" (JStr k) [(k, p)] = [(k, p); ("type", JStr k)]).
    { cbn [set_prop]. destruct (String.eqb k "type") eqn:Heq; [|reflexivity].
      apply String.eqb_eq in Heq. contradiction. }
    rewrite Hset. apply Hred.
    apply list_lookup_insert_eq. eapply lookup_lt_Some. exact Ha. }
  split; [exact Hobj|].
  unfold dispatch, bind, liftR, readAction. rewrite Hobj. reflexivity.
Qed.

(** X14.  A dispatch saves the state that the reducer returns: with the
    listener of the module subscribed and a storage that accepts the
    write, [dispatch] of an action with one key returns normally after
    one storage call, the write of the encoded new state, and the store
    holds the new state. *)
Theorem dispatch_saves_the_new_state {W} {E : Env W}
    (ms0 : MState W) (action : nat) (k : string) (p : json)
    (s' : nat) (h' : list Obj) (v' : Snapshot) (w' : W) :
  heap ms0 !! action = Some (OAction [(k, p)]) ->
  hasLocalStorage ms0 = true ->
  store_listeners ms0 = [PersistListener] ->
  reducer (store_state ms0) (set_prop "type" (JStr k) [(k, p)])
          (<[action := OAction (set_prop "type" (JStr k) [(k, p)])]> (heap ms0))
    = (s', h') ->
  has_value h' s' v' ->
  ls_setItem REDUX_STATE_LOCAL_STORAGE_KEY (JSON_stringify v') (world ms0) = (Normal tt, w') ->
  dispatch action ms0 =
  (Normal tt,
   with_effects h' w'
     (storageLog ms0 ++ [SetItem REDUX_STATE_LOCAL_STORAGE_KEY (JSON_stringify v')])
     (set_store h' (Some s') [set_prop "type" (JStr k) [(k, p)]] ms0)).
Proof.
  intros Ha Hhas Hls Hred Hv Hset.
  rewrite (dispatch_single_exec ms0 action k p Ha). cbv zeta. rewrite Hred.
  cbn [fst snd]. rewrite Hls. cbn [runListeners runListener]. unfold bind.
  rewrite (listener_success_exec _ s' v' w'); try assumption; reflexivity.
Qed.

(** * The resize handler *)

Section ResizeMore.
Context {W : Type} {E : Env W}.

Lemma setDimensions_same (ms : MState W) s st o w h :
  store_state ms = Some s ->
  heap ms !! s = Some (OState st) ->
  get_prop "windowDimensions" (stateProps st) = Some (JObj o) ->
  get_prop "windowWidth" o = Some (JNum w) ->
  get_prop "windowHeight" o = Some (JNum h) ->
  setDimensions w h ms = (Normal tt, ms).
Proof.
  intros Hs Hst Hwd Hw Hh.
  unfold setDimensions, bind, store_getState, getState, liftR, readState.
  rewrite Hs, Hst, Hwd. unfold same_dimensions. rewrite Hw, Hh, !Z.eqb_refl.
  reflexivity.
Qed.


Lemma window_step_inv ev (r : Resizer W) :
  throttle_inv r -> throttle_inv (window_step ev r).
Proof.
  unfold throttle_inv. intros Hinv. destruct ev as [w h|w h]; cbn [window_step].
  - unfold handleResize. destruct (isThrottled r) eqn:Ht; cbn [snd]; [rewrite Ht; exact Hinv|].
    destruct (setDimensions w h (machine r)) as [[[]|e] ms]; cbn; lia.
  - destruct (pendingTimers r) as [|n] eqn:Hp; [rewrite Hp; exact Hinv|].
    unfold callback. cbn [machine].
    destruct (setDimensions w h (machine r)) as [res ms]. cbn.
    destruct (isThrottled r); lia.
Qed.

Lemma throttled_resizes_ignored (sizes : list (Z * Z)) (r : Resizer W) :
  isThrottled r = true ->
  window_run (map (fun s => ResizeEvent (fst s) (snd s)) sizes) r = r.
Proof.
  intros Ht. induction sizes as [|[w h] sizes IH]; [reflexivity|].
  cbn [map window_run window_step fst snd]. unfold handleResize. rewrite Ht.
  exact IH.
Qed.

Lemma window_run_app evs1 evs2 (r : Resizer W) :
  window_run (evs1 ++ evs2) r = window_run evs2 (window_run evs1 r).
Proof. revert r. induction evs1 as [|ev evs1 IH]; intros r; [reflexivity|]. apply IH. Qed.

End ResizeMore.

(** X15.  A resize that reports the size the state already has dispatches
    nothing and leaves the machine as it is, but it starts the throttle
    all the same: [isThrottled] is set and a timer is pending. *)
Theorem resize_to_same_size {W} {E : Env W}
    (r : Resizer W) (s : nat) (st : StoreState) (o : props) (w h : Z) :
  isThrottled r = false ->
  store_state (machine r) = Some s ->
  heap (machine r) !! s = Some (OState st) ->
  get_prop "windowDimensions" (stateProps st) = Some (JObj o) ->
  get_prop "windowWidth" o = Some (JNum w) ->
  get_prop "windowHeight" o = Some (JNum h) ->
  handleResize w h r = (Normal tt, mkResizer (machine r) true (S (pendingTimers r))).
Proof.
  intros Ht Hs Hst Hwd Hw Hh. unfold handleResize. rewrite Ht.
  rewrite (setDimensions_same (machine r) s st o w h Hs Hst Hwd Hw Hh). reflexivity.
Qed.


(** X17.  Whatever events arrive and whatever [setDimensions] does, also
    when it throws, [isThrottled] is set exactly when a timer is
    pending, and never more than one timer is pending. *)
Theorem one_timer_at_most {W} {E : Env W} (evs : list WindowEvent) (r : Resizer W) :
  throttle_inv r ->
  throttle_inv (window_run evs r) /\ pendingTimers (window_run evs r) <= 1.
Proof.
  intros Hinv.
  assert (H : throttle_inv (window_run evs r)).
  { revert r Hinv. induction evs as [|ev evs IH]; intros r Hinv; [exact Hinv|].
    cbn [window_run]. apply IH. apply window_step_inv. exact Hinv. }
  split; [exact H|]. unfold throttle_inv in H.
  destruct (isThrottled (window_run evs r)); lia.
Qed.

(** X18.  Leading and trailing update.  After a resize that went through,
    the resizes that arrive before the timer expires have no effect at
    all; when the timer expires [setDimensions] runs once more, with the
    size the window has then, and the throttle is open again. *)
Theorem resizes_are_throttled {W} {E : Env W}
    (r : Resizer W) (w h w' h' : Z) (sizes : list (Z * Z)) :
  isThrottled r = false ->
  pendingTimers r = 0 ->
  fst (setDimensions w h (machine r)) = Normal tt ->
  window_run (ResizeEvent w h ::
              map (fun s => ResizeEvent (fst s) (snd s)) sizes ++
              [TimerExpires w' h']) r =
  mkResizer (snd (setDimensions w' h' (snd (setDimensions w h (machine r))))) false 0.
Proof.
  intros Ht Hp Hok.
  cbn [window_run window_step]. unfold handleResize at 1. rewrite Ht, Hp.
  destruct (setDimensions w h (machine r)) as [res ms1] eqn:H1.
  cbn [fst] in Hok. subst res. cbn [snd].
  rewrite window_run_app, throttled_resizes_ignored by reflexivity.
  cbn [window_run window_step pendingTimers machine isThrottled]. unfold callback.
  cbn [machine pendingTimers].
  destruct (setDimensions w' h' ms1) as [res ms2]. reflexivity.
Qed.

(** * The module at work on concrete machines *)

Import Demo.

Section Examples.

(** The state takes 192 characters.  With room for 180 the listener
    trims the copy once and the second write succeeds; with room for 60
    not even the default state fits, and the loop runs to its end. *)
Example listener_small_storage :
  length (storageLog (snd (persistListener (running heap_specs small)))) = 101.
Proof. vm_compute. reflexivity. Qed.

Example listener_trims_once :
  storageLog (snd (persistListener (running heap_specs (mkStorage [] 180 None)))) =
  [SetItem "reduxState" (stringify value_specs);
   SetItem "reduxState" (stringify (trim_value value_default value_specs))].
Proof. vm_compute. reflexivity. Qed.

(** Three game specs, one in use: the other two go, the match stays. *)
Example trim_three_specs :
  snapshot (heap (snd (trimState 5 (running heap_specs empty_storage)))) 5 =
  Some (mkSnapshot [("chess", JNum 1)] [] [mkMatch "chess" 300 []]
                   [("+1", JStr "bob")] (JStr "me") [("audioMute", JBool true)]).
Proof. vm_compute. reflexivity. Qed.

(** No game specs, matches of 100 and 200: the one of 100 goes. *)
Example trim_two_matches :
  snapshot (heap (snd (trimState 5 (running heap_matches empty_storage)))) 5 =
  Some (mkSnapshot [] [] [mkMatch "go" 200 []] [] (JStr "me") []).
Proof. vm_compute. reflexivity. Qed.

(** Four steps on the state with three game specs: two specs go, the
    match goes, the third spec goes, the contacts go; the user and the
    other fields are still those of the state. *)
Example trim_four_steps :
  let r := trimTimes 4 5 (running heap_specs empty_storage) in
  fst r = Normal 5 /\
  snapshot (heap (snd r)) 5 =
  Some (mkSnapshot [] [] [] [] (JStr "me") [("audioMute", JBool true)]).
Proof. vm_compute. split; reflexivity. Qed.

End Examples.

Lemma persist_abandons_witness :
  exists h' w' rest,
    persistListener (Demo.running Demo.heap_specs Demo.private_mode) =
    (Normal tt,
     with_effects h' w'
       ([] ++ SetItem REDUX_STATE_LOCAL_STORAGE_KEY (JSON_stringify Demo.value_specs)
           :: rest)
       (Demo.running Demo.heap_specs Demo.private_mode)) /\
    length rest <= 100 /\
    (forall D, default_ok Demo.heap_specs D ->
               rest = writes_of D Demo.value_specs 1 100 /\ length rest = 100).
Proof.
  apply (persist_abandons_after_100_trims
           (fun w => w = Demo.private_mode)
           (Demo.running Demo.heap_specs Demo.private_mode) 5 Demo.value_specs).
  - reflexivity.
  - reflexivity.
  - vm_compute. reflexivity.
  - intros k s w ->. exists Demo.private_mode. split; reflexivity.
  - reflexivity.
Defined.

Lemma recovery_leaves_live_state_witness :
  exists ms',
    persistListener (Demo.running Demo.heap_specs Demo.small) = (Normal tt, ms') /\
    (forall l o, Demo.heap_specs !! l = Some o -> heap ms' !! l = Some o) /\
    store_state ms' = Some 5 /\
    has_value (heap ms') 5 Demo.value_specs.
Proof.
  apply (recovery_leaves_live_state Demo.value_default
           (Demo.running Demo.heap_specs Demo.small) 5 Demo.value_specs).
  - reflexivity.
  - vm_compute. reflexivity.
  - repeat split.
Defined.

(** The claim C4 fails on a storage that throws [SecurityError]: the
    listener does not stop after the failed write; it goes on to make a
    copy of the state (the heap grows) and 100 more writes, the first of
    them of the trimmed value. *)
Lemma unavailable_storage_is_retried :
  let ms := Demo.running Demo.heap_specs Demo.unavailable in
  fst (ls_setItem REDUX_STATE_LOCAL_STORAGE_KEY (JSON_stringify Demo.value_specs)
         (world ms)) = Throw SecurityError /\
  fst (persistListener ms) = Normal tt /\
  length (storageLog (snd (persistListener ms))) = 101 /\
  storageLog (snd (persistListener ms)) !! 1 =
    Some (SetItem REDUX_STATE_LOCAL_STORAGE_KEY
            (JSON_stringify (trim_value Demo.value_default Demo.value_specs))) /\
  length (heap ms) < length (heap (snd (persistListener ms))).
Proof. vm_compute. repeat split. lia. Qed.

Lemma any_write_error_is_retried_witness :
  exists h' w' rest,
    persistListener (Demo.running Demo.heap_specs Demo.unavailable) =
    (Normal tt,
     with_effects h' w'
       ([] ++
        SetItem REDUX_STATE_LOCAL_STORAGE_KEY (JSON_stringify Demo.value_specs) ::
        SetItem REDUX_STATE_LOCAL_STORAGE_KEY
          (JSON_stringify (trim_value Demo.value_default Demo.value_specs)) :: rest)
       (Demo.running Demo.heap_specs Demo.unavailable)) /\
    length rest <= 99 /\
    length Demo.heap_specs + 5 + 1 <= length h' /\
    (forall l o, Demo.heap_specs !! l = Some o -> h' !! l = Some o) /\
    has_value h' 5 Demo.value_specs /\
    (forall P : Demo.Storage -> Prop,
       writes_fail SecurityError P -> P Demo.unavailable ->
       SetItem REDUX_STATE_LOCAL_STORAGE_KEY
         (JSON_stringify (trim_value Demo.value_default Demo.value_specs)) :: rest
       = writes_of Demo.value_default Demo.value_specs 1 100).
Proof.
  apply (any_write_error_is_retried Demo.value_default SecurityError
           (Demo.running Demo.heap_specs Demo.unavailable) 5 Demo.value_specs).
  - reflexivity.
  - reflexivity.
  - vm_compute. reflexivity.
  - repeat split.
  - reflexivity.
Defined.

Lemma trim_deletes_all_orphaned_specs_witness :
  exists h',
    trimState 5 (Demo.running Demo.heap_specs Demo.empty_storage) =
    (Normal 5, set_heap h' (Demo.running Demo.heap_specs Demo.empty_storage)) /\
    has_value h' 5
      (mkSnapshot [("chess", JNum 1)] [] [mkMatch "chess" 300 []]
                  [("+1", JStr "bob")] (JStr "me") [("audioMute", JBool true)]).
Proof.
  apply (trim_deletes_all_orphaned_specs
           (Demo.running Demo.heap_specs Demo.empty_storage) 5 Demo.value_specs).
  - vm_compute. reflexivity.
  - vm_compute. discriminate.
Defined.

Lemma trim_removes_oldest_match_witness :
  exists i h',
    first_oldest [mkMatch "chess" 100 []; mkMatch "go" 200 []] i /\
    trimState 5 (Demo.running Demo.heap_matches Demo.empty_storage) =
    (Normal 5, set_heap h' (Demo.running Demo.heap_matches Demo.empty_storage)) /\
    has_value h' 5
      (mkSnapshot [] [] (delete i [mkMatch "chess" 100 []; mkMatch "go" 200 []])
                  [] (JStr "me") []).
Proof.
  apply (trim_removes_oldest_match
           (Demo.running Demo.heap_matches Demo.empty_storage) 5 Demo.value_matches).
  - vm_compute. reflexivity.
  - reflexivity.
  - discriminate.
Defined.

Lemma trim_reaches_default_with_user_witness :
  exists state' h',
    trimTimes 6 5 (Demo.running Demo.heap_specs Demo.empty_storage) =
    (Normal state', set_heap h' (Demo.running Demo.heap_specs Demo.empty_storage)) /\
    has_value h' state' (default_with_user Demo.value_default (JStr "me")) /\
    exists state'' h'',
      trimState state' (set_heap h' (Demo.running Demo.heap_specs Demo.empty_storage)) =
      (Normal state'', set_heap h'' (Demo.running Demo.heap_specs Demo.empty_storage)) /\
      has_value h'' state'' (default_with_user Demo.value_default (JStr "me")).
Proof.
  apply (trim_reaches_default_with_user Demo.value_default
           (Demo.running Demo.heap_specs Demo.empty_storage) 5 Demo.value_specs 6).
  - vm_compute. reflexivity.
  - repeat split.
  - simpl. lia.
Defined.



Lemma dispatch_requires_one_key_witness :
  (dispatch 11 (Demo.running Demo.heap_odd_actions Demo.empty_storage) =
   (Throw (Error "actionType"), Demo.running Demo.heap_odd_actions Demo.empty_storage)) /\
  (dispatch 12 (Demo.running Demo.heap_actions Demo.empty_storage) =
   (Throw (Error "actionType"), Demo.running Demo.heap_actions Demo.empty_storage)) /\
  (exists r ms',
     dispatch 11 (Demo.running Demo.heap_actions Demo.empty_storage) = (r, ms') /\
     dispatched ms' =
       [] ++ [[("setAudioMute", JBool true); ("type", JStr "setAudioMute")]]) /\
  (exists r ms',
     dispatch 12 (Demo.running Demo.heap_odd_actions Demo.empty_storage) = (r, ms') /\
     dispatched ms' = [] ++ [[("type", JStr "type")]]).
Proof.
  assert (H0 : heap (Demo.running Demo.heap_odd_actions Demo.empty_storage) !! 11
               = Some (OAction [])) by reflexivity.
  assert (H2 : heap (Demo.running Demo.heap_actions Demo.empty_storage) !! 12
               = Some (OAction [("setAudioMute", JBool true); ("setMyUser", JNull)]))
    by reflexivity.
  assert (H1 : heap (Demo.running Demo.heap_actions Demo.empty_storage) !! 11
               = Some (OAction [("setAudioMute", JBool true)])) by reflexivity.
  assert (Ht : heap (Demo.running Demo.heap_odd_actions Demo.empty_storage) !! 12
               = Some (OAction [("type", JNum 7)])) by reflexivity.
  split; [|split; [|split]].
  - apply (proj1 (dispatch_requires_one_key _ 11 _ H0)). simpl. lia.
  - apply (proj1 (dispatch_requires_one_key _ 12 _ H2)). simpl. lia.
  - apply (proj1 (proj2 (dispatch_requires_one_key _ 11 _ H1))
             "setAudioMute" (JBool true)); [reflexivity|discriminate].
  - apply (proj2 (proj2 (dispatch_requires_one_key _ 12 _ Ht)) (JNum 7)). reflexivity.
Defined.

(** One key: the store gets the action with its [type]; two keys: the
    call throws and the store gets nothing. *)
Example dispatch_one_key :
  let r := dispatch 11 (Demo.running Demo.heap_actions Demo.empty_storage) in
  fst r = Normal tt /\
  dispatched (snd r) = [[("setAudioMute", JBool true); ("type", JStr "setAudioMute")]].
Proof. vm_compute. split; reflexivity. Qed.

Example dispatch_two_keys :
  dispatch 12 (Demo.running Demo.heap_actions Demo.empty_storage) =
  (Throw (Error "actionType"), Demo.running Demo.heap_actions Demo.empty_storage).
Proof. vm_compute. reflexivity. Qed.

(** The claim C10 fails in private browsing: the probe fails, and the
    listener is subscribed to the store all the same. *)
Lemma failed_probe_still_subscribes :
  let ms := Demo.booting Demo.heap_default Demo.private_mode in
  fst (checkIfLocalStorageWorks ms) = Normal false /\
  fst (module_init ms) = Normal tt /\
  store_listeners (snd (module_init ms)) = [PersistListener].
Proof. vm_compute. repeat split. Qed.

Lemma failed_probe_silences_listener_witness :
  exists ms1,
    module_init (Demo.booting Demo.heap_default Demo.private_mode) = (Normal tt, ms1) /\
    hasLocalStorage ms1 = false /\
    store_listeners ms1 = [] ++ [PersistListener] /\
    storageLog ms1 = [SetItem "testLocalStorage" "someTestValue"] /\
    forall inputs,
      storageLog (snd (run inputs ms1)) = storageLog ms1 /\
      world (snd (run inputs ms1)) = world ms1.
Proof.
  assert (Hprobe : fst (checkIfLocalStorageWorks
                          (Demo.booting Demo.heap_default Demo.private_mode))
                   = Normal false) by reflexivity.
  exact (failed_probe_silences_listener
           (Demo.booting Demo.heap_default Demo.private_mode) Hprobe).
Defined.

(** The claim C2 fails on a stored snapshot that was cut short: the probe
    succeeds, [JSON.parse] rejects the string, and the top level of the
    module ends with the [SyntaxError]; no store is created. *)
Lemma truncated_snapshot_stops_startup :
  let ms := Demo.booting Demo.heap_default Demo.truncated in
  fst (checkIfLocalStorageWorks ms) = Normal true /\
  ls_getItem REDUX_STATE_LOCAL_STORAGE_KEY (world (snd (checkIfLocalStorageWorks ms)))
    = (Normal (Some "{"), Demo.truncated) /\
  JSON_parse "{" = None /\
  fst (module_init ms) = Throw SyntaxError /\
  store_state (snd (module_init ms)) = None.
Proof. vm_compute. repeat split. Qed.

Lemma startup_restores_or_throws_witness :
  exists ms',
    module_init (Demo.booting Demo.heap_default Demo.truncated) = (Throw SyntaxError, ms') /\
    store_state ms' = None /\
    store_listeners ms' = [].
Proof.
  pose (ms0 := Demo.booting Demo.heap_default Demo.truncated).
  assert (Hprobe : checkIfLocalStorageWorks ms0
                   = (Normal true, snd (checkIfLocalStorageWorks ms0)))
    by reflexivity.
  assert (Hget : ls_getItem REDUX_STATE_LOCAL_STORAGE_KEY
                   (world (snd (checkIfLocalStorageWorks ms0)))
                 = (Normal (Some "{"), Demo.truncated))
    by reflexivity.
  exact (startup_restores_or_throws ms0 (snd (checkIfLocalStorageWorks ms0))
           (Some "{") Demo.truncated Hprobe Hget).
Defined.

(** A stored snapshot that [JSON.parse] accepts is restored. *)
Example startup_restores_snapshot :
  persistedOldStore
    (snd (module_init (Demo.booting Demo.heap_default
                         (Demo.mkStorage [("reduxState", "{ }")] 5000 None)))) =
  Some (JObj []).
Proof. vm_compute. reflexivity. Qed.

(** * The further properties on concrete machines *)

Lemma trim_clears_contacts_witness :
  exists h',
    trimState 5 (Demo.running Demo.heap_contacts Demo.empty_storage) =
    (Normal 5, set_heap h' (Demo.running Demo.heap_contacts Demo.empty_storage)) /\
    has_value h' 5 (mkSnapshot [] [] [] [] (JStr "me") []) /\
    (forall l o, l <> 5 -> Demo.heap_contacts !! l = Some o -> h' !! l = Some o).
Proof.
  apply (trim_clears_contacts
           (Demo.running Demo.heap_contacts Demo.empty_storage) 5 Demo.value_contacts).
  - vm_compute. reflexivity.
  - reflexivity.
  - reflexivity.
  - discriminate.
Defined.

Lemma trim_keeps_user_and_grows_no_collection_witness :
  (exists state' h' v',
    trimState 5 (Demo.running Demo.heap_specs Demo.empty_storage) =
    (Normal state', set_heap h' (Demo.running Demo.heap_specs Demo.empty_storage)) /\
    has_value h' state' v' /\
    snap_myUser v' = JStr "me" /\
    snap_gameSpecIdToGameSpec v'
      `sublist_of` [("chess", JNum 1); ("go", JNum 2); ("risk", JNum 3)] /\
    snap_matchesList v' `sublist_of` [mkMatch "chess" 300 []] /\
    snap_phoneNumberToContact v' `sublist_of` [("+1", JStr "bob")] /\
    (trims_in_place Demo.value_specs ->
     snap_gameSpecsProps v' = [] /\
     snap_stateProps v' = [("audioMute", JBool true)]) /\
    (~ trims_in_place Demo.value_specs ->
     v' = default_with_user Demo.value_default (JStr "me"))) /\
  (exists state' h' v',
    trimState 5 (Demo.running Demo.heap_window Demo.empty_storage) =
    (Normal state', set_heap h' (Demo.running Demo.heap_window Demo.empty_storage)) /\
    has_value h' state' v' /\
    snap_myUser v' = JStr "me" /\
    snap_gameSpecIdToGameSpec v' `sublist_of` [] /\
    snap_matchesList v' `sublist_of` [] /\
    snap_phoneNumberToContact v' `sublist_of` [] /\
    (trims_in_place Demo.value_window ->
     snap_gameSpecsProps v' = [] /\
     snap_stateProps v' =
       [("windowDimensions",
         JObj [("windowWidth", JNum 800); ("windowHeight", JNum 600)])]) /\
    (~ trims_in_place Demo.value_window ->
     v' = mkSnapshot [] [] [] [] (JStr "me") [("audioMute", JBool false)])).
Proof.
  assert (H1 : has_value (heap (Demo.running Demo.heap_specs Demo.empty_storage)) 5
                 Demo.value_specs) by (vm_compute; reflexivity).
  assert (D1 : default_ok (heap (Demo.running Demo.heap_specs Demo.empty_storage))
                 Demo.value_default) by (repeat split).
  assert (H2 : has_value (heap (Demo.running Demo.heap_window Demo.empty_storage)) 5
                 Demo.value_window) by (vm_compute; reflexivity).
  assert (D2 : default_ok (heap (Demo.running Demo.heap_window Demo.empty_storage))
                 Demo.value_default) by (repeat split).
  split.
  - exact (trim_keeps_user_and_grows_no_collection Demo.value_default
             (Demo.running Demo.heap_specs Demo.empty_storage) 5 Demo.value_specs H1 D1).
  - exact (trim_keeps_user_and_grows_no_collection Demo.value_default
             (Demo.running Demo.heap_window Demo.empty_storage) 5 Demo.value_window H2 D2).
Defined.

Lemma trim_leaves_no_orphans_witness :
  exists h' v',
    trimState 5 (Demo.running Demo.heap_specs Demo.empty_storage) =
    (Normal 5, set_heap h' (Demo.running Demo.heap_specs Demo.empty_storage)) /\
    has_value h' 5 v' /\
    snap_matchesList v' = [mkMatch "chess" 300 []] /\
    orphans (snap_gameSpecIdToGameSpec v') (snap_matchesList v') = [].
Proof.
  apply (trim_leaves_no_orphans
           (Demo.running Demo.heap_specs Demo.empty_storage) 5 Demo.value_specs).
  - vm_compute. reflexivity.
  - vm_compute. discriminate.
Defined.

Lemma trim_after_default_writes_default_witness :
  exists state' h',
    trimTimes 2 6 (Demo.running Demo.heap_default_match Demo.empty_storage) =
    (Normal state',
     set_heap h' (Demo.running Demo.heap_default_match Demo.empty_storage)) /\
    has_value h' 0 (mkSnapshot [] [] [] [] JNull []).
Proof.
  pose (ms := Demo.running Demo.heap_default_match Demo.empty_storage).
  assert (H1 : has_value (heap ms) 6 Demo.value_empty) by (vm_compute; reflexivity).
  assert (H2 : ~ trims_in_place Demo.value_empty)
    by (intros [H|[H|H]]; apply H; reflexivity).
  assert (H3 : has_value (heap ms) storeStateDefault Demo.value_default_match)
    by (vm_compute; reflexivity).
  assert (H4 : snap_gameSpecIdToGameSpec Demo.value_default_match = []) by reflexivity.
  assert (H5 : snap_matchesList Demo.value_default_match <> []) by discriminate.
  exact (trim_after_default_writes_default Demo.value_default_match ms 6
           Demo.value_empty H1 H2 H3 H4 H5).
Defined.

Lemma listener_writes_once_on_success_witness :
  persistListener (Demo.running Demo.heap_specs Demo.empty_storage) =
  (Normal tt,
   with_effects Demo.heap_specs
     (Demo.mkStorage [("reduxState", Demo.stringify Demo.value_specs)] 5000 None)
     ([] ++ [SetItem REDUX_STATE_LOCAL_STORAGE_KEY (Demo.stringify Demo.value_specs)])
     (Demo.running Demo.heap_specs Demo.empty_storage)).
Proof.
  pose (ms := Demo.running Demo.heap_specs Demo.empty_storage).
  assert (H1 : hasLocalStorage ms = true) by reflexivity.
  assert (H2 : store_state ms = Some 5) by reflexivity.
  assert (H3 : has_value (heap ms) 5 Demo.value_specs) by (vm_compute; reflexivity).
  assert (H4 : ls_setItem REDUX_STATE_LOCAL_STORAGE_KEY
                 (JSON_stringify Demo.value_specs) (world ms)
               = (Normal tt,
                  Demo.mkStorage [("reduxState", Demo.stringify Demo.value_specs)]
                                 5000 None))
    by (vm_compute; reflexivity).
  exact (listener_writes_once_on_success ms 5 Demo.value_specs _ H1 H2 H3 H4).
Defined.

Lemma listener_writes_trimmed_values_witness :
  exists h' w' n,
    1 <= n <= 101 /\
    persistListener (Demo.running Demo.heap_specs Demo.small) =
    (Normal tt,
     with_effects h' w' ([] ++ writes_of Demo.value_default Demo.value_specs 0 n)
       (Demo.running Demo.heap_specs Demo.small)).
Proof.
  pose (ms := Demo.running Demo.heap_specs Demo.small).
  assert (H1 : hasLocalStorage ms = true) by reflexivity.
  assert (H2 : store_state ms = Some 5) by reflexivity.
  assert (H3 : has_value (heap ms) 5 Demo.value_specs) by (vm_compute; reflexivity).
  assert (H4 : default_ok (heap ms) Demo.value_default) by (repeat split).
  exact (listener_writes_trimmed_values Demo.value_default ms 5 Demo.value_specs
           H1 H2 H3 H4).
Defined.

Lemma listener_only_writes_the_snapshot_witness :
  let ms := Demo.running_at 6 Demo.heap_default_match Demo.private_mode in
  exists h' w' rest,
    persistListener ms = (Normal tt, with_effects h' w' (storageLog ms ++ rest) ms) /\
    length rest <= 101 /\
    Forall is_state_write rest /\
    (hasLocalStorage ms = false -> rest = []) /\
    (hasLocalStorage ms = true ->
     exists rest', rest = SetItem "reduxState" (JSON_stringify Demo.value_empty) :: rest') /\
    (forall e (P : Demo.Storage -> Prop),
       hasLocalStorage ms = true -> writes_fail e P -> P (world ms) ->
       length rest = 101).
Proof.
  intros ms.
  assert (H1 : store_state ms = Some 6) by reflexivity.
  assert (H2 : has_value (heap ms) 6 Demo.value_empty) by (vm_compute; reflexivity).
  assert (H3 : has_value (heap ms) storeStateDefault Demo.value_default_match)
    by (vm_compute; reflexivity).
  exact (listener_only_writes_the_snapshot Demo.value_default_match ms 6
           Demo.value_empty H1 H2 H3).
Defined.

(** The default state has a match and every write fails: the loop still
    makes its 100 iterations, and it has taken the match out of the
    default state. *)
Example listener_with_a_match_in_the_default :
  let ms := Demo.running_at 6 Demo.heap_default_match Demo.private_mode in
  fst (persistListener ms) = Normal tt /\
  length (storageLog (snd (persistListener ms))) = 101 /\
  snapshot (heap (snd (persistListener ms))) 0 = Some (mkSnapshot [] [] [] [] JNull []) /\
  snapshot (heap (snd (persistListener ms))) 6 = Some Demo.value_empty.
Proof. vm_compute. repeat split. Qed.

(** The probe in private browsing, where the write throws, and on a
    working storage. *)
Example probe_in_private_browsing :
  checkIfLocalStorageWorks (Demo.booting Demo.heap_default Demo.private_mode) =
  (Normal false,
   with_effects Demo.heap_default Demo.private_mode
     [SetItem "testLocalStorage" "someTestValue"]
     (Demo.booting Demo.heap_default Demo.private_mode)).
Proof. vm_compute. reflexivity. Qed.

Example probe_on_working_storage :
  checkIfLocalStorageWorks (Demo.booting Demo.heap_default Demo.empty_storage) =
  (Normal true,
   with_effects Demo.heap_default Demo.empty_storage
     [SetItem "testLocalStorage" "someTestValue"; RemoveItem "testLocalStorage"]
     (Demo.booting Demo.heap_default Demo.empty_storage)).
Proof. vm_compute. reflexivity. Qed.

Lemma startup_state_comes_from_reducer_witness :
  let ms0 := Demo.booting Demo.heap_default Demo.empty_storage in
  let ms1 := snd (module_init ms0) in
  store_state ms1 = Some 0 /\
  heap ms1 = Demo.heap_default /\
  store_listeners ms1 = [] ++ [PersistListener] /\
  dispatched ms1 = [] /\
  exists rest,
    storageLog ms1 = [] ++ rest /\
    length rest <= 3 /\
    Forall (fun c => ~ is_state_write c) rest.
Proof.
  intros ms0 ms1.
  assert (Hinit : module_init ms0 = (Normal tt, ms1)) by reflexivity.
  exact (startup_state_comes_from_reducer ms0 ms1 Hinit).
Defined.

Lemma dispatch_twice_throws_witness :
  let ms1 := snd (dispatch 11 (Demo.running Demo.heap_actions Demo.empty_storage)) in
  heap ms1 !! 11 =
    Some (OAction [("setAudioMute", JBool true); ("type", JStr "setAudioMute")]) /\
  dispatch 11 ms1 = (Throw (Error "actionType"), ms1).
Proof.
  pose (ms := Demo.running Demo.heap_actions Demo.empty_storage).
  assert (H1 : heap ms !! 11 = Some (OAction [("setAudioMute", JBool true)]))
    by reflexivity.
  assert (H2 : "setAudioMute" <> "type") by discriminate.
  assert (H3 : forall s a h o, h !! 11 = Some (OAction o) ->
                 snd (reducer s a h) !! 11 = Some (OAction o))
    by (intros s a h o Ho; exact Ho).
  exact (dispatch_twice_throws ms 11 "setAudioMute" (JBool true) H1 H2 H3).
Defined.

Lemma dispatch_saves_the_new_state_witness :
  exists h' w',
    dispatch 11 (Demo.running Demo.heap_actions Demo.empty_storage) =
    (Normal tt,
     with_effects h' w'
       ([] ++ [SetItem REDUX_STATE_LOCAL_STORAGE_KEY (Demo.stringify Demo.value_specs)])
       (set_store h' (Some 5)
          [set_prop "type" (JStr "setAudioMute") [("setAudioMute", JBool true)]]
          (Demo.running Demo.heap_actions Demo.empty_storage))).
Proof.
  pose (ms := Demo.running Demo.heap_actions Demo.empty_storage).
  pose (a' := set_prop "type" (JStr "setAudioMute") [("setAudioMute", JBool true)]).
  pose (h1 := <[11 := OAction a']> (heap ms)).
  assert (H1 : heap ms !! 11 = Some (OAction [("setAudioMute", JBool true)]))
    by reflexivity.
  assert (H2 : hasLocalStorage ms = true) by reflexivity.
  assert (H3 : store_listeners ms = [PersistListener]) by reflexivity.
  assert (H4 : reducer (store_state ms) a' h1 = (5, h1)) by reflexivity.
  assert (H5 : has_value h1 5 Demo.value_specs) by (vm_compute; reflexivity).
  assert (H6 : ls_setItem REDUX_STATE_LOCAL_STORAGE_KEY
                 (JSON_stringify Demo.value_specs) (world ms)
               = (Normal tt,
                  Demo.mkStorage [("reduxState", Demo.stringify Demo.value_specs)]
                                 5000 None))
    by (vm_compute; reflexivity).
  eexists _, _.
  exact (dispatch_saves_the_new_state ms 11 "setAudioMute" (JBool true) 5 h1
           Demo.value_specs _ H1 H2 H3 H4 H5 H6).
Defined.

Lemma resize_to_same_size_witness :
  handleResize 800 600
    (mkResizer (Demo.running Demo.heap_window Demo.empty_storage) false 0) =
  (Normal tt, mkResizer (Demo.running Demo.heap_window Demo.empty_storage) true 1).
Proof.
  apply (resize_to_same_size
           (mkResizer (Demo.running Demo.heap_window Demo.empty_storage) false 0) 5
           (mkStoreState 6 8 9 (JStr "me")
              [("windowDimensions",
                JObj [("windowWidth", JNum 800); ("windowHeight", JNum 600)])])
           [("windowWidth", JNum 800); ("windowHeight", JNum 600)] 800 600).
  - reflexivity.
  - reflexivity.
  - reflexivity.
  - reflexivity.
  - reflexivity.
  - reflexivity.
Defined.


Lemma one_timer_at_most_witness :
  let r := window_run [ResizeEvent 800 600; ResizeEvent 640 480;
                       TimerExpires 1024 768; ResizeEvent 320 200]
             (mkResizer (Demo.running Demo.heap_window Demo.empty_storage) false 0) in
  throttle_inv r /\ pendingTimers r <= 1.
Proof.
  apply (one_timer_at_most
           [ResizeEvent 800 600; ResizeEvent 640 480;
            TimerExpires 1024 768; ResizeEvent 320 200]
           (mkResizer (Demo.running Demo.heap_window Demo.empty_storage) false 0)).
  reflexivity.
Defined.

Lemma resizes_are_throttled_witness :
  window_run (ResizeEvent 800 600 ::
              map (fun s => ResizeEvent (fst s) (snd s)) [(640, 480); (320, 200)]%Z ++
              [TimerExpires 1024 768])
    (mkResizer (Demo.running Demo.heap_window Demo.empty_storage) false 0) =
  mkResizer
    (snd (setDimensions 1024 768
            (snd (setDimensions 800 600
                    (Demo.running Demo.heap_window Demo.empty_storage)))))
    false 0.
Proof.
  apply (resizes_are_throttled
           (mkResizer (Demo.running Demo.heap_window Demo.empty_storage) false 0)
           800 600 1024 768 [(640, 480); (320, 200)]%Z).
  - reflexivity.
  - reflexivity.
  - reflexivity.
Defined.
